(** * bbot: a shallow embedding of the core library and its properties

    The development follows the TypeScript sources of the bot framework:
    - [lib/path.ts]        : module [Path]
    - [util/config]        : module [Config]   (the [Settings] class)
    - [lib/memory.ts]      : module [Memory]
    - [lib/middleware.ts]  : module [Middleware]
    - [lib/bot]            : module [Lifecycle] (load/start/shutdown/pause/reset)
    - [lib/condition.ts]   : modules [RegExp] (the expressions of the host
                             language, as far as the file relies on them)
                             and [Condition]

    JavaScript objects used as dictionaries are finite maps ([gmap]) keyed by
    strings; strings are [string]; asynchronous functions are modelled by
    explicit state passing, with every [await] a point where other code may
    run. *)

From Stdlib Require Import ZArith Ascii String List Bool Lia.
From stdpp Require Import base option list strings gmap fin_maps.

Local Open Scope string_scope.

(* ===================================================================== *)
(** * lib/path.ts *)
(* ===================================================================== *)

Module Path.

(** The branch subclasses that the path factories create.  Only [id] and
    [force] of a branch are read by [Path]; the subclass is kept as a tag. *)
Inductive BranchKind :=
| TextBranch | TextDirectBranch | CustomBranch | CatchAllBranch
| NaturalLanguageBranch | NaturalLanguageDirectBranch | ServerBranch.

(** [force?: boolean] is an optional field: [None] is [undefined]. *)
Record Branch := mkBranch {
  id : string;
  force : option bool;
  kind : BranchKind
}.

(** JavaScript truthiness of the optional boolean, as tested by [!b.force]. *)
Definition truthy (f : option bool) : bool :=
  match f with Some true => true | _ => false end.

(** The four collections of a path. *)
Inductive Collection := listen | understand | serve | act.

(** [forced] accepts ['listen' | 'understand' | 'act'] only. *)
Inductive ForcedCollection := Flisten | Funderstand | Fact.

Definition of_forced (c : ForcedCollection) : Collection :=
  match c with Flisten => listen | Funderstand => understand | Fact => act end.

Record Path := mkPath {
  scope : string;
  p_listen : gmap string Branch;
  p_understand : gmap string Branch;
  p_serve : gmap string Branch;
  p_act : gmap string Branch
}.

(** [this[collection]] *)
Definition get (c : Collection) (p : Path) : gmap string Branch :=
  match c with
  | listen => p_listen p
  | understand => p_understand p
  | serve => p_serve p
  | act => p_act p
  end.

(** [this[collection] = m] *)
Definition put (c : Collection) (m : gmap string Branch) (p : Path) : Path :=
  match c with
  | listen => mkPath (scope p) m (p_understand p) (p_serve p) (p_act p)
  | understand => mkPath (scope p) (p_listen p) m (p_serve p) (p_act p)
  | serve => mkPath (scope p) (p_listen p) (p_understand p) m (p_act p)
  | act => mkPath (scope p) (p_listen p) (p_understand p) (p_serve p) m
  end.

(** [new Path()] *)
Definition empty : Path := mkPath "global" ∅ ∅ ∅ ∅.

(** [Object.keys(o)] (as a set of keys; the order plays no role below). *)
Definition keys (m : gmap string Branch) : list string := (map_to_list m).*1.

(** One turn of the [for (let id in this[collection])] loop of [forced]:
    [if (!this[collection][id].force) delete this[collection][id]].
    A key deleted earlier in the loop is not visited. *)
Definition forced_body (acc : gmap string Branch) (i : string) : gmap string Branch :=
  match acc !! i with
  | Some b => if truthy (force b) then acc else delete i acc
  | None => acc
  end.

Definition forced_loop (ids : list string) (m : gmap string Branch) : gmap string Branch :=
  foldl forced_body m ids.

(** [forced (collection)]: the path after the call and the returned
    [Object.keys(this[collection]).length]. *)
Definition forced (c : ForcedCollection) (p : Path) : Path * nat :=
  let m := forced_loop (keys (get (of_forced c) p)) (get (of_forced c) p) in
  (put (of_forced c) m p, size m).

(** [add (branch, collection)]: the path after the call and the id
    returned.  [None]: the id is ['__proto__']; the assignment
    [this[collection][branch.id] = branch] then stores no branch but makes
    the branch the prototype of the collection, which these definitions do
    not follow. *)
Definition add (b : Branch) (c : Collection) (p : Path) : option (Path * string) :=
  if String.eqb (id b) "__proto__" then None
  else Some (put c (<[id b := b]> (get c p)) p, id b).

(** [reset ()] *)
Definition reset (p : Path) : Path :=
  mkPath (scope p) ∅ ∅ (p_serve p) ∅.

End Path.

(* ===================================================================== *)
(** * Properties of lib/path.ts *)
(* ===================================================================== *)

Module PathProps.
Import Path.

Lemma get_put c m p : get c (put c m p) = m.
Proof. by destruct c. Qed.

Lemma get_put_ne c c' m p : c <> c' -> get c' (put c m p) = get c' p.
Proof. by destruct c, c'. Qed.

(** The loop only ever deletes: what is left was there before. *)
Lemma forced_loop_lookup_Some ids : forall (m : gmap string Branch) i b,
  forced_loop ids m !! i = Some b -> m !! i = Some b.
Proof.
  induction ids as [|j ids IH]; intros m i b; simpl; [done|].
  intros H. apply IH in H. unfold forced_body in H.
  destruct (m !! j) as [bj|] eqn:Hj; [|done].
  destruct (truthy (force bj)); [done|].
  apply lookup_delete_Some in H. tauto.
Qed.

(** A visited key survives only when its branch is forced. *)
Lemma forced_loop_visited ids : forall (m : gmap string Branch) i b,
  i ∈ ids -> forced_loop ids m !! i = Some b -> truthy (force b) = true.
Proof.
  induction ids as [|j ids IH]; intros m i b Hin; simpl.
  - by apply elem_of_nil in Hin.
  - intros H. apply elem_of_cons in Hin as [->|Hin]; [|by eapply IH].
    apply forced_loop_lookup_Some in H. unfold forced_body in H.
    destruct (m !! j) as [bj|] eqn:Hj; [|congruence].
    destruct (truthy (force bj)) eqn:Hf.
    + congruence.
    + by rewrite lookup_delete_eq in H.
Qed.

Lemma truthy_force b : truthy (force b) = true -> force b = Some true.
Proof. by destruct (force b) as [[]|]. Qed.

(** A forced branch is never deleted by the loop. *)
Lemma forced_loop_keeps ids : forall (m : gmap string Branch) i b,
  m !! i = Some b -> truthy (force b) = true -> forced_loop ids m !! i = Some b.
Proof.
  induction ids as [|j ids IH]; intros m i b Hi Hf; simpl; [done|].
  apply IH; [|done]. unfold forced_body.
  destruct (m !! j) as [bj|] eqn:Hj; [|done].
  destruct (truthy (force bj)) eqn:Hfj; [done|].
  rewrite lookup_delete_ne; [done|]. intros ->. congruence.
Qed.

(** [forced] keeps exactly the branches of the collection that are forced. *)
Lemma forced_lookup (P : Path) (s : ForcedCollection) (i : string) (b : Branch) :
  get (of_forced s) (forced s P).1 !! i = Some b <->
  get (of_forced s) P !! i = Some b /\ force b = Some true.
Proof.
  unfold forced; simpl. rewrite get_put. split.
  - intros H. split; [by eapply forced_loop_lookup_Some|].
    apply truthy_force. eapply forced_loop_visited; [|exact H].
    apply forced_loop_lookup_Some in H.
    unfold keys. apply list_elem_of_fmap. exists (i, b). split; [done|].
    by apply elem_of_map_to_list.
  - intros [H Hf]. apply forced_loop_keeps; [done|]. by rewrite Hf.
Qed.

(** The other collections are left as they are. *)
Lemma forced_frame (P : Path) (s : ForcedCollection) (c : Collection) :
  c <> of_forced s -> get c (forced s P).1 = get c P.
Proof. intros H. unfold forced; simpl. by apply get_put_ne. Qed.

(** C4: after [P.forced(s)] every branch left in [P[s]] has [force = true],
    and the returned count is the number of branches left in [P[s]]. *)
Theorem forced_all_forced_and_count (P : Path) (s : ForcedCollection) :
  map_Forall (fun _ b => force b = Some true) (get (of_forced s) (forced s P).1)
  /\ (forced s P).2 = size (get (of_forced s) (forced s P).1).
Proof.
  unfold forced; simpl. rewrite get_put. split; [|done].
  intros i b H. apply truthy_force.
  eapply forced_loop_visited; [|exact H].
  apply forced_loop_lookup_Some in H.
  unfold keys. apply list_elem_of_fmap. exists (i, b). split; [done|].
  by apply elem_of_map_to_list.
Qed.

(** C8: after [P.reset()] the listen, understand and act maps are empty and
    the serve map is the one held before the call. *)
Theorem reset_empties_keeps_serve (P : Path) :
  get listen (reset P) = ∅ /\ get understand (reset P) = ∅ /\
  get act (reset P) = ∅ /\ get serve (reset P) = get serve P.
Proof. unfold reset; simpl; auto. Qed.

End PathProps.


(* ===================================================================== *)
(** * util/config: the Settings class *)
(* ===================================================================== *)

Module Config.

(** Character classes of the regular expressions used by the class. *)
Definition between (lo hi c : ascii) : bool :=
  (N_of_ascii lo <=? N_of_ascii c)%N && (N_of_ascii c <=? N_of_ascii hi)%N.

Definition is_lower (c : ascii) : bool := between "a" "z" c.
Definition is_upper (c : ascii) : bool := between "A" "Z" c.
Definition is_digit (c : ascii) : bool := between "0" "9" c.

(** [toLowerCase] and [toUpperCase] on one character matched by [[A-Z]] or
    [[a-z]] (with flag [i]). *)
Definition toLowerCase (c : ascii) : ascii :=
  if is_upper c then ascii_of_N (N_of_ascii c + 32) else c.

Definition toUpperCase (c : ascii) : ascii :=
  if is_lower c then ascii_of_N (N_of_ascii c - 32) else c.

(** [str.replace(/([A-Z])/g, (g) => `-${g[0].toLowerCase()}`)] *)
Fixpoint hyphenate (str : string) : string :=
  match str with
  | EmptyString => EmptyString
  | String c rest =>
      if is_upper c then String "-" (String (toLowerCase c) (hyphenate rest))
      else String c (hyphenate rest)
  end.

(** [str.replace(/-([a-z])/gi, (g) => g[1].toUpperCase())] *)
Fixpoint camelCase (str : string) : string :=
  match str with
  | EmptyString => EmptyString
  | String c rest =>
      match rest with
      | String d rest' =>
          if Ascii.eqb c "-" && (is_lower d || is_upper d)
          then String (toUpperCase d) (camelCase rest')
          else String c (camelCase rest)
      | EmptyString => String c EmptyString
      end
  end.

(** The class [[a-z0-9_-]] of [safeName], matched with the [i] flag: a
    character belongs to it when its case-folded form does, so the letters
    of both cases are members. *)
Definition safe_class_i (c : ascii) : bool :=
  is_lower c || is_upper c || is_digit c || Ascii.eqb c "_" || Ascii.eqb c "-".

(** The class [[a-z0-9_-]] read without the flag. *)
Definition safe_class (c : ascii) : bool :=
  is_lower c || is_digit c || Ascii.eqb c "_" || Ascii.eqb c "-".

(** [safeName (name) { return name.replace(/[^a-z0-9_-]/ig, '') }]:
    every character outside the class is replaced by the empty string. *)
Fixpoint safeName (name : string) : string :=
  match name with
  | EmptyString => EmptyString
  | String c rest =>
      if negb (safe_class_i c) then safeName rest
      else String c (safeName rest)
  end.

(** Values held by the configuration object. *)
Inductive Value :=
| VStr (s : string)
| VBool (b : bool)
| VNum (n : Z)
| VNull.

(** The two dictionaries of a [Settings] instance written by [set]. *)
Record Settings := mkSettings {
  config : gmap string Value;
  updates : gmap string Value
}.

(** [get (key)]: the value stored under the key.  What a key gives under
    which nothing is stored is followed in [ConfigReload.get]. *)
Definition get (key : string) (s : Settings) : option Value := config s !! key.

Definition assign (key : string) (value : Value) (s : Settings) : Settings :=
  mkSettings (<[key := value]> (config s)) (<[key := value]> (updates s)).

(** [set (key, value)], for a key other than ['__proto__'] (see
    [ConfigReload.set]). *)
Definition set (key : string) (value : Value) (s : Settings) : Settings :=
  let s1 := assign key value s in
  if String.eqb key (hyphenate key) then assign (camelCase key) value s1
  else if String.eqb key (camelCase key) then assign (hyphenate key) value s1
  else s1.

(** [set name (name: string) { this.set('name', this.safeName(name)) }] *)
Definition set_name (name : string) (s : Settings) : Settings :=
  set "name" (VStr (safeName name)) s.

(** [set alias (name: string) { this.set('alias', this.safeName(name)) }] *)
Definition set_alias (name : string) (s : Settings) : Settings :=
  set "alias" (VStr (safeName name)) s.

(** Defaults of [initOptions], under the hyphenated and camel-case keys. *)
Definition initOptions : list (string * Value) :=
  [ ("name", VStr "bot"); ("log-level", VStr "info"); ("auto-save", VBool true);
    ("use-server", VBool true); ("server-host", VStr "localhost");
    ("server-port", VStr "3000"); ("server-secure", VBool false);
    ("message-adapter", VStr "./adapters/shell"); ("nlu-adapter", VNull);
    ("storage-adapter", VNull); ("nlu-min-length", VNum 10);
    ("request-timeout", VNum 1500) ].

Definition defaults : Settings :=
  mkSettings
    (list_to_map (initOptions ++ map (fun kv => (camelCase (fst kv), snd kv)) initOptions))
    ∅.

(** All characters of a string belong to a class. *)
Fixpoint all_chars (cls : ascii -> bool) (s : string) : bool :=
  match s with
  | EmptyString => true
  | String c rest => cls c && all_chars cls rest
  end.

(** The value stored under [key] is a string made of characters of [cls]. *)
Definition stores_only (cls : ascii -> bool) (key : string) (s : Settings) : Prop :=
  exists v, get key s = Some (VStr v) /\ all_chars cls v = true.

End Config.

(* ===================================================================== *)
(** * Properties of the Settings class *)
(* ===================================================================== *)

Module ConfigProps.
Import Config.

Example hyphenate_ex : hyphenate "autoSave" = "auto-save".
Proof. reflexivity. Qed.

Example camelCase_ex : camelCase "nlu-min-length" = "nluMinLength".
Proof. reflexivity. Qed.

Example safeName_ex : safeName "f()!o@#o2" = "foo2".
Proof. reflexivity. Qed.

Lemma safeName_chars (name : string) : all_chars safe_class_i (safeName name) = true.
Proof.
  induction name as [|c rest IH]; simpl; [reflexivity|].
  destruct (safe_class_i c) eqn:Hc; simpl; [|exact IH].
  rewrite Hc. exact IH.
Qed.

Lemma get_set_name (name : string) (s : Settings) :
  get "name" (set_name name s) = Some (VStr (safeName name)).
Proof. unfold set_name, set, get, assign; simpl. by rewrite lookup_insert_eq. Qed.

Lemma get_set_alias (name : string) (s : Settings) :
  get "alias" (set_alias name s) = Some (VStr (safeName name)).
Proof. unfold set_alias, set, get, assign; simpl. by rewrite lookup_insert_eq. Qed.

(** C9 (as amended): whatever string is assigned through the name setter or
    the alias setter, the stored value is a string whose characters all lie
    in [[A-Za-z0-9_-]]: letters of either case, digits, underscore, hyphen. *)
Theorem setters_store_safe_chars (name : string) (s : Settings) :
  stores_only safe_class_i "name" (set_name name s) /\
  stores_only safe_class_i "alias" (set_alias name s).
Proof.
  split; exists (safeName name); split;
    auto using get_set_name, get_set_alias, safeName_chars.
Qed.

(** C9 (as stated) fails: the setter keeps the capital letter of ["Bot"],
    which is not in [[a-z0-9_-]]. *)
Lemma name_setter_keeps_uppercase :
  get "name" (set_name "Bot" defaults) = Some (VStr "Bot") /\
  ~ stores_only safe_class "name" (set_name "Bot" defaults).
Proof.
  split; [reflexivity|].
  intros [v [Hv Hc]]. rewrite get_set_name in Hv.
  injection Hv as <-. vm_compute in Hc. discriminate.
Qed.

End ConfigProps.


(* ===================================================================== *)
(** * lib/memory.ts *)
(* ===================================================================== *)

Module Memory.

(** Errors with which an operation may be rejected.  [StorageUnavailable]
    is the kind the error list of the specification names for a memory
    operation attempted without storage adapter; [AdapterFailure] is a
    rejection coming from the adapter itself. *)
Inductive Error :=
| StorageUnavailable
| AdapterFailure (msg : string).

(** How the promise returned by an [async] method settles. *)
Inductive Outcome :=
| Resolved
| Rejected (e : Error).

Section WithValues.

(** Stored values are opaque to the memory. *)
Variable Val : Type.

(** [intervals.save]: the handle of the armed timer, if any, and the period. *)
Record SaveInterval := mkSaveInterval {
  timer : option nat;
  value : Z
}.

(** A [Memory] instance, as the class declares it: the three collections,
    the save tracking record, and the collections added through the index
    signature.  Objects are taken by value: what the adapter keeps is the
    memory as it was when [saveMemory] was called. *)
Record Memory := mkMemory {
  users : gmap string Val;
  rooms : gmap string Val;
  private : gmap string Val;
  intervals : SaveInterval;
  collections : gmap string (gmap string Val)
}.

(** [new Memory()] *)
Definition new_memory : Memory :=
  mkMemory ∅ ∅ ∅ (mkSaveInterval None 5000) ∅.

(** The storage adapter, as far as the memory uses it: a state [S] and the
    two methods, either of which may reject.  [loadMemory] answers with an
    object of the shape [saveMemory] is given. *)
Record StorageAdapter (S : Type) := mkStorageAdapter {
  saveMemory : S -> Memory -> Error + S;
  loadMemory : S -> Error + Memory
}.

Variable S : Type.
Variable adapter : StorageAdapter S.

(** What the methods of the [memory] singleton read and write:
    the singleton itself, [adapter.adapters.storage] ([None] when no storage
    adapter is registered), [settings.get('autoSave')], the interval timers
    armed in the host, the next fresh timer handle and the warnings logged. *)
Record World := mkWorld {
  memory : Memory;
  storage : option S;
  autoSave : bool;
  armed : list nat;
  fresh : nat;
  warnings : list string
}.

Definition with_memory (m : Memory) (w : World) : World :=
  mkWorld m (storage w) (autoSave w) (armed w) (fresh w) (warnings w).

Definition with_storage (s : S) (w : World) : World :=
  mkWorld (memory w) (Some s) (autoSave w) (armed w) (fresh w) (warnings w).

(** [clearSaveInterval ()]: the host timer is cleared, the handle stays. *)
Definition clearSaveInterval (w : World) : World :=
  match timer (intervals (memory w)) with
  | Some t =>
      mkWorld (memory w) (storage w) (autoSave w)
              (filter (fun t' => t' <> t) (armed w)) (fresh w) (warnings w)
  | None => w
  end.

Definition with_intervals (i : SaveInterval) (m : Memory) : Memory :=
  mkMemory (users m) (rooms m) (private m) i (collections m).

(** [setSaveInterval (newInterval?)] *)
Definition setSaveInterval (newInterval : option Z) (w : World) : World :=
  let v := match newInterval with
           | Some n => if Z.eqb n 0 then value (intervals (memory w)) else n
           | None => value (intervals (memory w))
           end in
  let m1 := with_intervals (mkSaveInterval (timer (intervals (memory w))) v) (memory w) in
  match storage w with
  | Some _ =>
      if autoSave w then
        mkWorld (with_intervals (mkSaveInterval (Some (fresh w)) v) m1)
                (storage w) (autoSave w) (fresh w :: armed w) (Datatypes.S (fresh w))
                (warnings w)
      else with_memory m1 w
  | None => with_memory m1 w
  end.

(** [async save ()], when nothing else runs between the call of the adapter
    and its answer; [MemoryTurns] follows the two turns apart. *)
Definition save (w : World) : World * Outcome :=
  match storage w with
  | None => (w, Resolved)
  | Some s =>
      let w1 := clearSaveInterval w in
      match saveMemory S adapter s (memory w1) with
      | inl e => (w1, Rejected e)
      | inr s' => (setSaveInterval None (with_storage s' w1), Resolved)
      end
  end.

(** [Object.assign({}, a, b)] on two collections: the entries of [b] win. *)
Definition assign (a b : gmap string Val) : gmap string Val := b ∪ a.

(** The loop of [load]: [for (let key in loaded)
    this[key] = Object.assign({}, this[key], loaded[key])].  The keys of
    [loaded] are the declared properties and its added collections; an added
    collection absent from [this] is merged with [undefined]; both
    [intervals] hold the one property [save], so that of [loaded] wins. *)
Definition merge (this loaded : Memory) : Memory :=
  mkMemory
    (assign (users this) (users loaded))
    (assign (rooms this) (rooms loaded))
    (assign (private this) (private loaded))
    (intervals loaded)
    (union_with (fun l t => Some (assign t l)) (collections loaded) (collections this)).

(** [async load ()] *)
Definition load (w : World) : World * Outcome :=
  match storage w with
  | None =>
      (mkWorld (memory w) (storage w) (autoSave w) (armed w) (fresh w)
         ("[memory] cannot load or persist data without storage adapter." :: warnings w),
       Resolved)
  | Some s =>
      match loadMemory S adapter s with
      | inl e => (w, Rejected e)
      | inr loaded => (with_memory (merge (memory w) loaded) w, Resolved)
      end
  end.

(** The adapter gives back on [loadMemory] the object last handed to
    [saveMemory]. *)
Definition returns_last_saved : Prop :=
  forall (s : S) (m : Memory),
    exists s', saveMemory S adapter s m = inr s' /\ loadMemory S adapter s' = inr m.

End WithValues.

Arguments mkSaveInterval timer value : assert.
Arguments mkMemory {Val}.
Arguments mkWorld {Val S}.
Arguments users {Val}.
Arguments rooms {Val}.
Arguments private {Val}.
Arguments intervals {Val}.
Arguments collections {Val}.
Arguments memory {Val S}.
Arguments storage {Val S}.
Arguments warnings {Val S}.
Arguments save {Val S}.
Arguments load {Val S}.
Arguments returns_last_saved {Val S}.
Arguments autoSave {Val S}.
Arguments armed {Val S}.
Arguments clearSaveInterval {Val S}.
Arguments setSaveInterval {Val S}.
Arguments with_memory {Val S}.
Arguments with_storage {Val S}.
Arguments assign {Val}.
Arguments merge {Val}.

(** A storage adapter that keeps the last object saved.  Before any save it
    answers with a fresh memory. *)
Definition keeping (Val : Type) : StorageAdapter Val (option (Memory Val)) :=
  mkStorageAdapter Val (option (Memory Val))
    (fun _ m => inr (Some m))
    (fun s => inr (match s with Some m => m | None => new_memory Val end)).

End Memory.

(* ===================================================================== *)
(** * Properties of lib/memory.ts *)
(* ===================================================================== *)

Module MemoryProps.
Import Memory.

(** A memory knowing one user, and worlds around it with and without a
    storage adapter registered. *)
Definition one_user : Memory string :=
  mkMemory {["u1" := "Ann"]} ∅ {["motd" := "hello"]} (mkSaveInterval None 5000) ∅.

Definition with_adapter : World string (option (Memory string)) :=
  mkWorld one_user (Some None) true [] 0 [].

Definition without_adapter : World string (option (Memory string)) :=
  mkWorld one_user None true [] 0 [].

Lemma keeping_returns_last_saved (Val : Type) : returns_last_saved (keeping Val).
Proof. intros s m. exists (Some m). split; reflexivity. Qed.

Lemma memory_clearSaveInterval {Val S} (w : World Val S) :
  memory (clearSaveInterval w) = memory w.
Proof. unfold clearSaveInterval. by destruct (timer (intervals (memory w))). Qed.

Lemma storage_clearSaveInterval {Val S} (w : World Val S) :
  storage (clearSaveInterval w) = storage w.
Proof. unfold clearSaveInterval. by destruct (timer (intervals (memory w))). Qed.

(** Arming the timer touches the save tracking record only. *)
Lemma collections_setSaveInterval {Val S} (n : option Z) (w : World Val S) :
  users (memory (setSaveInterval n w)) = users (memory w) /\
  rooms (memory (setSaveInterval n w)) = rooms (memory w) /\
  private (memory (setSaveInterval n w)) = private (memory w) /\
  storage (setSaveInterval n w) = storage w.
Proof.
  unfold setSaveInterval.
  destruct (storage w) eqn:Hs; [destruct (autoSave w)|]; simpl; auto.
Qed.

Lemma assign_same {Val} (m : gmap string Val) : assign m m = m.
Proof. unfold assign. apply (idemp_L (∪)). Qed.



(** C7 (as amended): without a storage adapter registered, [save()] resolves
    and changes nothing, and [load()] resolves, logs its warning and leaves
    the memory untouched; neither is rejected. *)
Theorem no_storage_is_silent {Val S} (a : StorageAdapter Val S) (w : World Val S) :
  storage w = None ->
  save a w = (w, Resolved) /\
  (load a w).2 = Resolved /\
  memory (load a w).1 = memory w /\
  warnings (load a w).1 =
    "[memory] cannot load or persist data without storage adapter." :: warnings w.
Proof. intros Hs. unfold save, load. rewrite Hs. simpl. auto. Qed.

Lemma no_storage_is_silent_witness :
  storage without_adapter = None /\
  save (keeping string) without_adapter = (without_adapter, Resolved).
Proof.
  split; [reflexivity|].
  exact (proj1 (no_storage_is_silent (keeping string) without_adapter eq_refl)).
Defined.

(** C7 (as stated) fails: with no storage adapter, neither call is rejected
    with [StorageUnavailable]. *)
Lemma no_storage_not_rejected :
  storage without_adapter = None /\
  (save (keeping string) without_adapter).2 <> Rejected StorageUnavailable /\
  (load (keeping string) without_adapter).2 <> Rejected StorageUnavailable.
Proof. repeat split; discriminate. Qed.

End MemoryProps.


(* ===================================================================== *)
(** * lib/middleware.ts *)
(* ===================================================================== *)

Module Middleware.

(** An error thrown by a piece or by [complete]; [executePiece] annotates it
    with the middleware type before throwing it again. *)
Record Error := mkError {
  message : string;
  middleware : option string
}.

(** What a piece throws.  [Object err]: an object that takes new properties,
    as the instances of [Error] do.  [Sealed typeError]: a value that takes
    none (a string or another primitive, [null], [undefined], a frozen
    object); [typeError] is the message of the [TypeError] that the
    assignment [err.state = b] of the catch block then raises. *)
Inductive Thrown :=
| Object (err : Error)
| Sealed (typeError : string).

Section Stack.

(** The state object [b] handed to every piece. *)
Variable State : Type.

(** [IPieceDone] functions.  [Resolve] is the [() => resolve(b)] made by
    [reduceStack].  A piece may hand its own function to [next]: one that
    runs some logic and then calls the done it wraps ([Wrap]), one that
    runs some logic and calls no done ([Detached]), or an asynchronous one
    ([Later]): it returns at once and calls [inner] after an await of its
    own, which is over when the run has come back from [turns] awaits (of
    [reduceStack] or of a piece) and is at the next one.  [tight] tells that
    the call then comes so late that the [then] callback of the outer
    promise has not run yet when the run continues. *)
Inductive Done :=
| Resolve
| Wrap (logic : State -> State) (inner : Done)
| Detached (logic : State -> State)
| Later (turns : nat) (tight : bool) (inner : Done).

(** What a piece does with its three arguments, in order: change the state,
    call [next()] or [next(newDone)] (the new function may close over the
    [done] the piece received), call [done()], await something, throw. *)
Inductive Stmt :=
| Mutate (f : State -> State)
| Next (newDone : option (Done -> Done))
| CallDone
| Await
| Throw (v : Thrown).

(** [IPiece]: the piece is awaited, so all its statements are over when
    [executePiece] continues. *)
Definition Piece := State -> list Stmt.

(** [IComplete]: may change the state and may throw. *)
Definition Complete := State -> State * option Error.

(** The outer promise.  [Fulfilled]: resolved with the state object [b], the
    only value ever given to [resolve]. *)
Inductive Promise :=
| Pending
| Fulfilled
| Rejected (err : Error).

(** Observable steps of one execution, oldest first.  [DoneCalled i]: piece
    [i] calls the [done] it was handed. *)
Inductive Event :=
| PieceRan (i : nat)
| DoneCalled (i : nat)
| CompleteCalled.

(** The variables of one [execute] call: the state [b], the [done] variable
    of [reduceStack], the outer promise, the events so far, the variable
    [isPending], and the calls that asynchronous done functions have still
    to make: the awaits left, whether the call comes tight, the function
    called. *)
Record Run := mkRun {
  b : State;
  done : Done;
  promise : Promise;
  trace : list Event;
  isPending : bool;
  queue : list (nat * bool * Done)
}.

Definition with_state (st : State) (r : Run) : Run :=
  mkRun st (done r) (promise r) (trace r) (isPending r) (queue r).

Definition with_done (d : Done) (r : Run) : Run :=
  mkRun (b r) d (promise r) (trace r) (isPending r) (queue r).

Definition with_queue (q : list (nat * bool * Done)) (r : Run) : Run :=
  mkRun (b r) (done r) (promise r) (trace r) (isPending r) q.

Definition log (e : Event) (r : Run) : Run :=
  mkRun (b r) (done r) (promise r) (trace r ++ [e]) (isPending r) (queue r).

Definition schedule (e : nat * bool * Done) (r : Run) : Run :=
  with_queue (queue r ++ [e]) r.

(** [resolve(b)] and [reject(err)] settle a pending promise only.
    [isPending] is cleared by the [then] callback of the outer promise.  That
    callback is queued when [resolve(b)] is called: when the call is made
    while a piece runs, or by the last lines of [reduceStack], the callback
    runs before the continuation of the [await] under which the call was
    made, so [isPending] is cleared here; a [tight] call leaves it set until
    the next [await]. *)
Definition resolve (tight : bool) (r : Run) : Run :=
  match promise r with
  | Pending => mkRun (b r) (done r) Fulfilled (trace r) tight (queue r)
  | _ => r
  end.

Definition reject (err : Error) (r : Run) : Run :=
  match promise r with
  | Pending => mkRun (b r) (done r) (Rejected err) (trace r) (isPending r) (queue r)
  | _ => r
  end.

(** [.then(() => { isPending = false; return b })] *)
Definition then_callback (r : Run) : Run :=
  match promise r with
  | Fulfilled => mkRun (b r) (done r) (promise r) (trace r) false (queue r)
  | _ => r
  end.

(** Calling an [IPieceDone]. *)
Fixpoint call_done (tight : bool) (d : Done) (r : Run) : Run :=
  match d with
  | Resolve => resolve tight r
  | Wrap logic inner => call_done tight inner (with_state (logic (b r)) r)
  | Detached logic => with_state (logic (b r)) r
  | Later turns tight' inner => schedule (turns, tight', inner) r
  end.

(** The calls that are due are made, in the order in which they were
    scheduled; the others have one await less to wait. *)
Fixpoint fire (due : list (nat * bool * Done)) (r : Run) : Run :=
  match due with
  | [] => r
  | (0, tight, d) :: rest => fire rest (call_done tight d r)
  | (S n, tight, d) :: rest => fire rest (schedule (n, tight, d) r)
  end.

(** What happens while [reduceStack] or a piece is suspended at an [await]:
    the [then] callback of a promise resolved before runs, then the calls
    that are due are made. *)
Definition await (r : Run) : Run :=
  fire (queue r) (with_queue [] (then_callback r)).

(** The body of piece [i], run with the [done] it was handed.
    [next = (newDone) => cb(newDone || done)] and [cb] assigns the [done]
    variable of [reduceStack]. *)
Fixpoint run_piece (i : nat) (d : Done) (body : list Stmt) (r : Run)
  : Run * option Thrown :=
  match body with
  | [] => (r, None)
  | Mutate f :: k => run_piece i d k (with_state (f (b r)) r)
  | Next newDone :: k =>
      run_piece i d k
        (with_done (match newDone with Some w => w d | None => d end) r)
  | CallDone :: k => run_piece i d k (call_done false d (log (DoneCalled i) r))
  | Await :: k => run_piece i d k (await r)
  | Throw v :: _ => (r, Some v)
  end.

(** The catch block of [executePiece]: [err.state = b; err.middleware =
    this.type; bot.logger.error(err); throw err].  On a value that takes no
    properties the first assignment throws, and that [TypeError] leaves the
    block instead. *)
Definition annotate (type : string) (v : Thrown) : Error :=
  match v with
  | Object err => mkError (message err) (Some type)
  | Sealed typeError => mkError typeError None
  end.

(** [executePiece (done, piece, cb)] *)
Definition executePiece (type : string) (i : nat) (piece : Piece) (r : Run)
  : Run * option Error :=
  match run_piece i (done r) (piece (b r)) (log (PieceRan i) r) with
  | (r', Some v) => (r', Some (annotate type v))
  | (r', None) => (r', None)
  end.

(** [for (let piece of this.stack) await executePiece(...)] *)
Fixpoint for_pieces (type : string) (i : nat) (stack : list Piece) (r : Run)
  : Run * option Error :=
  match stack with
  | [] => (r, None)
  | piece :: rest =>
      match executePiece type i piece r with
      | (r', Some err) => (await r', Some err)
      | (r', None) => for_pieces type (S i) rest (await r')
      end
  end.

(** [reduceStack ()] *)
Definition reduceStack (type : string) (stack : list Piece) (complete : Complete)
    (r0 : Run) : Run :=
  match for_pieces type 0 stack (with_done Resolve r0) with
  | (r1, Some err) => reject err r1
  | (r1, None) =>
      if isPending r1 then
        let r2 := log CompleteCalled r1 in
        match complete (b r2) with
        | (st, Some err) => reject err (with_state st r2)
        | (st, None) =>
            let r3 := await (with_state st r2) in
            await (call_done false (done r3) r3)
        end
      else r1
  end.

(** The awaits that the calls still to be made need at most. *)
Fixpoint weight (d : Done) : nat :=
  match d with
  | Resolve => 0
  | Wrap _ inner => weight inner
  | Detached _ => 0
  | Later turns _ inner => S (turns + weight inner)
  end.

Definition backlog (q : list (nat * bool * Done)) : nat :=
  list_sum (map (fun e => S (e.1.1 + weight e.2)) q).

(** After [reduceStack] is over, the calls still scheduled are made in
    their time. *)
Fixpoint settle (fuel : nat) (r : Run) : Run :=
  match fuel with
  | 0 => r
  | S fuel' =>
      match queue r with
      | [] => r
      | _ :: _ => settle fuel' (await r)
      end
  end.

Definition eventually (r : Run) : Run := settle (backlog (queue r)) r.

(** A [Middleware] instance. *)
Record Middleware := mkMiddleware {
  type : string;
  stack : list Piece
}.

(** [register (piece)] *)
Definition register (piece : Piece) (m : Middleware) : Middleware :=
  mkMiddleware (type m) (stack m ++ [piece]).

(** [execute (state, complete)]: the variables once [reduceStack] is over
    and every scheduled call has been made. *)
Definition execute (m : Middleware) (state : State) (complete : Complete) : Run :=
  eventually
    (reduceStack (type m) (stack m) complete (mkRun state Resolve Pending [] true [])).

(** A done function that ends in the terminal [resolve(b)], at once or
    after awaits of its own. *)
Fixpoint reaches_resolve (d : Done) : bool :=
  match d with
  | Resolve => true
  | Wrap _ inner => reaches_resolve inner
  | Detached _ => false
  | Later _ _ inner => reaches_resolve inner
  end.

(** The contract of [next]: its argument is "either the provided done
    function or a new function that eventually calls done". *)
Definition honours_next (p : Piece) : Prop :=
  forall st w d, In (Next (Some w)) (p st) ->
    reaches_resolve d = true -> reaches_resolve (w d) = true.

(** A done function that has called the terminal [resolve(b)] when it
    returns. *)
Fixpoint resolves_at_once (d : Done) : bool :=
  match d with
  | Resolve => true
  | Wrap _ inner => resolves_at_once inner
  | Detached _ => false
  | Later _ _ _ => false
  end.

(** A piece that passes to [next] only functions which call, before they
    return, the done they replace. *)
Definition wraps_at_once (p : Piece) : Prop :=
  forall st w d, In (Next (Some w)) (p st) ->
    resolves_at_once d = true -> resolves_at_once (w d) = true.

End Stack.

Arguments Resolve {State}.
Arguments Wrap {State}.
Arguments Detached {State}.
Arguments Later {State}.
Arguments Mutate {State}.
Arguments Next {State}.
Arguments CallDone {State}.
Arguments Await {State}.
Arguments Throw {State}.
Arguments mkRun {State}.
Arguments b {State}.
Arguments done {State}.
Arguments promise {State}.
Arguments trace {State}.
Arguments isPending {State}.
Arguments queue {State}.
Arguments with_state {State}.
Arguments with_done {State}.
Arguments with_queue {State}.
Arguments log {State}.
Arguments schedule {State}.
Arguments resolve {State}.
Arguments reject {State}.
Arguments then_callback {State}.
Arguments call_done {State}.
Arguments fire {State}.
Arguments await {State}.
Arguments run_piece {State}.
Arguments executePiece {State}.
Arguments for_pieces {State}.
Arguments reduceStack {State}.
Arguments weight {State}.
Arguments backlog {State}.
Arguments settle {State}.
Arguments eventually {State}.
Arguments mkMiddleware {State}.
Arguments type {State}.
Arguments stack {State}.
Arguments register {State}.
Arguments execute {State}.
Arguments reaches_resolve {State}.
Arguments honours_next {State}.
Arguments resolves_at_once {State}.
Arguments wraps_at_once {State}.

End Middleware.

(* ===================================================================== *)
(** * Properties of lib/middleware.ts *)
(* ===================================================================== *)

Module MiddlewareProps.
Import Middleware.

Section Invariant.

Context {State : Type}.

(** Calls of done functions, at once or in their time, record no event and
    leave the [done] variable alone. *)
Lemma call_done_trace (tight : bool) (d : Done State) : forall r,
  trace (call_done tight d r) = trace r /\ done (call_done tight d r) = done r.
Proof.
  induction d as [|logic inner IH|logic|turns tight' inner _]; intros r; simpl.
  - unfold resolve. by destruct (promise r).
  - destruct (IH (with_state (logic (b r)) r)) as [-> ->]. done.
  - done.
  - done.
Qed.

Lemma fire_trace (due : list (nat * bool * Done State)) : forall r,
  trace (fire due r) = trace r /\ done (fire due r) = done r.
Proof.
  induction due as [|[[n tight] d] rest IH]; intros r; simpl; [done|].
  destruct n as [|n].
  - destruct (IH (call_done tight d r)) as [-> ->]. apply call_done_trace.
  - destruct (IH (schedule (n, tight, d) r)) as [-> ->]. done.
Qed.

Lemma await_trace (r : Run State) :
  trace (await r) = trace r /\ done (await r) = done r.
Proof.
  unfold await.
  destruct (fire_trace (queue r) (with_queue [] (then_callback r))) as [-> ->].
  unfold then_callback. by destruct (promise r).
Qed.

Lemma settle_trace (fuel : nat) : forall r : Run State,
  trace (settle fuel r) = trace r /\ done (settle fuel r) = done r.
Proof.
  induction fuel as [|fuel IH]; intros r; simpl; [done|].
  destruct (queue r); [done|].
  destruct (IH (await r)) as [-> ->]. apply await_trace.
Qed.

Lemma eventually_trace (r : Run State) : trace (eventually r) = trace r.
Proof. apply settle_trace. Qed.

Lemma trace_reject (err : Error) (r : Run State) : trace (reject err r) = trace r.
Proof. unfold reject. by destruct (promise r). Qed.

Lemma queue_reject (err : Error) (r : Run State) : queue (reject err r) = queue r.
Proof. unfold reject. by destruct (promise r). Qed.

Lemma eventually_idle (r : Run State) : queue r = [] -> eventually r = r.
Proof. unfold eventually. by intros ->. Qed.

(** With nothing scheduled, an await runs the [then] callback only. *)
Lemma await_idle (r : Run State) :
  queue r = [] -> await r = with_queue [] (then_callback r).
Proof. unfold await. by intros ->. Qed.

(** ** The calls scheduled are all made in the end *)

Lemma backlog_app (q1 q2 : list (nat * bool * Done State)) :
  backlog (q1 ++ q2) = backlog q1 + backlog q2.
Proof. unfold backlog. by rewrite map_app, list_sum_app. Qed.

Lemma backlog_length (q : list (nat * bool * Done State)) : length q <= backlog q.
Proof. induction q as [|e q IH]; unfold backlog in *; simpl; lia. Qed.

Lemma call_done_backlog (tight : bool) (d : Done State) : forall r,
  backlog (queue (call_done tight d r)) = backlog (queue r) + weight d.
Proof.
  induction d as [|logic inner IH|logic|turns tight' inner _]; intros r; simpl.
  - unfold resolve. destruct (promise r); simpl; lia.
  - by rewrite IH.
  - lia.
  - rewrite backlog_app. unfold backlog. simpl. lia.
Qed.

Lemma fire_backlog (due : list (nat * bool * Done State)) : forall r,
  backlog (queue (fire due r)) + length due = backlog (queue r) + backlog due.
Proof.
  induction due as [|[[n tight] d] rest IH]; intros r; simpl.
  - unfold backlog at 3. simpl. lia.
  - change (backlog ((n, tight, d) :: rest))
      with (S (n + weight d) + backlog rest).
    destruct n as [|n].
    + specialize (IH (call_done tight d r)). rewrite call_done_backlog in IH. lia.
    + specialize (IH (schedule (n, tight, d) r)). simpl in IH.
      rewrite backlog_app in IH. unfold backlog at 3 in IH. simpl in IH. lia.
Qed.

Lemma await_backlog (r : Run State) :
  backlog (queue (await r)) + length (queue r) = backlog (queue r).
Proof.
  unfold await.
  pose proof (fire_backlog (queue r) (with_queue [] (then_callback r))) as H.
  change (backlog (queue (with_queue [] (then_callback r)))) with 0 in H. lia.
Qed.

Lemma settle_empties (fuel : nat) : forall r : Run State,
  backlog (queue r) <= fuel -> queue (settle fuel r) = [].
Proof.
  induction fuel as [|fuel IH]; intros r H; simpl.
  - pose proof (backlog_length (queue r)).
    destruct (queue r); [done|]. simpl in *. lia.
  - destruct (queue r) as [|e q] eqn:Hq; [done|].
    apply IH. pose proof (await_backlog r) as Ha. rewrite Hq in Ha.
    cbn [length] in Ha. lia.
Qed.

(** [execute] is total, and at its end no call is left to be made. *)
Lemma eventually_quiescent (r : Run State) : queue (eventually r) = [].
Proof. by apply settle_empties. Qed.

(** ** A done function that reaches [resolve] fulfils the promise in the end *)

Definition unrejected (r : Run State) : Prop := forall err, promise r <> Rejected err.

(** The promise is fulfilled, or a call that will fulfil it is scheduled. *)
Definition bound (r : Run State) : Prop :=
  promise r = Fulfilled \/
  Exists (fun e => reaches_resolve e.2 = true) (queue r).

Lemma call_done_bound (tight : bool) (d : Done State) : forall r,
  unrejected r ->
  unrejected (call_done tight d r) /\
  (bound r -> bound (call_done tight d r)) /\
  (reaches_resolve d = true -> bound (call_done tight d r)).
Proof.
  induction d as [|logic inner IH|logic|turns tight' inner _]; intros r Hr; simpl.
  - unfold resolve, unrejected, bound in *.
    destruct (promise r) eqn:Hp; simpl; rewrite ?Hp; repeat split; auto; try done.
    by destruct (Hr err).
  - apply (IH (with_state (logic (b r)) r)). exact Hr.
  - repeat split; [exact Hr|auto|discriminate].
  - unfold unrejected, bound in *. simpl. repeat split; [exact Hr| |].
    + intros [H|H]; [by left|right]. apply Exists_app. by left.
    + intros H. right. apply Exists_app. right. by constructor.
Qed.

Lemma fire_bound (due : list (nat * bool * Done State)) : forall r,
  unrejected r ->
  bound r \/ Exists (fun e => reaches_resolve e.2 = true) due ->
  unrejected (fire due r) /\ bound (fire due r).
Proof.
  induction due as [|[[n tight] d] rest IH]; intros r Hr Hb; simpl.
  - destruct Hb as [Hb|Hb]; [done|by apply Exists_nil in Hb].
  - destruct n as [|n].
    + destruct (call_done_bound tight d r Hr) as (Hr' & Hk & Hd).
      apply IH; [exact Hr'|].
      destruct Hb as [Hb|Hb]; [left; by apply Hk|].
      apply Exists_cons in Hb as [Hb|Hb]; [left; by apply Hd|by right].
    + apply IH; [exact Hr|].
      destruct Hb as [[Hb|Hb]|Hb].
      * left. by left.
      * left. right. simpl. apply Exists_app. by left.
      * apply Exists_cons in Hb as [Hb|Hb]; [|by right].
        left. right. simpl. apply Exists_app. right. by constructor.
Qed.

Lemma await_bound (r : Run State) :
  unrejected r -> bound r -> unrejected (await r) /\ bound (await r).
Proof.
  intros Hr Hb. unfold await. apply fire_bound.
  - unfold unrejected, then_callback in *. destruct (promise r) eqn:Hp; simpl;
      rewrite ?Hp; auto; discriminate.
  - destruct Hb as [Hb|Hb]; [|by right].
    left. left. unfold then_callback. rewrite Hb. done.
Qed.

Lemma settle_bound (fuel : nat) : forall r : Run State,
  unrejected r -> bound r -> unrejected (settle fuel r) /\ bound (settle fuel r).
Proof.
  induction fuel as [|fuel IH]; intros r Hr Hb; simpl; [done|].
  destruct (queue r); [done|].
  destruct (await_bound r Hr Hb). by apply IH.
Qed.

Lemma eventually_fulfils (r : Run State) :
  unrejected r -> bound r -> promise (eventually r) = Fulfilled.
Proof.
  intros Hr Hb.
  destruct (settle_bound (backlog (queue r)) r Hr Hb) as [_ [H|H]]; [exact H|].
  fold (eventually r) in H. rewrite eventually_quiescent in H.
  by apply Exists_nil in H.
Qed.

(** ** The contract of [next] keeps the [done] variable reaching [resolve] *)

Lemma run_piece_reaches (i : nat) (d : Done State) (body : list (Stmt State)) :
  reaches_resolve d = true ->
  (forall w d', In (Next (Some w)) body ->
     reaches_resolve d' = true -> reaches_resolve (w d') = true) ->
  forall r, reaches_resolve (done r) = true ->
            reaches_resolve (done (run_piece i d body r).1) = true.
Proof.
  intros Hd. induction body as [|s k IH]; intros Hk r Hr; simpl; [done|].
  assert (Hk' : forall w d', In (Next (Some w)) k ->
            reaches_resolve d' = true -> reaches_resolve (w d') = true)
    by (intros w d' Hin; apply Hk; by right).
  destruct s as [f|[w|]| | |v]; simpl.
  - by apply IH.
  - apply IH; [done|]. simpl. apply Hk; [by left|done].
  - by apply IH.
  - apply IH; [done|].
    by destruct (call_done_trace false d (log (DoneCalled i) r)) as [_ ->].
  - apply IH; [done|]. by destruct (await_trace r) as [_ ->].
  - done.
Qed.

Lemma for_pieces_reaches (ty : string) (ps : list (Piece State)) :
  Forall honours_next ps ->
  forall i r, reaches_resolve (done r) = true ->
              reaches_resolve (done (for_pieces ty i ps r).1) = true.
Proof.
  induction 1 as [|p ps Hp _ IH]; intros i r Hr; simpl; [done|].
  unfold executePiece.
  pose proof (run_piece_reaches i (done r) (p (b r)) Hr
                (fun w d' Hin => Hp (b r) w d' Hin) (log (PieceRan i) r) Hr) as H.
  destruct (run_piece i (done r) (p (b r)) (log (PieceRan i) r)) as [r' [v|]];
    simpl in *.
  - by destruct (await_trace r') as [_ ->].
  - apply IH. by destruct (await_trace r') as [_ ->].
Qed.

(** ** When the functions passed to [next] are synchronous *)

(** What holds of the variables all along the loop over the pieces, when
    every function passed to [next] calls the done it replaces before it
    returns. *)
Definition Inv (r : Run State) : Prop :=
  resolves_at_once (done r) = true /\
  (forall err, promise r <> Rejected err) /\
  ~ In CompleteCalled (trace r) /\
  (forall i, In (DoneCalled i) (trace r) -> promise r = Fulfilled) /\
  (promise r = Fulfilled -> isPending r = false) /\
  queue r = [].

Lemma call_done_at_once (d : Done State) : forall r,
  resolves_at_once d = true ->
  (forall err, promise r <> Rejected err) ->
  (promise r = Fulfilled -> isPending r = false) ->
  promise (call_done false d r) = Fulfilled /\
  isPending (call_done false d r) = false /\
  queue (call_done false d r) = queue r.
Proof.
  induction d as [|logic inner IH|logic|turns tight' inner _];
    intros r Hd Hr Hf; simpl in *; try discriminate.
  - unfold resolve. destruct (promise r) eqn:Hp; simpl; rewrite ?Hp; auto.
    by destruct (Hr err).
  - exact (IH (with_state (logic (b r)) r) Hd Hr Hf).
Qed.

Lemma await_inv (r : Run State) : Inv r -> Inv (await r).
Proof.
  intros (H1 & H2 & H3 & H4 & H5 & H6). rewrite await_idle by done.
  unfold Inv, then_callback. destruct (promise r) eqn:Hp; simpl; rewrite ?Hp;
    repeat split; auto.
Qed.

Lemma run_piece_inv (i : nat) (d : Done State) (body : list (Stmt State)) :
  resolves_at_once d = true ->
  (forall w d', In (Next (Some w)) body ->
     resolves_at_once d' = true -> resolves_at_once (w d') = true) ->
  forall r, Inv r -> Inv (run_piece i d body r).1.
Proof.
  intros Hd. induction body as [|s k IH]; intros Hk r HI; simpl; [done|].
  assert (Hk' : forall w d', In (Next (Some w)) k ->
            resolves_at_once d' = true -> resolves_at_once (w d') = true)
    by (intros w d' Hin; apply Hk; by right).
  destruct s as [f|[w|]| | |v]; simpl.
  - apply IH; [done|]. destruct HI as (? & ? & ? & ? & ? & ?). by repeat split.
  - apply IH; [done|]. destruct HI as (? & ? & ? & ? & ? & ?).
    repeat split; simpl; try done. apply Hk; [by left|done].
  - apply IH; [done|]. destruct HI as (? & ? & ? & ? & ? & ?). by repeat split.
  - apply IH; [done|]. destruct HI as (H1 & H2 & H3 & H4 & H5 & H6).
    destruct (call_done_trace false d (log (DoneCalled i) r)) as [Ht Hdn].
    destruct (call_done_at_once d (log (DoneCalled i) r) Hd H2 H5) as (Hp & Hi & Hq).
    unfold Inv. rewrite Ht, Hdn, Hp, Hi, Hq. simpl. repeat split; try done.
    rewrite in_app_iff. intros [?|[?|[]]]; [done|discriminate].
  - apply IH; [done|]. by apply await_inv.
  - done.
Qed.

Lemma executePiece_inv (ty : string) (i : nat) (p : Piece State) (r : Run State) :
  wraps_at_once p -> Inv r -> Inv (executePiece ty i p r).1.
Proof.
  intros Hp HI. unfold executePiece.
  pose proof (run_piece_inv i (done r) (p (b r))) as H.
  destruct HI as (H1 & H2 & H3 & H4 & H5 & H6).
  specialize (H H1 (fun w d' Hin => Hp (b r) w d' Hin) (log (PieceRan i) r)).
  destruct (run_piece i (done r) (p (b r)) (log (PieceRan i) r)) as [r' [v|]];
    simpl in *; apply H; repeat split; simpl; try done.
  - rewrite in_app_iff. intros [?|[?|[]]]; [done|discriminate].
  - intros j. rewrite in_app_iff. intros [?|[?|[]]]; [by eapply H4|discriminate].
  - rewrite in_app_iff. intros [?|[?|[]]]; [done|discriminate].
  - intros j. rewrite in_app_iff. intros [?|[?|[]]]; [by eapply H4|discriminate].
Qed.

Lemma for_pieces_inv (ty : string) (ps : list (Piece State)) :
  Forall wraps_at_once ps ->
  forall i r, Inv r -> Inv (for_pieces ty i ps r).1.
Proof.
  induction 1 as [|p ps Hp _ IH]; intros i r HI; simpl; [done|].
  pose proof (executePiece_inv ty i p r Hp HI) as H.
  destruct (executePiece ty i p r) as [r' [err|]]; simpl in *.
  - by apply await_inv.
  - by apply IH, await_inv.
Qed.

End Invariant.

(** C1 (as amended): when every function that a piece passes to [next]
    calls, before it returns, the done it replaces, and some piece run by
    [execute] calls its [done], [complete] is never invoked and the outer
    promise is resolved with the state. *)
Theorem done_skips_complete {State : Type} (m : Middleware State) (state : State)
    (complete : Complete State) (i : nat) :
  Forall wraps_at_once (stack m) ->
  In (DoneCalled i) (trace (execute m state complete)) ->
  ~ In CompleteCalled (trace (execute m state complete)) /\
  promise (execute m state complete) = Fulfilled.
Proof.
  intros Hm. unfold execute. rewrite eventually_trace. unfold reduceStack.
  assert (H0 : Inv (with_done Resolve (mkRun state Resolve Pending [] true []))).
  { unfold Inv; simpl. repeat split; try done; tauto. }
  pose proof (for_pieces_inv (type m) (stack m) Hm 0 _ H0) as H.
  destruct (for_pieces (type m) 0 (stack m)
              (with_done Resolve (mkRun state Resolve Pending [] true [])))
    as [r1 [err|]]; simpl in H; destruct H as (H1 & H2 & H3 & H4 & H5 & H6).
  - rewrite trace_reject, eventually_idle by (by rewrite queue_reject).
    intros Hin. split; [done|].
    apply H4 in Hin. unfold reject. by rewrite Hin.
  - destruct (isPending r1) eqn:Hpend.
    + intros Hin. exfalso.
      assert (Hin1 : In (DoneCalled i) (trace r1)).
      { destruct (complete (b (log CompleteCalled r1))) as [st [err|]].
        - rewrite trace_reject in Hin. simpl in Hin.
          apply in_app_iff in Hin as [?|[?|[]]]; [done|discriminate].
        - cbv zeta in Hin.
          rewrite (proj1 (await_trace _)), (proj1 (call_done_trace _ _ _)),
            (proj1 (await_trace _)) in Hin. simpl in Hin.
          apply in_app_iff in Hin as [?|[?|[]]]; [done|discriminate]. }
      apply H4, H5 in Hin1. congruence.
    + intros Hin. rewrite eventually_idle by done. split; [done|]. by apply H4 in Hin.
Qed.

(** Two pieces that continue: [complete] runs, then the terminal [done]
    resolves the promise. *)
Example all_continue :
  let r := execute (mkMiddleware "hear" [fun _ => [Next None]; fun _ => [Next None]])
             0 (fun st => (st + 1, None)) in
  trace r = [PieceRan 0; PieceRan 1; CompleteCalled] /\
  promise r = Fulfilled /\ b r = 1.
Proof. repeat split. Qed.

(** Two pieces that wrap [done]: their logic runs after [complete], the
    last wrapper first. *)
Example wrappers_run_after_complete :
  let wrap1 := fun d => Wrap (fun st : list string => (st ++ ["first"])%list) d in
  let wrap2 := fun d => Wrap (fun st : list string => (st ++ ["second"])%list) d in
  let r := execute (mkMiddleware "hear"
                      [fun _ => [Next (Some wrap1)]; fun _ => [Next (Some wrap2)]])
             [] (fun st => ((st ++ ["complete"])%list, None)) in
  b r = ["complete"; "second"; "first"] /\ promise r = Fulfilled.
Proof. repeat split. Qed.

(** A piece that throws an error object: the later piece and [complete] do
    not run, and the promise is rejected with the error, annotated with the
    middleware type. *)
Example throwing_piece_rejects :
  let r := execute (mkMiddleware "hear"
                      [fun _ => [Throw (Object (mkError "boom" None))];
                       fun _ => [Next None]])
             0 (fun st => (st, None)) in
  trace r = [PieceRan 0] /\
  promise r = Rejected (mkError "boom" (Some "hear")).
Proof. repeat split. Qed.

(** A piece that throws a string: the catch block fails on it, and the
    promise is rejected with that failure, which carries no middleware type. *)
Example throwing_a_string_rejects :
  let r := execute (mkMiddleware "hear"
                      [fun _ => [Throw (Sealed "Cannot create property 'state' on string 'boom'")];
                       fun _ => [Next None]])
             0 (fun st => (st, None)) in
  trace r = [PieceRan 0] /\
  promise r = Rejected (mkError "Cannot create property 'state' on string 'boom'" None).
Proof. repeat split. Qed.

(** A one-piece stack whose piece calls [done]. *)
Definition interrupting : Middleware nat :=
  mkMiddleware "hear" [fun _ => [CallDone]].

Lemma done_skips_complete_witness :
  Forall wraps_at_once (stack interrupting) /\
  In (DoneCalled 0) (trace (execute interrupting 0 (fun st => (st, None)))) /\
  promise (execute interrupting 0 (fun st => (st, None))) = Fulfilled.
Proof.
  assert (H : Forall wraps_at_once (stack interrupting)).
  { repeat constructor. intros st w d [Hin|[]]. discriminate. }
  assert (Hin : In (DoneCalled 0) (trace (execute interrupting 0 (fun st => (st, None)))))
    by (simpl; auto).
  split; [exact H|]. split; [exact Hin|].
  exact (proj2 (done_skips_complete interrupting 0 (fun st => (st, None)) 0 H Hin)).
Defined.

(** The first piece replaces [done] by a function that calls no done; the
    second piece calls the [done] it is handed. *)
Definition swallowing : Middleware nat :=
  mkMiddleware "hear"
    [ fun _ => [Next (Some (fun _ => Detached (fun st => st)))];
      fun _ => [CallDone] ].

(** C1 (as stated) fails: the second piece of [swallowing] calls its [done],
    yet [complete] is invoked and the outer promise stays pending. *)
Lemma done_called_yet_complete_runs :
  In (DoneCalled 1) (trace (execute swallowing 0 (fun st => (st, None)))) /\
  In CompleteCalled (trace (execute swallowing 0 (fun st => (st, None)))) /\
  promise (execute swallowing 0 (fun st => (st, None))) = Pending.
Proof. simpl. auto 10. Qed.

(** The first piece replaces [done] by an asynchronous function, which
    calls the done it replaces after an await that lasts [turns] awaits of
    [reduceStack]; the second piece calls the [done] it is handed. *)
Definition deferring (turns : nat) (tight : bool) : Middleware nat :=
  mkMiddleware "hear"
    [ fun _ => [Next (Some (fun d => Later turns tight d))];
      fun _ => [CallDone] ].

(** The contract of [next] as documented ("a new function that eventually
    calls done") is not enough for C1: [deferring 1 false] honours it, its
    second piece calls [done], and yet [complete] is invoked, before the
    promise is resolved.  A function that is quick enough interrupts the
    stack ([deferring 0 false]), unless its call comes tight. *)
Example eventual_done_comes_too_late :
  Forall honours_next (stack (deferring 1 false)) /\
  trace (execute (deferring 1 false) 0 (fun st => (st, None)))
    = [PieceRan 0; PieceRan 1; DoneCalled 1; CompleteCalled] /\
  promise (execute (deferring 1 false) 0 (fun st => (st, None))) = Fulfilled /\
  trace (execute (deferring 0 false) 0 (fun st => (st, None)))
    = [PieceRan 0; PieceRan 1; DoneCalled 1] /\
  trace (execute (deferring 0 true) 0 (fun st => (st, None)))
    = [PieceRan 0; PieceRan 1; DoneCalled 1; CompleteCalled].
Proof.
  split; [|repeat split].
  repeat constructor; intros st w d [Hin|[]]; try discriminate.
  injection Hin as <-. done.
Qed.

(** The first piece calls [done]; the second one counts its own runs in the
    state. *)
Definition two_pieces : Middleware nat :=
  mkMiddleware "hear" [ fun _ => [CallDone]; fun _ => [Mutate S] ].

(** C2 on the code: after the first piece of [two_pieces] has called [done]
    the loop goes on and runs the second piece, which changes the state. *)
Lemma later_piece_runs_after_done :
  trace (execute two_pieces 0 (fun st => (st, None)))
    = [PieceRan 0; DoneCalled 0; PieceRan 1] /\
  b (execute two_pieces 0 (fun st => (st, None))) = 1 /\
  promise (execute two_pieces 0 (fun st => (st, None))) = Fulfilled.
Proof. repeat split. Qed.

End MiddlewareProps.


(* ===================================================================== *)
(** * lib/bot: the lifecycle controller *)
(* ===================================================================== *)

Module Lifecycle.

(** The argument type of [setStatus]. *)
Inductive StatusName := Waiting | Loading | Loaded | Starting | Started | Shutdown.

Definition key (s : StatusName) : string :=
  match s with
  | Waiting => "waiting" | Loading => "loading" | Loaded => "loaded"
  | Starting => "starting" | Started => "started" | Shutdown => "shutdown"
  end.

(** [const status: { [key: string]: 0 | 1 }], keys in insertion order. *)
Definition StatusIndex := list (string * nat).

Definition initial_status : StatusIndex :=
  [ ("waiting", 1); ("loading", 0); ("loaded", 0);
    ("starting", 0); ("started", 0); ("shutdown", 0) ].

(** [for (let key of Object.keys(status)) status[key] = (set === key) ? 1 : 0] *)
Definition setStatus (set : StatusName) (status : StatusIndex) : StatusIndex :=
  map (fun kv => (fst kv, if String.eqb (key set) (fst kv) then 1 else 0)) status.

(** [for (let key of Object.keys(status)) if (status[key] === 1) return key;
    return 'broken'] *)
Fixpoint getStatus (status : StatusIndex) : string :=
  match status with
  | [] => "broken"
  | (k, v) :: rest => if Nat.eqb v 1 then k else getStatus rest
  end.

(** The exported asynchronous functions, as they may be called. *)
Inductive Call :=
| CLoad
| CStart
| CShutdown (exit : nat)
| CPause
| CReset.

(** The [await] at which an activation of one of the functions is suspended.
    The prefix names the function: [Sd] shutdown, [Rs] reset, [Ld] load,
    [St] start, [Ps] pause. *)
Inductive Frame :=
| SdAwaitEvent (e : string) (exit : nat)
| SdAwaitMemory (exit : nat)
| SdAwaitAdapters (exit : nat)
| SdAwaitServer (exit : nat)
| SdAwaitDelay (exit : nat)
| RsAwaitShutdown
| RsAwaitCatch
| RsAwaitDelay
| LdAwaitReset
| LdAwaitDelay
| LdAwaitCatch
| StAwaitLoad
| StAwaitServer
| StAwaitAdapters
| StAwaitMemory
| StAwaitCatch
| StAwaitDelay
| PsAwaitShutdown
| PsAwaitDelay.

(** What can be observed of a run, oldest first.  The three teardown calls
    of [shutdown] carry the task that makes them; [Finished] records how a
    task settled and the status at that moment. *)
Inductive Event :=
| Invoked (t : nat) (c : Call)
| Emitted (e : string)
| MemoryShutdown (t : nat)
| AdaptersShutdown (t : nat)
| ServerShutdown (t : nat)
| Exited (code : nat)
| Finished (t : nat) (ok : bool) (status : string).

(** A task is one outside call of an exported function with the functions
    it is awaiting in turn (innermost first).  [ready] tells whether the
    promise awaited by the innermost frame has settled, and how. *)
Inductive Task :=
| Running (frames : list Frame) (ready : option bool)
| Settled (ok : bool).

(** The module variables and the record of events. *)
Record Core := mkCore {
  status : StatusIndex;
  log : list Event
}.

Definition record (e : Event) (c : Core) : Core :=
  mkCore (status c) (log c ++ [e]).

Definition set_status (n : StatusName) (c : Core) : Core :=
  mkCore (setStatus n (status c)) (log c).

(** How a function leaves the synchronous part of a turn: suspended at an
    [await], or with its promise already settled. *)
Inductive Ret :=
| Suspend (frames : list Frame) (ready : option bool)
| Return (ok : bool).

(** [await f()] from a function that continues at [parent]: an [await] always
    suspends, also when the promise of [f] is settled already. *)
Definition await_call (parent : Frame) (r : Core * Ret) : Core * Ret :=
  match r with
  | (c, Suspend frames ready) => (c, Suspend (frames ++ [parent]) ready)
  | (c, Return ok) => (c, Suspend [parent] (Some ok))
  end.

(** [shutdown (exit = 0)] up to its first [await]. *)
Definition shutdown (t exit : nat) (c : Core) : Core * Ret :=
  let status := getStatus (status c) in
  if String.eqb status "shutdown" then (c, Return true)
  else if String.eqb status "loading" then (c, Suspend [SdAwaitEvent "loaded" exit] None)
  else if String.eqb status "starting" then (c, Suspend [SdAwaitEvent "started" exit] None)
  else (record (MemoryShutdown t) c, Suspend [SdAwaitMemory exit] None).

(** The [try] block of [reset] and what follows.  [sync_ok] tells whether
    [adapters.unload()], [middlewares.unload()], [global.reset()] and
    [settings.resetConfig()] all return normally. *)
Definition reset_body (t : nat) (sync_ok : bool) (c : Core) : Core * Ret :=
  if sync_ok then (c, Suspend [RsAwaitDelay] None)
  else await_call RsAwaitCatch (shutdown t 1 c).

(** [reset ()] up to its first [await]. *)
Definition reset (t : nat) (sync_ok : bool) (c : Core) : Core * Ret :=
  let status := getStatus (status c) in
  if negb (String.eqb status "shutdown") then await_call RsAwaitShutdown (shutdown t 0 c)
  else reset_body t sync_ok c.

(** [load] from [setStatus('loading')] on.  [sync_ok] tells whether
    [middlewares.load()], [server.load()] and [adapters.load()] all return
    normally. *)
Definition load_body (t : nat) (sync_ok : bool) (c : Core) : Core * Ret :=
  let c1 := set_status Loading c in
  if sync_ok then (c1, Suspend [LdAwaitDelay] None)
  else await_call LdAwaitCatch (shutdown t 1 c1).

(** [load ()] up to its first [await]. *)
Definition load (t : nat) (sync_ok : bool) (c : Core) : Core * Ret :=
  if negb (String.eqb (getStatus (status c)) "waiting")
  then await_call LdAwaitReset (reset t sync_ok c)
  else load_body t sync_ok c.

(** [start] from [setStatus('starting')] on. *)
Definition start_body (c : Core) : Core * Ret :=
  (set_status Starting c, Suspend [StAwaitServer] None).

(** [start ()] up to its first [await]. *)
Definition start (t : nat) (sync_ok : bool) (c : Core) : Core * Ret :=
  if negb (String.eqb (getStatus (status c)) "loaded")
  then await_call StAwaitLoad (load t sync_ok c)
  else start_body c.

(** The [catch] block of [start]. *)
Definition start_catch (t : nat) (c : Core) : Core * Ret :=
  await_call StAwaitCatch (shutdown t 1 c).

(** [pause ()] up to its first [await]. *)
Definition pause (t : nat) (c : Core) : Core * Ret :=
  await_call PsAwaitShutdown (shutdown t 0 c).

Definition call (cl : Call) (t : nat) (sync_ok : bool) (c : Core) : Core * Ret :=
  match cl with
  | CLoad => load t sync_ok c
  | CStart => start t sync_ok c
  | CShutdown exit => shutdown t exit c
  | CPause => pause t c
  | CReset => reset t sync_ok c
  end.

(** The last turn of a function: [setStatus(n); bot.events.emit(e)]. *)
Definition finish (n : StatusName) (e : string) (c : Core) : Core * Ret * option string :=
  (record (Emitted e) (set_status n c), Return true, Some e).

Definition quiet (r : Core * Ret) : Core * Ret * option string := (r, None).

(** The turn of task [t] that starts when the promise awaited at [f] has
    settled ([ok]: resolved or rejected), up to the next [await].  The third
    component is the event emitted during the turn. *)
Definition resume (t : nat) (f : Frame) (ok sync_ok : bool) (c : Core)
  : Core * Ret * option string :=
  match f with
  | SdAwaitEvent _ exit =>
      quiet (record (MemoryShutdown t) c, Suspend [SdAwaitMemory exit] None)
  | SdAwaitMemory exit =>
      if ok then quiet (record (AdaptersShutdown t) c, Suspend [SdAwaitAdapters exit] None)
      else quiet (c, Return false)
  | SdAwaitAdapters exit =>
      if ok then quiet (record (ServerShutdown t) c, Suspend [SdAwaitServer exit] None)
      else quiet (c, Return false)
  | SdAwaitServer exit =>
      if ok then quiet (c, Suspend [SdAwaitDelay exit] None)
      else quiet (c, Return false)
  | SdAwaitDelay _ => finish Shutdown "shutdown" c
  | RsAwaitShutdown =>
      if ok then quiet (reset_body t sync_ok c) else quiet (c, Return false)
  | RsAwaitCatch =>
      if ok then quiet (c, Suspend [RsAwaitDelay] None) else quiet (c, Return false)
  | RsAwaitDelay => finish Waiting "waiting" c
  | LdAwaitReset =>
      if ok then quiet (load_body t sync_ok c) else quiet (c, Return false)
  | LdAwaitDelay => finish Loaded "loaded" c
  | LdAwaitCatch => quiet (c, Return ok)
  | StAwaitLoad =>
      if ok then quiet (start_body c) else quiet (c, Return false)
  | StAwaitServer =>
      if ok then quiet (c, Suspend [StAwaitAdapters] None) else quiet (start_catch t c)
  | StAwaitAdapters =>
      if ok then quiet (c, Suspend [StAwaitMemory] None) else quiet (start_catch t c)
  | StAwaitMemory =>
      if ok then quiet (c, Suspend [StAwaitDelay] None) else quiet (start_catch t c)
  | StAwaitCatch =>
      if ok then quiet (c, Suspend [StAwaitDelay] None) else quiet (c, Return false)
  | StAwaitDelay => finish Started "started" c
  | PsAwaitShutdown =>
      if ok then quiet (c, Suspend [PsAwaitDelay] None) else quiet (c, Return false)
  | PsAwaitDelay => finish Loaded "paused" c
  end.

(** [if (exit) process.exit(exit)], the last statement of [shutdown]. *)
Definition process_exit (f : Frame) (c : Core) : Core :=
  match f with
  | SdAwaitDelay exit => if Nat.eqb exit 0 then c else record (Exited exit) c
  | _ => c
  end.

(** The whole system: the module variables and the tasks, a task being
    known by its position. *)
Record Bot := mkBot {
  core : Core;
  tasks : list Task
}.

Definition initial : Bot := mkBot (mkCore initial_status []) [].

(** Where a task stands after a turn of its innermost function: [rest] are
    the callers, which find the promise they await settled. *)
Definition place (r : Ret) (rest : list Frame) : Task :=
  match r with
  | Suspend frames ready => Running (frames ++ rest) ready
  | Return ok =>
      match rest with
      | [] => Settled ok
      | _ => Running rest (Some ok)
      end
  end.

(** A task that settled is recorded with the status of that moment. *)
Definition settle (t : nat) (s : Bot) : Bot :=
  match tasks s !! t with
  | Some (Settled ok) =>
      mkBot (record (Finished t ok (getStatus (status (core s)))) (core s)) (tasks s)
  | _ => s
  end.

(** Code outside the module calls an exported function: a new task, run up
    to its first [await]. *)
Definition invoke (cl : Call) (sync_ok : bool) (s : Bot) : Bot :=
  let t := length (tasks s) in
  let '(c, r) := call cl t sync_ok (record (Invoked t cl) (core s)) in
  settle t (mkBot c (tasks s ++ [place r []])).

(** The listener [() => resolve()] that [shutdown] registers for an event. *)
Definition wake (e : string) (tk : Task) : Task :=
  match tk with
  | Running (SdAwaitEvent e' exit :: rest) None =>
      if String.eqb e e' then Running (SdAwaitEvent e' exit :: rest) (Some true) else tk
  | _ => tk
  end.

(** [bot.events.emit(e)]: the listeners registered so far are called, those
    of [shutdown] and those of outside code, which may call exported
    functions in turn ([heard]). *)
Definition hear (e : string) (heard : list (Call * bool)) (s : Bot) : Bot :=
  fold_left (fun s' cb => invoke (fst cb) (snd cb) s') heard
    (mkBot (core s) (map (wake e) (tasks s))).

(** Whether the continuation of a task may run with outcome [ok]: the
    awaited promise has settled that way, or it belongs to a collaborator
    (any outcome) or to [eventDelay] (which never rejects).  A task waiting
    for an event runs once woken only. *)
Definition resumable (tk : Task) (ok : bool) : bool :=
  match tk with
  | Running (_ :: _) (Some r) => Bool.eqb ok r
  | Running (f :: _) None =>
      match f with
      | SdAwaitMemory _ | SdAwaitAdapters _ | SdAwaitServer _
      | StAwaitServer | StAwaitAdapters | StAwaitMemory => true
      | SdAwaitDelay _ | RsAwaitDelay | LdAwaitDelay | StAwaitDelay | PsAwaitDelay => ok
      | _ => false
      end
  | _ => false
  end.

(** What may happen next: an outside call, the next turn of a task, or an
    event emitted by other code ([Memory.set] emits ['loaded']). *)
Inductive Label :=
| Invoke (cl : Call) (sync_ok : bool)
| Resume (t : nat) (ok sync_ok : bool) (heard : list (Call * bool))
| Emit (e : string).

(** One turn of the event loop.  A label that does not apply leaves the
    system as it is. *)
Definition step (s : Bot) (l : Label) : Bot :=
  match l with
  | Invoke cl sync_ok => invoke cl sync_ok s
  | Emit e => hear e [] (mkBot (record (Emitted e) (core s)) (tasks s))
  | Resume t ok sync_ok heard =>
      match tasks s !! t with
      | Some (Running (f :: rest) ready) =>
          if resumable (Running (f :: rest) ready) ok then
            let '(c, r, emitted) := resume t f ok sync_ok (core s) in
            let s1 := mkBot c (<[t := place r rest]> (tasks s)) in
            let s2 := match emitted with
                      | Some e => hear e heard s1
                      | None => s1
                      end in
            settle t (mkBot (process_exit f (core s2)) (tasks s2))
          else s
      | _ => s
      end
  end.

Definition run (s : Bot) (ls : list Label) : Bot := fold_left step ls s.

(** Exactly one flag of the status index is set. *)
Definition one_flag (status : StatusIndex) : Prop :=
  length (filter (fun kv => snd kv = 1) status) = 1.

(** The teardown calls made by task [t] each come after an emission of [e]:
    [seen] tells whether [e] was emitted before the events at hand. *)
Fixpoint teardown_after (e : string) (t : nat) (seen : bool) (evs : list Event) : bool :=
  match evs with
  | [] => true
  | Emitted e' :: rest => teardown_after e t (seen || String.eqb e e') rest
  | MemoryShutdown t' :: rest
  | AdaptersShutdown t' :: rest
  | ServerShutdown t' :: rest =>
      (seen || negb (Nat.eqb t t')) && teardown_after e t seen rest
  | _ :: rest => teardown_after e t seen rest
  end.

(** What has been recorded between two states of the system. *)
Definition observed (s s' : Bot) : list Event :=
  drop (length (log (core s))) (log (core s')).

(** Whenever task [t] is recorded as resolved, the status was [st]. *)
Definition resolved_with (t : nat) (st : string) (evs : list Event) : Prop :=
  forall st', In (Finished t true st') evs -> st' = st.

(** The labels that are no turn of task [t]. *)
Definition other (t : nat) (l : Label) : bool :=
  match l with
  | Resume t' _ _ _ => negb (Nat.eqb t t')
  | _ => true
  end.

(** A schedule in which task [t] has one turn after each of the [gaps],
    each time with the promise it awaits resolved. *)
Definition turns (t : nat) (heard : list (Call * bool)) (gaps : list (list Label))
  : list Label :=
  flat_map (fun gap => gap ++ [Resume t true true heard])%list gaps.

(** The teardown calls made by task [t], in the order of the record. *)
Definition calls_of (t : nat) (evs : list Event) : list Event :=
  List.filter (fun ev => match ev with
                         | MemoryShutdown t' | AdaptersShutdown t'
                         | ServerShutdown t' => Nat.eqb t t'
                         | _ => false
                         end) evs.

End Lifecycle.

(* ===================================================================== *)
(** * Properties of the lifecycle controller *)
(* ===================================================================== *)

Module LifecycleProps.
Import Lifecycle.

(** The status index is the initial one up to a call of [setStatus]. *)
Definition valid (st : StatusIndex) : Prop := exists n, st = setStatus n initial_status.

Lemma valid_initial : valid initial_status.
Proof. by exists Waiting. Qed.

Lemma valid_setStatus n st : valid st -> valid (setStatus n st).
Proof. intros [m ->]. exists n. by destruct n, m. Qed.

Lemma valid_one_flag st : valid st -> one_flag st.
Proof. intros [n ->]. by destruct n. Qed.

Lemma valid_getStatus st : valid st -> exists n, getStatus st = key n.
Proof. intros [n ->]. exists n. by destruct n. Qed.

(** What a call does to the module variables before its first await: the
    status index changes through [setStatus] only, and not at all when the
    status is ['shutdown']; at most the first teardown call is made. *)
Definition effect (t : nat) (c c' : Core) : Prop :=
  (status c' = status c \/ exists n, status c' = setStatus n (status c)) /\
  (log c' = log c \/ log c' = (log c ++ [MemoryShutdown t])%list) /\
  (getStatus (status c) = "shutdown" -> status c' = status c).

Lemma await_call_core f r : (await_call f r).1 = r.1.
Proof. by destruct r as [c []]. Qed.

(** [shutdown], up to its first await, leaves the status as it is and makes
    at most the first teardown call. *)
Definition untouched (t : nat) (c c' : Core) : Prop :=
  status c' = status c /\
  (log c' = log c \/ log c' = (log c ++ [MemoryShutdown t])%list).

Lemma shutdown_untouched t exit c : untouched t c (shutdown t exit c).1.
Proof.
  unfold untouched, shutdown.
  repeat match goal with |- context [if ?b then _ else _] => destruct b end;
    simpl; auto.
Qed.

Lemma reset_body_untouched t sync c : untouched t c (reset_body t sync c).1.
Proof.
  unfold reset_body. destruct sync; [by split; auto|].
  rewrite await_call_core. apply shutdown_untouched.
Qed.

Lemma reset_untouched t sync c : untouched t c (reset t sync c).1.
Proof.
  unfold reset. destruct (negb _).
  - rewrite await_call_core. apply shutdown_untouched.
  - apply reset_body_untouched.
Qed.

Lemma untouched_effect t c c' : untouched t c c' -> effect t c c'.
Proof. intros [H1 H2]. unfold effect. auto. Qed.

Lemma load_body_effect t sync c :
  status (load_body t sync c).1 = setStatus Loading (status c) /\
  (log (load_body t sync c).1 = log c \/
   log (load_body t sync c).1 = (log c ++ [MemoryShutdown t])%list).
Proof.
  unfold load_body. destruct sync; [by split; auto|].
  rewrite await_call_core.
  destruct (shutdown_untouched t 1 (set_status Loading c)) as [-> H]. auto.
Qed.

Lemma load_effect t sync c : effect t c (load t sync c).1.
Proof.
  unfold load.
  destruct (getStatus (status c) =? "waiting")%string eqn:E; simpl.
  - destruct (load_body_effect t sync c) as [H1 H2]. unfold effect.
    repeat split; eauto.
    intros H. rewrite H in E. discriminate.
  - rewrite await_call_core. apply untouched_effect, reset_untouched.
Qed.

Lemma start_effect t sync c : effect t c (start t sync c).1.
Proof.
  unfold start.
  destruct (getStatus (status c) =? "loaded")%string eqn:E; simpl.
  - unfold effect. repeat split; eauto.
    intros H. rewrite H in E. discriminate.
  - rewrite await_call_core. apply load_effect.
Qed.

Lemma call_effect cl t sync c : effect t c (call cl t sync c).1.
Proof.
  destruct cl; simpl.
  - apply load_effect.
  - apply start_effect.
  - apply untouched_effect, shutdown_untouched.
  - unfold pause. rewrite await_call_core. apply untouched_effect, shutdown_untouched.
  - apply untouched_effect, reset_untouched.
Qed.

Lemma start_catch_untouched t c : untouched t c (start_catch t c).1.
Proof. unfold start_catch. rewrite await_call_core. apply shutdown_untouched. Qed.

(** An event that is neither a teardown call of task [t] nor its end. *)
Definition foreign (t : nat) (ev : Event) : bool :=
  match ev with
  | MemoryShutdown t' | AdaptersShutdown t' | ServerShutdown t'
  | Finished t' _ _ => negb (Nat.eqb t t')
  | _ => true
  end.

(** An event that is not an emission. *)
Definition silent (ev : Event) : bool :=
  match ev with
  | Emitted _ => false
  | _ => true
  end.

(** [e] is emitted among the events. *)
Definition emitted (e : string) (evs : list Event) : bool :=
  existsb (fun ev => match ev with
                     | Emitted e' => String.eqb e e'
                     | _ => false
                     end) evs.

Lemma teardown_after_app e t : forall a b seen,
  teardown_after e t seen (a ++ b) =
  teardown_after e t seen a && teardown_after e t (seen || emitted e a) b.
Proof.
  induction a as [|ev a IH]; intros b seen; simpl.
  - by rewrite orb_false_r.
  - destruct ev; simpl; rewrite ?IH, ?orb_false_r, ?orb_assoc, ?andb_assoc; reflexivity.
Qed.

Lemma teardown_after_seen e t : forall evs, teardown_after e t true evs = true.
Proof. induction evs as [|ev evs IH]; [done|]. by destruct ev. Qed.

Lemma teardown_after_foreign e t : forall evs seen,
  forallb (foreign t) evs = true -> teardown_after e t seen evs = true.
Proof.
  induction evs as [|ev evs IH]; intros seen H; [done|].
  simpl in H. apply andb_true_iff in H as [Hev H].
  destruct ev; simpl in *; rewrite ?Hev, ?orb_true_r; simpl; auto.
Qed.

Lemma emitted_silent e : forall evs, forallb silent evs = true -> emitted e evs = false.
Proof.
  induction evs as [|ev evs IH]; intros H; [done|].
  simpl in H. apply andb_true_iff in H as [Hev H].
  destruct ev; simpl in *; try discriminate; auto.
Qed.

Lemma emitted_app e a b : emitted e (a ++ b) = emitted e a || emitted e b.
Proof. unfold emitted. apply existsb_app. Qed.

(** A turn that emits nothing, changes the status through [setStatus] only
    and records only what task [t] does. *)
Definition tame (t : nat) (c c' : Core) : Prop :=
  (valid (status c) -> valid (status c')) /\
  exists new, log c' = (log c ++ new)%list /\
    (forall t', t' <> t -> forallb (foreign t') new = true) /\
    forallb silent new = true.

Lemma foreign_neq t t' : t' <> t -> negb (Nat.eqb t' t) = true.
Proof. intros H. apply negb_true_iff, Nat.eqb_neq, H. Qed.

Lemma tame_refl t c : tame t c c.
Proof. split; [done|]. exists []. by rewrite app_nil_r. Qed.

Lemma tame_record_teardown t c ev :
  ev = MemoryShutdown t \/ ev = AdaptersShutdown t \/ ev = ServerShutdown t ->
  tame t c (record ev c).
Proof.
  intros H. split; [done|]. exists [ev]. split; [done|].
  split; [|by destruct H as [->|[->| ->]]].
  intros t' Hne. destruct H as [->|[->| ->]]; simpl; by rewrite foreign_neq.
Qed.

Lemma untouched_tame t c c' : untouched t c c' -> tame t c c'.
Proof.
  intros [Hs [Hl|Hl]]; split; try (by rewrite Hs).
  - exists []. by rewrite app_nil_r.
  - exists [MemoryShutdown t]. split; [done|]. split; [|done].
    intros t' Hne. simpl. by rewrite foreign_neq.
Qed.

Lemma load_body_tame t sync c : tame t c (load_body t sync c).1.
Proof.
  destruct (load_body_effect t sync c) as [Hs Hl]. split.
  - rewrite Hs. apply valid_setStatus.
  - destruct Hl as [Hl|Hl]; [exists []|exists [MemoryShutdown t]];
      rewrite Hl, ?app_nil_r; repeat split; auto.
    intros t' Hne. simpl. by rewrite foreign_neq.
Qed.

Lemma effect_tame t c c' : effect t c c' -> tame t c c'.
Proof.
  intros (Hs & Hl & _). split.
  - destruct Hs as [->|[n ->]]; auto using valid_setStatus.
  - destruct Hl as [Hl|Hl]; [exists []|exists [MemoryShutdown t]];
      rewrite Hl, ?app_nil_r; repeat split; auto.
    intros t' Hne. simpl. by rewrite foreign_neq.
Qed.

(** One turn of task [t]: either it is tame, or it is the last turn of a
    function, which sets the status and emits one event. *)
Lemma resume_spec t f ok sync c :
  (exists r, resume t f ok sync c = (r, None) /\ tame t c r.1) \/
  (exists n e, resume t f ok sync c =
     (record (Emitted e) (set_status n c), Return true, Some e)).
Proof.
  destruct f; simpl; unfold quiet, finish; try destruct ok; eauto;
    left; eexists; (split; [reflexivity|]); simpl;
    auto using tame_refl, tame_record_teardown, untouched_tame, load_body_tame,
      reset_body_untouched, start_catch_untouched.
  split; [apply valid_setStatus|]. exists []. by rewrite app_nil_r.
Qed.

(** Outside calls add tasks and leave the older ones alone; what they record
    concerns the new tasks; they emit nothing; they leave the status alone
    when it is ['shutdown']. *)
Definition extends (s s' : Bot) : Prop :=
  exists extra new,
    tasks s' = (tasks s ++ extra)%list /\
    log (core s') = (log (core s) ++ new)%list /\
    (forall t, t < length (tasks s) -> forallb (foreign t) new = true) /\
    forallb silent new = true /\
    (valid (status (core s)) -> valid (status (core s'))) /\
    (getStatus (status (core s)) = "shutdown" -> status (core s') = status (core s)).

Lemma extends_refl s : extends s s.
Proof. exists [], []. rewrite !app_nil_r. by repeat split. Qed.

Lemma extends_trans s1 s2 s3 : extends s1 s2 -> extends s2 s3 -> extends s1 s3.
Proof.
  intros (x1 & n1 & Ht1 & Hl1 & Hf1 & Hs1 & Hv1 & Hk1)
         (x2 & n2 & Ht2 & Hl2 & Hf2 & Hs2 & Hv2 & Hk2).
  exists (x1 ++ x2)%list, (n1 ++ n2)%list.
  rewrite Ht2, Ht1, Hl2, Hl1, !app_assoc. repeat split; auto.
  - intros t Ht. rewrite forallb_app, Hf1 by done.
    rewrite Hf2; [done|]. rewrite Ht1, length_app. lia.
  - by rewrite forallb_app, Hs1, Hs2.
  - intros H. rewrite Hk2; rewrite Hk1; auto.
Qed.

Lemma foreign_lt t t' : t < t' -> negb (Nat.eqb t t') = true.
Proof. intros H. apply negb_true_iff, Nat.eqb_neq. lia. Qed.

Lemma invoke_extends cl sync s : extends s (invoke cl sync s).
Proof.
  unfold invoke.
  pose proof (call_effect cl (length (tasks s)) sync
                (record (Invoked (length (tasks s)) cl) (core s))) as He.
  destruct (call cl (length (tasks s)) sync
              (record (Invoked (length (tasks s)) cl) (core s))) as [c r].
  unfold effect, record in He. simpl in He. destruct He as (Hs & Hl & Hk).
  assert (Hv : valid (status (core s)) -> valid (status c))
    by (destruct Hs as [->|[n ->]]; auto using valid_setStatus).
  unfold settle. simpl. rewrite list_lookup_middle by done.
  exists [place r []].
  destruct (place r []) as [fs rdy|ok] eqn:Hp; unfold record; simpl;
    destruct Hl as [Hl|Hl]; rewrite Hl, <- ?app_assoc;
    eexists; (split; [reflexivity|]); (split; [reflexivity|]);
    repeat split; auto; intros t Ht; simpl; by rewrite ?foreign_lt.
Qed.

Lemma fold_invoke_extends (heard : list (Call * bool)) : forall s,
  extends s (fold_left (fun s' cb => invoke cb.1 cb.2 s') heard s).
Proof.
  induction heard as [|cb heard IH]; intros s; simpl.
  - apply extends_refl.
  - eapply extends_trans; [apply invoke_extends|apply IH].
Qed.

Lemma hear_extends e heard s :
  extends (mkBot (core s) (map (wake e) (tasks s))) (hear e heard s).
Proof. apply fold_invoke_extends. Qed.

Lemma process_exit_status f c : status (process_exit f c) = status c.
Proof. destruct f; simpl; try done. by destruct (Nat.eqb exit 0). Qed.

Lemma process_exit_log f c :
  exists ex, log (process_exit f c) = (log c ++ ex)%list /\
    (ex = [] \/ exists code, ex = [Exited code]).
Proof.
  destruct f; simpl; try (exists []; rewrite app_nil_r; by auto).
  destruct (Nat.eqb exit 0); [exists []; rewrite app_nil_r; by auto|].
  exists [Exited exit]. eauto.
Qed.

Lemma settle_tasks t s : tasks (settle t s) = tasks s.
Proof. unfold settle. by destruct (tasks s !! t) as [[]|]. Qed.

Lemma settle_status t s : status (core (settle t s)) = status (core s).
Proof. unfold settle. by destruct (tasks s !! t) as [[]|]. Qed.

Lemma settle_log t s :
  exists fin, log (core (settle t s)) = (log (core s) ++ fin)%list /\
    (fin = [] \/
     exists ok, tasks s !! t = Some (Settled ok) /\
                fin = [Finished t ok (getStatus (status (core s)))]).
Proof.
  unfold settle. destruct (tasks s !! t) as [[fs rdy|ok]|] eqn:Ht;
    try (exists []; rewrite app_nil_r; by auto).
  exists [Finished t ok (getStatus (status (core s)))]. split; [done|]. eauto.
Qed.

(** Every turn keeps the status index valid. *)
Lemma step_valid s l : valid (status (core s)) -> valid (status (core (step s l))).
Proof.
  intros Hv. destruct l as [cl sync|t ok sync heard|e]; unfold step.
  - destruct (invoke_extends cl sync s) as (? & ? & _ & _ & _ & _ & H & _). auto.
  - destruct (tasks s !! t) as [[[|f rest] rdy|]|]; try done.
    destruct (resumable (Running (f :: rest) rdy) ok); [|done].
    destruct (resume_spec t f ok sync (core s)) as [(r & -> & Ht & _)|(n & e & ->)].
    + destruct r as [c r]. rewrite settle_status. simpl.
      rewrite process_exit_status. auto.
    + rewrite settle_status. simpl. rewrite process_exit_status.
      destruct (hear_extends e heard
        (mkBot (record (Emitted e) (set_status n (core s)))
               (<[t:=place (Return true) rest]> (tasks s))))
        as (? & ? & _ & _ & _ & _ & H & _).
      apply H. simpl. by apply valid_setStatus.
  - done.
Qed.

Lemma run_valid ls : forall s,
  valid (status (core s)) -> valid (status (core (run s ls))).
Proof.
  induction ls as [|l ls IH]; intros s Hv; simpl; [done|].
  apply IH, step_valid, Hv.
Qed.

(** C10: in the initial state and after any sequence of turns of [load],
    [start], [shutdown], [pause] and [reset], exactly one status flag is set
    and [getStatus()] is one of the six status names, never ['broken']. *)
Theorem status_always_single (ls : list Label) :
  one_flag (status (core (run initial ls))) /\
  In (getStatus (status (core (run initial ls))))
     ["waiting"; "loading"; "loaded"; "starting"; "started"; "shutdown"] /\
  getStatus (status (core (run initial ls))) <> "broken".
Proof.
  pose proof (run_valid ls initial valid_initial) as Hv.
  split; [by apply valid_one_flag|].
  destruct Hv as [n ->]. destruct n; simpl; split; auto 10; discriminate.
Qed.

(** The frames of [shutdown]. *)
Definition sd (f : Frame) : bool :=
  match f with
  | SdAwaitEvent _ _ | SdAwaitMemory _ | SdAwaitAdapters _
  | SdAwaitServer _ | SdAwaitDelay _ => true
  | _ => false
  end.

Lemma foreign_not_finished t ok st : forall evs,
  forallb (foreign t) evs = true -> ~ In (Finished t ok st) evs.
Proof.
  induction evs as [|ev evs IH]; intros H; [by intros []|].
  simpl in H. apply andb_true_iff in H as [Hev H].
  intros [->|Hin]; [|by apply IH].
  simpl in Hev. by rewrite Nat.eqb_refl in Hev.
Qed.

(** A turn that is not a turn of task [t] records nothing about [t] and
    leaves [t] where it is, or wakes it with the event it emits. *)
Lemma step_other (t : nat) (s : Bot) (l : Label) :
  t < length (tasks s) ->
  (forall ok sync heard, l <> Resume t ok sync heard) ->
  exists new,
    log (core (step s l)) = (log (core s) ++ new)%list /\
    forallb (foreign t) new = true /\
    (tasks (step s l) !! t = tasks s !! t \/
     exists x, emitted x new = true /\
               tasks (step s l) !! t = wake x <$> tasks s !! t).
Proof.
  intros Ht Hl. destruct l as [cl sync|t' ok sync heard|x]; unfold step.
  - destruct (invoke_extends cl sync s) as (extra & new & Hts & Hlog & Hf & _).
    exists new. rewrite Hts, Hlog. repeat split; auto.
    left. by apply lookup_app_l.
  - assert (Hne : t <> t') by (intros ->; by eapply Hl).
    destruct (tasks s !! t') as [[[|f rest] rdy|]|] eqn:Ht';
      try (exists []; rewrite app_nil_r; by auto).
    destruct (resumable (Running (f :: rest) rdy) ok);
      [|exists []; rewrite app_nil_r; by auto].
    destruct (resume_spec t' f ok sync (core s))
      as [([c r] & -> & _ & new1 & Hl1 & Hf1 & _)|(n & x & ->)].
    + simpl in Hl1. cbn [core tasks].
      destruct (settle_log t' (mkBot (process_exit f c) (<[t':=place r rest]> (tasks s))))
        as (fin & Hfin & Hfin').
      destruct (process_exit_log f c) as (ex & Hex & Hex').
      exists (new1 ++ ex ++ fin)%list. rewrite settle_tasks, Hfin. simpl.
      rewrite Hex, Hl1, <- !app_assoc. split; [done|]. split.
      * rewrite !forallb_app, Hf1 by done.
        destruct Hex' as [->|[code ->]], Hfin' as [->|(ok' & _ & ->)]; simpl;
          rewrite ?foreign_neq; auto.
      * left. by apply list_lookup_insert_ne.
    + cbn [core tasks].
      set (s1 := mkBot (record (Emitted x) (set_status n (core s)))
                       (<[t':=place (Return true) rest]> (tasks s))).
      destruct (hear_extends x heard s1) as (extra & new2 & Hts & Hlog & Hf & _).
      simpl in Hts, Hlog, Hf.
      destruct (settle_log t' (mkBot (process_exit f (core (hear x heard s1)))
                                     (tasks (hear x heard s1))))
        as (fin & Hfin & Hfin').
      destruct (process_exit_log f (core (hear x heard s1))) as (ex & Hex & Hex').
      exists ([Emitted x] ++ new2 ++ ex ++ fin)%list.
      rewrite settle_tasks, Hfin. simpl. rewrite Hex, Hlog, Hts, <- !app_assoc.
      split; [done|]. split.
      * rewrite !forallb_app, Hf by (by rewrite length_map, length_insert).
        destruct Hex' as [->|[code ->]], Hfin' as [->|(ok' & _ & ->)]; simpl;
          rewrite ?foreign_neq; auto.
      * right. exists x. split; [simpl; by rewrite String.eqb_refl|].
        rewrite lookup_app_l by (by rewrite length_map, length_insert).
        rewrite list_lookup_fmap. by rewrite list_lookup_insert_ne.
  - simpl. exists [Emitted x]. repeat split; auto.
    right. exists x. split; [simpl; by rewrite String.eqb_refl|].
    by rewrite list_lookup_fmap.
Qed.

Lemma getStatus_setStatus n st : valid st -> getStatus (setStatus n st) = key n.
Proof. intros [m ->]. by destruct n, m. Qed.

(** A turn of a task that is a lone call of [shutdown]: the task stays in
    [shutdown] or settles, and when it resolves the status is ['shutdown']. *)
Lemma step_self (t : nat) (s : Bot) (ok sync : bool) (heard : list (Call * bool))
    (f : Frame) (rdy : option bool) :
  valid (status (core s)) ->
  tasks s !! t = Some (Running [f] rdy) ->
  sd f = true ->
  step s (Resume t ok sync heard) = s \/
  (resumable (Running [f] rdy) ok = true /\
   exists new,
     log (core (step s (Resume t ok sync heard))) = (log (core s) ++ new)%list /\
     (forall st, In (Finished t true st) new -> st = "shutdown") /\
     ((exists f' rdy', tasks (step s (Resume t ok sync heard)) !! t
                       = Some (Running [f'] rdy') /\ sd f' = true) \/
      exists ok', tasks (step s (Resume t ok sync heard)) !! t = Some (Settled ok'))).
Proof.
  intros Hv Ht Hsd. pose proof (lookup_lt_Some _ _ _ Ht) as Hlt.
  unfold step. rewrite Ht.
  destruct (resumable (Running [f] rdy) ok) eqn:Hres; [right|by left].
  split; [done|].
  destruct f; try discriminate; simpl resume; unfold quiet, finish.
  1-4: try destruct ok; cbn [core tasks place app];
    unfold settle; cbn [core tasks process_exit];
    rewrite list_lookup_insert_eq by done; cbn [core tasks];
    try (eexists; split; [unfold record; cbn [log]; reflexivity|];
         split; [intros st [H|[]]; discriminate || done|];
         rewrite ?list_lookup_insert_eq by done; eauto; fail).
  1: { (* SdAwaitServer, resolved: nothing is recorded *)
    exists []. rewrite app_nil_r.
    split; [done|]. split; [by intros st []|].
    rewrite ?list_lookup_insert_eq by done.
    left. by exists (SdAwaitDelay exit), None. }
  cbn [core tasks place app]; unfold settle; cbn [core tasks process_exit].
  (* SdAwaitDelay: the last turn *)
  set (s1 := mkBot (record (Emitted "shutdown") (set_status Shutdown (core s)))
                     (<[t:=Settled true]> (tasks s))).
    destruct (hear_extends "shutdown" heard s1)
      as (extra & new2 & Hts & Hlog & Hf & _ & _ & Hk).
    simpl in Hts, Hlog, Hf, Hk.
    assert (Hst : status (core (hear "shutdown" heard s1))
                  = setStatus Shutdown (status (core s)))
      by (apply Hk; by rewrite getStatus_setStatus).
    assert (Htk : tasks (hear "shutdown" heard s1) !! t = Some (Settled true)).
    { rewrite Hts, lookup_app_l by (by rewrite length_map, length_insert).
      by rewrite list_lookup_fmap, list_lookup_insert_eq. }
    rewrite Htk. cbn [core tasks].
    assert (Hex : exists ex, log (if Nat.eqb exit 0 then core (hear "shutdown" heard s1)
                                  else record (Exited exit) (core (hear "shutdown" heard s1)))
                             = (log (core (hear "shutdown" heard s1)) ++ ex)%list /\
                             (ex = [] \/ ex = [Exited exit]) /\
                  status (if Nat.eqb exit 0 then core (hear "shutdown" heard s1)
                          else record (Exited exit) (core (hear "shutdown" heard s1)))
                  = status (core (hear "shutdown" heard s1))).
    { destruct (Nat.eqb exit 0); [exists []|exists [Exited exit]];
        rewrite ?app_nil_r; auto. }
    destruct Hex as (ex & Hex & Hex' & Hexs).
    exists ([Emitted "shutdown"] ++ new2 ++ ex ++
            [Finished t true "shutdown"])%list.
    unfold record at 1. cbn [log status]. rewrite Hex, Hexs, Hlog, Hst.
    rewrite getStatus_setStatus by done. simpl key.
    split; [by rewrite <- !app_assoc|]. split; [|eauto].
    intros st Hin. rewrite !in_app_iff in Hin.
    destruct Hin as [[H|[]]|[H|[H|[H|[]]]]]; try discriminate.
    + apply foreign_not_finished in H; [done|].
      apply Hf. subst s1. simpl. by rewrite ?length_map, ?length_insert.
    + destruct Hex' as [->| ->]; [by destruct H|].
      destruct H as [H|[]]. discriminate.
    + by injection H.
Qed.

(** Whoever calls it, a call of [shutdown] made while the status is
    ['loading'] makes no teardown call and suspends on the ['loaded'] event. *)
Lemma shutdown_suspends_when_loading (t exit : nat) (c : Core) :
  getStatus (status c) = "loading" ->
  shutdown t exit c = (c, Suspend [SdAwaitEvent "loaded" exit] None).
Proof. intros H. unfold shutdown. by rewrite H. Qed.

(** A task suspended on an event runs again only once woken. *)
Lemma waiting_not_resumable (e : string) (exit : nat) (rest : list Frame) (ok : bool) :
  resumable (Running (SdAwaitEvent e exit :: rest) None) ok = false.
Proof. reflexivity. Qed.

Section Watch.

(** The task under watch, a lone call [shutdown(exit)], and the events
    recorded before it was called. *)
Variables (t exit : nat) (base : list Event).

(** Where the watched call stands: waiting for ['loaded'], not woken yet;
    past that wait, ['loaded'] having been emitted since the call; over. *)
Inductive phase (s : Bot) (suffix : list Event) : Prop :=
| Waits :
    tasks s !! t = Some (Running [SdAwaitEvent "loaded" exit] None) ->
    phase s suffix
| Tears f rdy :
    tasks s !! t = Some (Running [f] rdy) -> sd f = true ->
    emitted "loaded" suffix = true ->
    phase s suffix
| Over ok :
    tasks s !! t = Some (Settled ok) ->
    phase s suffix.

Definition watching (s : Bot) : Prop :=
  valid (status (core s)) /\
  exists suffix,
    log (core s) = (base ++ suffix)%list /\
    teardown_after "loaded" t false suffix = true /\
    resolved_with t "shutdown" suffix /\
    phase s suffix.

Lemma phase_lt s suffix : phase s suffix -> t < length (tasks s).
Proof. intros [H|f rdy H _ _|ok H]; by apply lookup_lt_Some in H. Qed.

Lemma phase_more s suffix new :
  phase s suffix -> phase s (suffix ++ new).
Proof.
  intros [H|f rdy H Hsd Hem|ok H].
  - by apply Waits.
  - apply (Tears _ _ f rdy); auto. by rewrite emitted_app, Hem.
  - by apply (Over _ _ ok).
Qed.

Lemma phase_woken s s' suffix new x :
  phase s suffix -> emitted x new = true ->
  tasks s' !! t = wake x <$> tasks s !! t ->
  phase s' (suffix ++ new).
Proof.
  intros [H|f rdy H Hsd Hem|ok H] Hx Hw; rewrite H in Hw; simpl in Hw.
  - destruct (String.eqb x "loaded") eqn:E.
    + apply String.eqb_eq in E as ->.
      apply (Tears _ _ (SdAwaitEvent "loaded" exit) (Some true)); auto.
      by rewrite emitted_app, Hx, orb_true_r.
    + by apply Waits.
  - assert (Hw' : exists rdy', tasks s' !! t = Some (Running [f] rdy')).
    { destruct f, rdy; simpl in Hw; eauto.
      destruct (String.eqb x e); eauto. }
    destruct Hw' as [rdy' Hw']. apply (Tears _ _ f rdy'); auto.
    by rewrite emitted_app, Hem.
  - by apply (Over _ _ ok).
Qed.

Lemma watching_step s l : watching s -> watching (step s l).
Proof.
  intros (Hv & suffix & Hlog & Hta & Hres & Hph).
  split; [by apply step_valid|].
  assert (Hother : (forall ok sync heard, l <> Resume t ok sync heard) ->
    exists suffix',
      log (core (step s l)) = (base ++ suffix')%list /\
      teardown_after "loaded" t false suffix' = true /\
      resolved_with t "shutdown" suffix' /\ phase (step s l) suffix').
  { intros Hl.
    destruct (step_other t s l (phase_lt _ _ Hph) Hl) as (new & Hlog' & Hf & Htk).
    exists (suffix ++ new)%list. rewrite Hlog', Hlog, app_assoc.
    split; [done|]. split.
    { by rewrite teardown_after_app, Hta, teardown_after_foreign. }
    split.
    { intros st Hin. apply in_app_iff in Hin as [Hin|Hin]; [by apply Hres|].
      by apply foreign_not_finished in Hin. }
    destruct Htk as [Htk|(x & Hx & Htk)].
    - apply phase_more. destruct Hph as [H|f rdy H Hsd Hem|ok H];
        [apply Waits|apply (Tears _ _ f rdy)|apply (Over _ _ ok)];
        auto; by rewrite Htk.
    - by eapply phase_woken. }
  destruct l as [cl sync|t' ok sync heard|x];
    [apply Hother; discriminate| |apply Hother; discriminate].
  destruct (decide (t' = t)) as [->|Hne];
    [|apply Hother; intros ? ? ? [=]; done].
  destruct Hph as [H|f rdy H Hsd Hem|ok' H].
  - destruct (step_self t s ok sync heard _ _ Hv H eq_refl) as [->|[Hr _]].
    + exists suffix. repeat split; auto. by apply Waits.
    + discriminate.
  - destruct (step_self t s ok sync heard _ _ Hv H Hsd)
      as [->|(_ & new & Hlog' & Hfin & Htk)].
    + exists suffix. repeat split; auto. by apply (Tears _ _ f rdy).
    + exists (suffix ++ new)%list. rewrite Hlog', Hlog, app_assoc.
      split; [done|]. split.
      { by rewrite teardown_after_app, Hta, Hem, teardown_after_seen. }
      split.
      { intros st Hin. apply in_app_iff in Hin as [Hin|Hin]; auto. }
      destruct Htk as [(f' & rdy' & Htk & Hsd')|(ok' & Htk)].
      * apply (Tears _ _ f' rdy'); auto. by rewrite emitted_app, Hem.
      * by apply (Over _ _ ok').
  - unfold step. rewrite H. exists suffix. repeat split; auto.
    by apply (Over _ _ ok').
Qed.

Lemma watching_run ls : forall s, watching s -> watching (run s ls).
Proof.
  induction ls as [|l ls IH]; intros s H; simpl; [done|].
  apply IH, watching_step, H.
Qed.

End Watch.

(** ** The call goes on once ['loaded'] is emitted *)

(** What the emissions among the events do to a task. *)
Definition woken (new : list Event) (tk : Task) : Task :=
  fold_left (fun tk' ev => match ev with Emitted x => wake x tk' | _ => tk' end) new tk.

Lemma woken_app (a b : list Event) (tk : Task) :
  woken (a ++ b) tk = woken b (woken a tk).
Proof. unfold woken. apply fold_left_app. Qed.

Lemma woken_silent : forall (new : list Event) (tk : Task),
  forallb silent new = true -> woken new tk = tk.
Proof.
  induction new as [|ev new IH]; intros tk H; [done|].
  simpl in H. apply andb_true_iff in H as [Hev H].
  destruct ev; try discriminate; simpl; by apply IH.
Qed.

(** A task whose awaited promise has settled is not touched by emissions. *)
Lemma woken_ready : forall (new : list Event) (fs : list Frame) (r : bool),
  woken new (Running fs (Some r)) = Running fs (Some r).
Proof.
  induction new as [|ev new IH]; intros fs r; [done|].
  destruct ev; simpl; try apply IH. destruct fs as [|[] fs]; apply IH.
Qed.

(** Nor is a task that awaits a collaborator or a delay. *)
Lemma woken_busy : forall (new : list Event) (f : Frame) (rdy : option bool),
  (forall e exit, f <> SdAwaitEvent e exit) ->
  woken new (Running [f] rdy) = Running [f] rdy.
Proof.
  induction new as [|ev new IH]; intros f rdy Hf; [done|].
  destruct ev; simpl; try by apply IH.
  destruct f; try by apply IH. by destruct (Hf e0 exit).
Qed.

(** A task waiting for ['loaded'] is woken by the first emission of it. *)
Lemma woken_waiting (exit : nat) (rest : list Frame) : forall new : list Event,
  woken new (Running (SdAwaitEvent "loaded" exit :: rest) None)
  = Running (SdAwaitEvent "loaded" exit :: rest)
      (if emitted "loaded" new then Some true else None).
Proof.
  induction new as [|ev new IH]; [done|].
  change (woken (ev :: new) (Running (SdAwaitEvent "loaded" exit :: rest) None))
    with (woken new (match ev with
                     | Emitted x =>
                         wake x (Running (SdAwaitEvent "loaded" exit :: rest) None)
                     | _ => Running (SdAwaitEvent "loaded" exit :: rest) None
                     end)).
  change (emitted "loaded" (ev :: new))
    with ((match ev with Emitted e' => String.eqb "loaded" e' | _ => false end)
          || emitted "loaded" new).
  destruct ev; try exact IH.
  change (wake e (Running (SdAwaitEvent "loaded" exit :: rest) None))
    with (if String.eqb e "loaded"
          then Running (SdAwaitEvent "loaded" exit :: rest) (Some true)
          else Running (SdAwaitEvent "loaded" exit :: rest) None).
  rewrite (String.eqb_sym "loaded" e).
  destruct (String.eqb e "loaded"); [apply woken_ready|exact IH].
Qed.

(** A turn that is not a turn of task [t] records nothing about [t]; what
    it emits is heard by [t]. *)
Lemma step_other_woken (t : nat) (s : Bot) (l : Label) :
  t < length (tasks s) ->
  other t l = true ->
  exists new,
    log (core (step s l)) = (log (core s) ++ new)%list /\
    forallb (foreign t) new = true /\
    tasks (step s l) !! t = woken new <$> tasks s !! t.
Proof.
  intros Ht Hl.
  assert (Hid : forall new, forallb silent new = true ->
            tasks s !! t = woken new <$> tasks s !! t).
  { intros new Hn. destruct (tasks s !! t) as [tk|]; [|done].
    simpl. by rewrite woken_silent. }
  destruct l as [cl sync|t' ok sync heard|x]; unfold step.
  - destruct (invoke_extends cl sync s) as (extra & new & Hts & Hlog & Hf & Hsil & _).
    exists new. rewrite Hts, Hlog. repeat split; auto.
    rewrite lookup_app_l by done. by apply Hid.
  - assert (Hne : t <> t').
    { simpl in Hl. apply negb_true_iff, Nat.eqb_neq in Hl. exact Hl. }
    destruct (tasks s !! t') as [[[|f rest] rdy|]|] eqn:Ht';
      try (exists []; rewrite app_nil_r; repeat split; auto; by apply Hid).
    destruct (resumable (Running (f :: rest) rdy) ok);
      [|exists []; rewrite app_nil_r; repeat split; auto; by apply Hid].
    destruct (resume_spec t' f ok sync (core s))
      as [([c r] & -> & _ & new1 & Hl1 & Hf1 & Hs1)|(n & x & ->)].
    + simpl in Hl1. cbn [core tasks].
      destruct (settle_log t' (mkBot (process_exit f c) (<[t':=place r rest]> (tasks s))))
        as (fin & Hfin & Hfin').
      destruct (process_exit_log f c) as (ex & Hex & Hex').
      exists (new1 ++ ex ++ fin)%list. rewrite settle_tasks, Hfin. simpl.
      rewrite Hex, Hl1, <- !app_assoc. split; [done|]. split.
      * rewrite !forallb_app, Hf1 by done.
        destruct Hex' as [->|[code ->]], Hfin' as [->|(ok' & _ & ->)]; simpl;
          rewrite ?foreign_neq; auto.
      * rewrite list_lookup_insert_ne by done. apply Hid.
        rewrite !forallb_app, Hs1.
        by destruct Hex' as [->|[code ->]], Hfin' as [->|(ok' & _ & ->)].
    + cbn [core tasks].
      set (s1 := mkBot (record (Emitted x) (set_status n (core s)))
                       (<[t':=place (Return true) rest]> (tasks s))).
      destruct (hear_extends x heard s1) as (extra & new2 & Hts & Hlog & Hf & Hs2 & _).
      simpl in Hts, Hlog, Hf.
      destruct (settle_log t' (mkBot (process_exit f (core (hear x heard s1)))
                                     (tasks (hear x heard s1))))
        as (fin & Hfin & Hfin').
      destruct (process_exit_log f (core (hear x heard s1))) as (ex & Hex & Hex').
      exists ([Emitted x] ++ new2 ++ ex ++ fin)%list.
      rewrite settle_tasks, Hfin. simpl. rewrite Hex, Hlog, Hts, <- !app_assoc.
      split; [done|]. split.
      * rewrite !forallb_app, Hf by (by rewrite length_map, length_insert).
        destruct Hex' as [->|[code ->]], Hfin' as [->|(ok' & _ & ->)]; simpl;
          rewrite ?foreign_neq; auto.
      * rewrite lookup_app_l by (by rewrite length_map, length_insert).
        rewrite list_lookup_fmap, list_lookup_insert_ne by done.
        destruct (tasks s !! t) as [tk|]; [|done]. simpl. f_equal.
        symmetry. apply woken_silent. rewrite !forallb_app, Hs2.
        by destruct Hex' as [->|[code ->]], Hfin' as [->|(ok' & _ & ->)].
  - simpl. exists [Emitted x]. repeat split; auto.
    rewrite list_lookup_fmap. by destruct (tasks s !! t).
Qed.

Lemma run_app (s : Bot) (a b : list Label) : run s (a ++ b) = run (run s a) b.
Proof. unfold run. apply fold_left_app. Qed.

(** The same for any number of turns of others. *)
Lemma run_others_woken (t : nat) (gap : list Label) : forall s,
  t < length (tasks s) ->
  forallb (other t) gap = true ->
  exists new,
    log (core (run s gap)) = (log (core s) ++ new)%list /\
    forallb (foreign t) new = true /\
    tasks (run s gap) !! t = woken new <$> tasks s !! t.
Proof.
  induction gap as [|l gap IH]; intros s Ht Hg; simpl.
  - exists []. rewrite app_nil_r. repeat split; auto. by destruct (tasks s !! t).
  - simpl in Hg. apply andb_true_iff in Hg as [Hl Hg].
    destruct (step_other_woken t s l Ht Hl) as (new1 & Hlog1 & Hf1 & Htk1).
    assert (Ht' : t < length (tasks (step s l))).
    { apply lookup_lt_is_Some. rewrite Htk1.
      apply lookup_lt_is_Some in Ht as [tk ->]. by eexists. }
    destruct (IH (step s l) Ht' Hg) as (new2 & Hlog2 & Hf2 & Htk2).
    exists (new1 ++ new2)%list. rewrite Hlog2, Hlog1, app_assoc.
    split; [done|]. split; [by rewrite forallb_app, Hf1, Hf2|].
    rewrite Htk2, Htk1. destruct (tasks s !! t) as [tk|]; [|done].
    simpl. by rewrite woken_app.
Qed.

Lemma calls_of_foreign (t : nat) : forall new : list Event,
  forallb (foreign t) new = true -> calls_of t new = [].
Proof.
  induction new as [|ev new IH]; intros H; [done|].
  simpl in H. apply andb_true_iff in H as [Hev H].
  unfold calls_of in *. simpl. rewrite (IH H).
  destruct ev; simpl in *; try done;
    apply negb_true_iff in Hev; by rewrite Hev.
Qed.

Lemma calls_of_app (t : nat) (a b : list Event) :
  calls_of t (a ++ b) = (calls_of t a ++ calls_of t b)%list.
Proof. unfold calls_of. apply List.filter_app. Qed.

(** What one turn of a lone call of [shutdown] does when the promise it
    awaits has resolved: the next teardown call, or the end. *)
Definition advanced (t : nat) (f : Frame) (new : list Event) (tk : option Task) : Prop :=
  match f with
  | SdAwaitEvent _ exit =>
      calls_of t new = [MemoryShutdown t] /\ tk = Some (Running [SdAwaitMemory exit] None)
  | SdAwaitMemory exit =>
      calls_of t new = [AdaptersShutdown t] /\
      tk = Some (Running [SdAwaitAdapters exit] None)
  | SdAwaitAdapters exit =>
      calls_of t new = [ServerShutdown t] /\ tk = Some (Running [SdAwaitServer exit] None)
  | SdAwaitServer exit =>
      calls_of t new = [] /\ tk = Some (Running [SdAwaitDelay exit] None)
  | SdAwaitDelay _ =>
      calls_of t new = [] /\ In (Finished t true "shutdown") new /\
      tk = Some (Settled true)
  | _ => True
  end.

Lemma own_turn (t : nat) (s : Bot) (sync : bool) (heard : list (Call * bool))
    (f : Frame) (rdy : option bool) :
  valid (status (core s)) ->
  tasks s !! t = Some (Running [f] rdy) ->
  sd f = true ->
  resumable (Running [f] rdy) true = true ->
  exists new,
    log (core (step s (Resume t true sync heard))) = (log (core s) ++ new)%list /\
    advanced t f new (tasks (step s (Resume t true sync heard)) !! t).
Proof.
  intros Hv Ht Hsd Hres. pose proof (lookup_lt_Some _ _ _ Ht) as Hlt.
  unfold step. rewrite Ht, Hres.
  destruct f; try discriminate Hsd;
    simpl resume; unfold quiet, finish, advanced;
    cbn [core tasks place app]; unfold settle; cbn [core tasks process_exit];
    rewrite ?list_lookup_insert_eq by done; cbn [core tasks].
  1-3: eexists; (split; [unfold record; cbn [log]; reflexivity|]);
    unfold calls_of; simpl; rewrite Nat.eqb_refl;
    rewrite ?list_lookup_insert_eq by done; done.
  1: { exists []. rewrite app_nil_r. split; [done|].
       rewrite ?list_lookup_insert_eq by done. done. }
  set (s1 := mkBot (record (Emitted "shutdown") (set_status Shutdown (core s)))
                   (<[t:=Settled true]> (tasks s))).
  destruct (hear_extends "shutdown" heard s1)
    as (extra & new2 & Hts & Hlog & Hf & _ & _ & Hk).
  simpl in Hts, Hlog, Hf, Hk.
  assert (Hst : status (core (hear "shutdown" heard s1))
                = setStatus Shutdown (status (core s)))
    by (apply Hk; by rewrite getStatus_setStatus).
  assert (Htk : tasks (hear "shutdown" heard s1) !! t = Some (Settled true)).
  { rewrite Hts, lookup_app_l by (by rewrite length_map, length_insert).
    by rewrite list_lookup_fmap, list_lookup_insert_eq. }
  rewrite Htk. cbn [core tasks].
  assert (Hex : exists ex, log (if Nat.eqb exit 0 then core (hear "shutdown" heard s1)
                                else record (Exited exit) (core (hear "shutdown" heard s1)))
                           = (log (core (hear "shutdown" heard s1)) ++ ex)%list /\
                           (ex = [] \/ ex = [Exited exit]) /\
                status (if Nat.eqb exit 0 then core (hear "shutdown" heard s1)
                        else record (Exited exit) (core (hear "shutdown" heard s1)))
                = status (core (hear "shutdown" heard s1))).
  { destruct (Nat.eqb exit 0); [exists []|exists [Exited exit]];
      rewrite ?app_nil_r; auto. }
  destruct Hex as (ex & Hex & Hex' & Hexs).
  exists ([Emitted "shutdown"] ++ new2 ++ ex ++ [Finished t true "shutdown"])%list.
  unfold record at 1. cbn [log status]. rewrite Hex, Hexs, Hlog, Hst.
  rewrite getStatus_setStatus by done. simpl key.
  split; [by rewrite <- !app_assoc|]. split; [|split; [|done]].
  - rewrite !calls_of_app, (calls_of_foreign t new2).
    + by destruct Hex' as [->| ->].
    + apply Hf. subst s1. simpl. by rewrite ?length_map, ?length_insert.
  - rewrite !in_app_iff. right. right. right. by left.
Qed.

(** Turns of others, then one turn of the call. *)
Lemma gap_then_turn (t : nat) (gap : list Label) (sync : bool)
    (heard : list (Call * bool)) (s : Bot) (f : Frame) (rdy : option bool) :
  valid (status (core s)) ->
  tasks s !! t = Some (Running [f] rdy) ->
  sd f = true ->
  resumable (Running [f] rdy) true = true ->
  (forall new, woken new (Running [f] rdy) = Running [f] rdy) ->
  forallb (other t) gap = true ->
  exists new,
    log (core (run s (gap ++ [Resume t true sync heard]))) = (log (core s) ++ new)%list /\
    valid (status (core (run s (gap ++ [Resume t true sync heard])))) /\
    advanced t f new (tasks (run s (gap ++ [Resume t true sync heard])) !! t).
Proof.
  intros Hv Ht Hsd Hres Hw Hg. rewrite run_app.
  change (run (run s gap) [Resume t true sync heard])
    with (step (run s gap) (Resume t true sync heard)).
  destruct (run_others_woken t gap s (lookup_lt_Some _ _ _ Ht) Hg)
    as (new1 & Hlog1 & Hf1 & Htk1).
  rewrite Ht in Htk1. simpl in Htk1. rewrite Hw in Htk1.
  pose proof (run_valid gap s Hv) as Hv1.
  destruct (own_turn t (run s gap) sync heard f rdy Hv1 Htk1 Hsd Hres)
    as (new2 & Hlog2 & Hadv).
  exists (new1 ++ new2)%list. rewrite Hlog2, Hlog1, app_assoc.
  split; [done|]. split; [by apply step_valid|].
  revert Hadv. unfold advanced.
  destruct f; try done; rewrite calls_of_app, (calls_of_foreign t new1 Hf1);
    cbn [app]; rewrite ?in_app_iff; tauto.
Qed.

(** ** Whoever calls [shutdown] while the status is ['loading'] *)

(** Every turn adds to the record. *)
Lemma step_grows (s : Bot) (l : Label) :
  exists new, log (core (step s l)) = (log (core s) ++ new)%list.
Proof.
  destruct l as [cl sync|t ok sync heard|x]; unfold step.
  - destruct (invoke_extends cl sync s) as (extra & new & _ & Hlog & _). eauto.
  - destruct (tasks s !! t) as [[[|f rest] rdy|]|] eqn:Ht;
      try (exists []; by rewrite app_nil_r).
    destruct (resumable (Running (f :: rest) rdy) ok);
      [|exists []; by rewrite app_nil_r].
    destruct (resume_spec t f ok sync (core s))
      as [([c r] & -> & _ & new1 & Hl1 & _)|(n & x & ->)].
    + simpl in Hl1. cbn [core tasks].
      destruct (settle_log t (mkBot (process_exit f c) (<[t:=place r rest]> (tasks s))))
        as (fin & Hfin & _).
      destruct (process_exit_log f c) as (ex & Hex & _).
      exists (new1 ++ ex ++ fin)%list. rewrite Hfin. simpl.
      by rewrite Hex, Hl1, <- !app_assoc.
    + cbn [core tasks].
      set (s1 := mkBot (record (Emitted x) (set_status n (core s)))
                       (<[t:=place (Return true) rest]> (tasks s))).
      destruct (hear_extends x heard s1) as (extra & new2 & _ & Hlog & _).
      simpl in Hlog.
      destruct (settle_log t (mkBot (process_exit f (core (hear x heard s1)))
                                    (tasks (hear x heard s1))))
        as (fin & Hfin & _).
      destruct (process_exit_log f (core (hear x heard s1))) as (ex & Hex & _).
      exists ([Emitted x] ++ new2 ++ ex ++ fin)%list.
      rewrite Hfin. simpl. by rewrite Hex, Hlog, <- !app_assoc.
  - simpl. by exists [Emitted x].
Qed.

(** Called while the status is ['loading'], each of the exported functions
    comes to call [shutdown], which is suspended on the ['loaded'] event. *)
Lemma call_when_loading (cl : Call) (t : nat) (sync : bool) (c : Core) :
  getStatus (status c) = "loading" ->
  exists exit rest,
    call cl t sync c = (c, Suspend (SdAwaitEvent "loaded" exit :: rest) None).
Proof.
  intros H.
  destruct cl; unfold call, start, load, pause, reset; rewrite ?H; simpl;
    rewrite (shutdown_suspends_when_loading _ _ _ H); simpl; eauto.
Qed.

Section Held.

(** A task whose innermost function is a [shutdown] that waits for
    ['loaded'], and the events recorded before the task began. *)
Variables (t exit : nat) (rest : list Frame) (base : list Event).

(** The task is still waiting, or ['loaded'] has been emitted since it
    began; all its teardown calls came after such an emission. *)
Definition held (s : Bot) : Prop :=
  exists suffix,
    log (core s) = (base ++ suffix)%list /\
    teardown_after "loaded" t false suffix = true /\
    (tasks s !! t = Some (Running (SdAwaitEvent "loaded" exit :: rest) None) \/
     emitted "loaded" suffix = true).

Lemma held_step (s : Bot) (l : Label) : held s -> held (step s l).
Proof.
  intros (suffix & Hlog & Hta & [Htk|Hem]).
  - destruct (other t l) eqn:Ho.
    + destruct (step_other_woken t s l (lookup_lt_Some _ _ _ Htk) Ho)
        as (new & Hlog' & Hf & Htk').
      exists (suffix ++ new)%list. rewrite Hlog', Hlog, app_assoc.
      split; [done|]. split.
      { by rewrite teardown_after_app, Hta, teardown_after_foreign. }
      rewrite Htk in Htk'. simpl in Htk'. rewrite woken_waiting in Htk'.
      rewrite emitted_app. destruct (emitted "loaded" new); [right|left; exact Htk'].
      by rewrite orb_true_r.
    + destruct l as [cl sync|t' ok sync heard|x]; try discriminate Ho.
      simpl in Ho. apply negb_false_iff, Nat.eqb_eq in Ho as <-.
      exists suffix. unfold step. rewrite Htk. simpl. auto.
  - destruct (step_grows s l) as (new & Hlog').
    exists (suffix ++ new)%list. rewrite Hlog', Hlog, app_assoc.
    split; [done|]. split.
    + by rewrite teardown_after_app, Hta, Hem, teardown_after_seen.
    + right. by rewrite emitted_app, Hem.
Qed.

Lemma held_run (ls : list Label) : forall s, held s -> held (run s ls).
Proof.
  induction ls as [|l ls IH]; intros s H; simpl; [done|].
  apply IH, held_step, H.
Qed.

End Held.

(** C6: let [shutdown(exit)] be called in a reachable state whose status is
    ['loading'].  Whoever makes the call, it makes no teardown call and is
    suspended on the ['loaded'] event; this holds of the call that each
    exported function makes when it is called in that state, and in whatever
    follows, each teardown call (memory, adapters, server) of that task
    comes after an emission of ['loaded'].  For a call of [shutdown] from
    outside, moreover: whenever the call resolves the status is
    ['shutdown']; and the call does go on: once ['loaded'] has been emitted,
    five turns of the call in which the promises it awaits resolve, with any
    turns of others in between, tear down the memory, the adapters and the
    server, in this order, and the call resolves, the status being
    ['shutdown']. *)
Theorem shutdown_while_loading_waits (before after : list Label)
    (exit : nat) (sync_ok : bool) :
  getStatus (status (core (run initial before))) = "loading" ->
  (forall t' exit',
     shutdown t' exit' (core (run initial before))
     = (core (run initial before), Suspend [SdAwaitEvent "loaded" exit'] None)) /\
  (forall (cl : Call) (sync : bool) (others : list Label),
     exists exit' rest,
       tasks (step (run initial before) (Invoke cl sync))
         !! length (tasks (run initial before))
       = Some (Running (SdAwaitEvent "loaded" exit' :: rest) None) /\
       teardown_after "loaded" (length (tasks (run initial before))) false
         (observed (run initial before)
            (run (step (run initial before) (Invoke cl sync)) others))
       = true) /\
  tasks (step (run initial before) (Invoke (CShutdown exit) sync_ok))
    !! length (tasks (run initial before))
  = Some (Running [SdAwaitEvent "loaded" exit] None) /\
  teardown_after "loaded" (length (tasks (run initial before))) false
    (observed (run initial before)
       (run (step (run initial before) (Invoke (CShutdown exit) sync_ok)) after))
  = true /\
  resolved_with (length (tasks (run initial before))) "shutdown"
    (observed (run initial before)
       (run (step (run initial before) (Invoke (CShutdown exit) sync_ok)) after)) /\
  (forall (first : list Label) (gaps : list (list Label)) (heard : list (Call * bool)),
     forallb (other (length (tasks (run initial before)))) first = true ->
     Forall (fun gap => forallb (other (length (tasks (run initial before)))) gap = true)
       gaps ->
     length gaps = 4 ->
     emitted "loaded"
       (observed (run initial before)
          (run (step (run initial before) (Invoke (CShutdown exit) sync_ok)) first))
     = true ->
     tasks (run (step (run initial before) (Invoke (CShutdown exit) sync_ok))
              (turns (length (tasks (run initial before))) heard (first :: gaps)))
       !! length (tasks (run initial before))
     = Some (Settled true) /\
     calls_of (length (tasks (run initial before)))
       (observed (run initial before)
          (run (step (run initial before) (Invoke (CShutdown exit) sync_ok))
             (turns (length (tasks (run initial before))) heard (first :: gaps))))
     = [ MemoryShutdown (length (tasks (run initial before)));
         AdaptersShutdown (length (tasks (run initial before)));
         ServerShutdown (length (tasks (run initial before))) ] /\
     In (Finished (length (tasks (run initial before))) true "shutdown")
       (observed (run initial before)
          (run (step (run initial before) (Invoke (CShutdown exit) sync_ok))
             (turns (length (tasks (run initial before))) heard (first :: gaps))))).
Proof.
  set (s := run initial before). set (t := length (tasks s)).
  intros Hst.
  split; [intros t' exit'; by apply shutdown_suspends_when_loading|].
  split.
  { intros cl sync others.
    destruct (call_when_loading cl t sync (record (Invoked t cl) (core s)) Hst)
      as (exit' & rest & Hcall).
    exists exit', rest.
    assert (Hs1 : step s (Invoke cl sync)
                  = mkBot (record (Invoked t cl) (core s))
                          (tasks s ++ [Running (SdAwaitEvent "loaded" exit' :: rest) None])).
    { unfold step, invoke. fold t. rewrite Hcall. unfold settle. cbn [tasks place app].
      rewrite app_nil_r. by rewrite list_lookup_middle. }
    rewrite Hs1. split; [cbn [tasks]; by rewrite list_lookup_middle|].
    assert (Hh : held t exit' rest (log (core s))
                   (mkBot (record (Invoked t cl) (core s))
                          (tasks s ++ [Running (SdAwaitEvent "loaded" exit' :: rest) None]))).
    { exists [Invoked t cl]. split; [done|]. split; [done|].
      left. cbn [tasks]. by rewrite list_lookup_middle. }
    apply (held_run t exit' rest (log (core s)) others) in Hh.
    destruct Hh as (suffix & Hlog & Hta & _).
    unfold observed. by rewrite Hlog, drop_app_length. }
  assert (Hs1 : step s (Invoke (CShutdown exit) sync_ok)
                = mkBot (record (Invoked t (CShutdown exit)) (core s))
                        (tasks s ++ [Running [SdAwaitEvent "loaded" exit] None])).
  { unfold step, invoke, call, shutdown. simpl status. rewrite Hst. simpl.
    unfold settle. simpl. by rewrite list_lookup_middle. }
  rewrite Hs1.
  set (s1 := mkBot (record (Invoked t (CShutdown exit)) (core s))
                   (tasks s ++ [Running [SdAwaitEvent "loaded" exit] None])).
  assert (Hv1 : valid (status (core s1))) by (apply run_valid, valid_initial).
  assert (Ht1 : tasks s1 !! t = Some (Running [SdAwaitEvent "loaded" exit] None))
    by (simpl; by rewrite list_lookup_middle).
  assert (Hw : watching t exit (log (core s)) s1).
  { split; [exact Hv1|].
    exists [Invoked t (CShutdown exit)]. repeat split; simpl; auto.
    - intros st [H|[]]. discriminate.
    - by apply Waits. }
  split; [exact Ht1|].
  split; [|split].
  - apply (watching_run t exit (log (core s)) after) in Hw.
    destruct Hw as (_ & suffix & Hlog & Hta & _ & _).
    unfold observed. by rewrite Hlog, drop_app_length.
  - apply (watching_run t exit (log (core s)) after) in Hw.
    destruct Hw as (_ & suffix & Hlog & _ & Hres & _).
    unfold observed. by rewrite Hlog, drop_app_length.
  - intros first gaps heard Hfirst Hgaps Hlen Hem.
    destruct gaps as [|g1 [|g2 [|g3 [|g4 [|]]]]]; try discriminate Hlen.
    apply Forall_cons in Hgaps as [Hg1 Hgaps].
    apply Forall_cons in Hgaps as [Hg2 Hgaps].
    apply Forall_cons in Hgaps as [Hg3 Hgaps].
    apply Forall_cons in Hgaps as [Hg4 _].
    (* the turns of others before the call goes on *)
    destruct (run_others_woken t first s1 (lookup_lt_Some _ _ _ Ht1) Hfirst)
      as (n0 & Hlog0 & Hf0 & Htk0).
    rewrite Ht1 in Htk0. simpl in Htk0. rewrite woken_waiting in Htk0.
    assert (Hem0 : emitted "loaded" n0 = true).
    { revert Hem. unfold observed. rewrite Hlog0. subst s1. cbn [core log record].
      rewrite <- app_assoc, drop_app_length. simpl. done. }
    rewrite Hem0 in Htk0.
    pose proof (run_valid first s1 Hv1) as Hv0.
    (* the five turns *)
    destruct (gap_then_turn t [] true heard (run s1 first) _ _ Hv0 Htk0 eq_refl eq_refl
                (fun new => woken_ready new _ _) eq_refl)
      as (n1 & Hlog1 & Hva & Hc1 & Htka).
    destruct (gap_then_turn t g1 true heard _ _ _ Hva Htka eq_refl eq_refl
                (fun new => woken_busy new (SdAwaitMemory exit) None
                              ltac:(intros; discriminate)) Hg1)
      as (n2 & Hlog2 & Hvb & Hc2 & Htkb).
    destruct (gap_then_turn t g2 true heard _ _ _ Hvb Htkb eq_refl eq_refl
                (fun new => woken_busy new (SdAwaitAdapters exit) None
                              ltac:(intros; discriminate)) Hg2)
      as (n3 & Hlog3 & Hvc & Hc3 & Htkc).
    destruct (gap_then_turn t g3 true heard _ _ _ Hvc Htkc eq_refl eq_refl
                (fun new => woken_busy new (SdAwaitServer exit) None
                              ltac:(intros; discriminate)) Hg3)
      as (n4 & Hlog4 & Hvd & Hc4 & Htkd).
    destruct (gap_then_turn t g4 true heard _ _ _ Hvd Htkd eq_refl eq_refl
                (fun new => woken_busy new (SdAwaitDelay exit) None
                              ltac:(intros; discriminate)) Hg4)
      as (n5 & Hlog5 & Hve & Hc5 & Hfin & Htke).
    assert (Hrun : run s1 (turns t heard [first; g1; g2; g3; g4])
                   = run (run (run (run (run (run s1 first)
                       ([] ++ [Resume t true true heard]))
                       (g1 ++ [Resume t true true heard]))
                       (g2 ++ [Resume t true true heard]))
                       (g3 ++ [Resume t true true heard]))
                       (g4 ++ [Resume t true true heard])).
    { rewrite <- !run_app. unfold turns. cbn [flat_map].
      by rewrite app_nil_r, <- !app_assoc. }
    rewrite Hrun. split; [exact Htke|].
    unfold observed. rewrite Hlog5, Hlog4, Hlog3, Hlog2, Hlog1, Hlog0.
    subst s1. cbn [core log record].
    rewrite <- !app_assoc, drop_app_length.
    split.
    + rewrite !calls_of_app, Hc1, Hc2, Hc3, Hc4, Hc5, (calls_of_foreign t n0 Hf0). done.
    + rewrite !in_app_iff. by do 6 right.
Qed.

(** A run: [load()] is called and is in flight when [shutdown()] is called;
    [load] then finishes, and [shutdown] goes through its teardown. *)
Definition load_in_flight : list Label := [Invoke CLoad true].

Definition load_ends_then_teardown : list Label :=
  [ Resume 1 true true []; Resume 0 true true [];
    Resume 1 true true []; Resume 1 true true []; Resume 1 true true [];
    Resume 1 true true []; Resume 1 true true [] ].

Lemma shutdown_while_loading_waits_witness :
  getStatus (status (core (run initial load_in_flight))) = "loading" /\
  teardown_after "loaded" 1 false
    (observed (run initial load_in_flight)
       (run (step (run initial load_in_flight) (Invoke (CShutdown 0) true))
            load_ends_then_teardown)) = true /\
  resolved_with 1 "shutdown"
    (observed (run initial load_in_flight)
       (run (step (run initial load_in_flight) (Invoke (CShutdown 0) true))
            load_ends_then_teardown)) /\
  calls_of 1
    (observed (run initial load_in_flight)
       (run (step (run initial load_in_flight) (Invoke (CShutdown 0) true))
          (turns 1 [] [[Resume 0 true true []]; []; []; []; []])))
  = [MemoryShutdown 1; AdaptersShutdown 1; ServerShutdown 1].
Proof.
  split; [reflexivity|].
  destruct (shutdown_while_loading_waits load_in_flight load_ends_then_teardown
              0 true eq_refl) as (_ & _ & _ & H3 & H4 & H5).
  split; [exact H3|]. split; [exact H4|].
  refine (proj1 (proj2 (H5 [Resume 0 true true []] [[]; []; []; []] [] eq_refl _ eq_refl
                          eq_refl))).
  repeat constructor.
Defined.

(** In that run the call does go through the teardown and resolves. *)
Example shutdown_while_loading_run :
  observed (run initial load_in_flight)
    (run (step (run initial load_in_flight) (Invoke (CShutdown 0) true))
         load_ends_then_teardown)
  = [ Invoked 1 (CShutdown 0); Emitted "loaded"; Finished 0 true "loaded";
      MemoryShutdown 1; AdaptersShutdown 1; ServerShutdown 1;
      Emitted "shutdown"; Finished 1 true "shutdown" ].
Proof. reflexivity. Qed.

(** Called when nothing is loading, [shutdown] tears down at once. *)
Example shutdown_when_waiting_tears_down :
  observed initial (run initial [Invoke (CShutdown 0) true])
  = [Invoked 0 (CShutdown 0); MemoryShutdown 0] /\
  teardown_after "loaded" 0 false
    (observed initial (run initial [Invoke (CShutdown 0) true])) = false.
Proof. split; reflexivity. Qed.

End LifecycleProps.


(* ===================================================================== *)
(** * Regular expressions of the host language *)
(* ===================================================================== *)

(** [lib/condition.ts] builds pattern strings and hands them to the
    [RegExp] of the host.  This module models that collaborator for the
    fragment of the pattern syntax which [Expression.fromCondition] emits:
    a parser from the pattern string to a syntax tree and the backtracking
    matcher of the language definition (continuation passing, greedy and
    lazy quantifiers, numbered capture groups, lookahead, the [i] flag). *)

Module RegExp.

Local Open Scope char_scope.

(** ** Characters *)

Definition code (c : ascii) : N := N_of_ascii c.

Definition between (lo hi c : ascii) : bool :=
  (code lo <=? code c)%N && (code c <=? code hi)%N.

Definition is_digit (c : ascii) : bool := between "0" "9" c.

(** [\w] *)
Definition is_word (c : ascii) : bool :=
  between "a" "z" c || between "A" "Z" c || is_digit c || Ascii.eqb c "_".

(** [\s]: tab, line feed, vertical tab, form feed, carriage return, space,
    no-break space. *)
Definition is_space (c : ascii) : bool :=
  between "009" "013" c || Ascii.eqb c " " || Ascii.eqb c "160".

(** Line terminators, which [.] does not match. *)
Definition is_line_terminator (c : ascii) : bool :=
  Ascii.eqb c "010" || Ascii.eqb c "013".

(** Case folding of the [i] flag: the upper-case form of a letter. *)
Definition canonicalize (c : ascii) : ascii :=
  if between "a" "z" c then ascii_of_N (code c - 32)
  else if between "224" "254" c && negb (Ascii.eqb c "247")
       then ascii_of_N (code c - 32)
  else c.

(** ** Syntax trees *)

Inductive ClassItem :=
| CChar (c : ascii)
| CRange (lo hi : ascii)
| CWord (neg : bool)
| CSpace (neg : bool)
| CDigit (neg : bool).

Inductive Re :=
| Empty
| Char (c : ascii)
| Any
| Class (neg : bool) (items : list ClassItem)
| Bol
| Eol
| WordB (neg : bool)
| Seq (a b : Re)
| Alt (a b : Re)
| Rep (min : nat) (max : option nat) (greedy : bool) (r : Re)
| Group (n : nat) (r : Re)
| Look (neg : bool) (r : Re).

(** A compiled expression: its source, whether the [i] flag is set, the
    tree and the number of capture groups. *)
Record t := mk {
  source : string;
  ignoreCase : bool;
  tree : Re;
  groups : nat
}.

(** ** Matching *)

(** The outcome of a match attempt; [OutOfFuel] is kept apart from
    [NoMatch] so that a bounded search never passes for a failure. *)
Inductive Outcome (A : Type) :=
| Matched (a : A)
| NoMatch
| OutOfFuel.

Arguments Matched {A}.
Arguments NoMatch {A}.
Arguments OutOfFuel {A}.

(** Captures: for each group that took part, where it started and ended. *)
Definition Captures := list (nat * (nat * nat)).

Definition capture (n : nat) (caps : Captures) : option (nat * nat) :=
  match List.find (fun p => Nat.eqb (fst p) n) caps with
  | Some p => Some (snd p)
  | None => None
  end.

Definition set_capture (n start stop : nat) (caps : Captures) : Captures :=
  (n, (start, stop)) :: List.filter (fun p => negb (Nat.eqb (fst p) n)) caps.

Definition clear_captures (ns : list nat) (caps : Captures) : Captures :=
  List.filter (fun p => negb (existsb (Nat.eqb (fst p)) ns)) caps.

(** The groups inside a tree, cleared at each turn of a quantifier. *)
Fixpoint groups_of (r : Re) : list nat :=
  match r with
  | Seq a b | Alt a b => groups_of a ++ groups_of b
  | Rep _ _ _ r | Look _ r => groups_of r
  | Group n r => n :: groups_of r
  | _ => []
  end.

Definition class_item (c : ascii) (it : ClassItem) : bool :=
  match it with
  | CChar d => Ascii.eqb c d
  | CRange lo hi => between lo hi c
  | CWord neg => xorb neg (is_word c)
  | CSpace neg => xorb neg (is_space c)
  | CDigit neg => xorb neg (is_digit c)
  end.

(** Lower-case form of an upper-case letter: the other character with the
    same case folding. *)
Definition uncanonicalize (c : ascii) : ascii :=
  if between "A" "Z" c then ascii_of_N (code c + 32)
  else if between "192" "222" c && negb (Ascii.eqb c "215")
       then ascii_of_N (code c + 32)
  else c.

(** Membership in a class: with the [i] flag a character is a member when
    some member has the same case folding. *)
Definition in_class (i : bool) (items : list ClassItem) (c : ascii) : bool :=
  existsb (class_item c) items ||
  (i && (existsb (class_item (canonicalize c)) items ||
         existsb (class_item (uncanonicalize c)) items)).

Definition same_char (i : bool) (a b : ascii) : bool :=
  if i then Ascii.eqb (canonicalize a) (canonicalize b) else Ascii.eqb a b.

Section Matcher.

(** The input, as the list of its characters, and the [i] flag. *)
Variable input : list ascii.
Variable i : bool.

Definition at_pos (p : nat) : option ascii := nth_error input p.

Definition word_at (p : nat) : bool :=
  match at_pos p with
  | Some c => is_word c
  | None => false
  end.

(** [\b]: exactly one of the characters before and after is a word character. *)
Definition at_boundary (p : nat) : bool :=
  xorb (match p with 0 => false | S q => word_at q end) (word_at p).

Definition Result := Outcome (nat * Captures).
Definition Cont := nat -> Captures -> Result.

Definition or_else (a : Result) (b : unit -> Result) : Result :=
  match a with
  | NoMatch => b tt
  | _ => a
  end.

Definition one_char (ok : ascii -> bool) (p : nat) (caps : Captures) (k : Cont) : Result :=
  match at_pos p with
  | Some c => if ok c then k (S p) caps else NoMatch
  | None => NoMatch
  end.

(** The matcher of a tree at position [p] with continuation [k]. *)
Fixpoint m (r : Re) (p : nat) (caps : Captures) (k : Cont) {struct r} : Result :=
  match r with
  | Empty => k p caps
  | Char c => one_char (same_char i c) p caps k
  | Any => one_char (fun c => negb (is_line_terminator c)) p caps k
  | Class neg items => one_char (fun c => xorb neg (in_class i items c)) p caps k
  | Bol => if Nat.eqb p 0 then k p caps else NoMatch
  | Eol => if Nat.eqb p (length input) then k p caps else NoMatch
  | WordB neg => if xorb neg (at_boundary p) then k p caps else NoMatch
  | Seq a b => m a p caps (fun p' caps' => m b p' caps' k)
  | Alt a b => or_else (m a p caps k) (fun _ => m b p caps k)
  | Group n r => m r p caps (fun p' caps' => k p' (set_capture n p p' caps'))
  | Look neg r =>
      match m r p caps (fun p' caps' => Matched (p', caps')) with
      | Matched (_, caps') => if neg then NoMatch else k p caps'
      | NoMatch => if neg then k p caps else NoMatch
      | OutOfFuel => OutOfFuel
      end
  | Rep min max greedy r =>
      let inner := groups_of r in
      (fix repeat (fuel min : nat) (max : option nat) (p : nat) (caps : Captures)
         {struct fuel} : Result :=
         match fuel with
         | 0 => OutOfFuel
         | S fuel' =>
             match max with
             | Some 0 => k p caps
             | _ =>
                 let again := fun (_ : unit) =>
                   m r p (clear_captures inner caps)
                     (fun p' caps' =>
                        if Nat.eqb min 0 && Nat.eqb p' p then NoMatch
                        else repeat fuel' (Nat.pred min) (option_map Nat.pred max) p' caps') in
                 if negb (Nat.eqb min 0) then again tt
                 else if greedy then or_else (again tt) (fun _ => k p caps)
                 else or_else (k p caps) again
             end
         end) (min + length input + 1) min max p caps
  end.

(** The first match, trying each start position from the left. *)
Fixpoint search (tree : Re) (starts : list nat) : Outcome (nat * nat * Captures) :=
  match starts with
  | [] => NoMatch
  | p :: rest =>
      match m tree p [] (fun p' caps => Matched (p', caps)) with
      | Matched (p', caps) => Matched (p, p', caps)
      | NoMatch => search tree rest
      | OutOfFuel => OutOfFuel
      end
  end.

Definition slice (start stop : nat) : string :=
  string_of_list_ascii (firstn (stop - start) (skipn start input)).

End Matcher.

(** The array returned by [str.match(re)] for an expression without the [g]
    flag: the matched text, then the text of each group or [undefined];
    [None] is [null]. *)
Definition match_ (re : t) (str : string) : Outcome (option (list (option string))) :=
  let input := list_ascii_of_string str in
  match search input (ignoreCase re) (tree re) (seq 0 (S (length input))) with
  | Matched (start, stop, caps) =>
      Matched (Some (Some (slice input start stop) ::
                     map (fun n => match capture n caps with
                                   | Some (a, b) => Some (slice input a b)
                                   | None => None
                                   end) (seq 1 (groups re))))
  | NoMatch => Matched None
  | OutOfFuel => OutOfFuel
  end.

(** ** Parsing pattern strings *)

(** Characters with a meaning of their own in a pattern. *)
Definition is_syntax_char (c : ascii) : bool :=
  existsb (Ascii.eqb c)
    ["^"; "$"; "\"; "."; "*"; "+"; "?"; "("; ")"; "["; "]"; "{"; "}"; "|"].

(** What follows a backslash: a class, an assertion, or the character
    itself when it is not a letter or a digit.  Other escapes are outside
    the fragment. *)
Inductive Escape :=
| EClass (it : ClassItem)
| EWordB (neg : bool)
| EChar (c : ascii).

Definition escape_of (c : ascii) : option Escape :=
  if Ascii.eqb c "w" then Some (EClass (CWord false))
  else if Ascii.eqb c "W" then Some (EClass (CWord true))
  else if Ascii.eqb c "s" then Some (EClass (CSpace false))
  else if Ascii.eqb c "S" then Some (EClass (CSpace true))
  else if Ascii.eqb c "d" then Some (EClass (CDigit false))
  else if Ascii.eqb c "D" then Some (EClass (CDigit true))
  else if Ascii.eqb c "b" then Some (EWordB false)
  else if Ascii.eqb c "B" then Some (EWordB true)
  else if Ascii.eqb c "t" then Some (EChar "009")
  else if Ascii.eqb c "n" then Some (EChar "010")
  else if Ascii.eqb c "r" then Some (EChar "013")
  else if is_word c then None
  else Some (EChar c).

Definition cons_item (it : ClassItem) (r : option (list ClassItem * string))
  : option (list ClassItem * string) :=
  match r with
  | Some (items, rest) => Some (it :: items, rest)
  | None => None
  end.

(** The items of a character class, up to the closing bracket. *)
Fixpoint parse_class (s : string) : option (list ClassItem * string) :=
  match s with
  | EmptyString => None
  | String c rest =>
      if Ascii.eqb c "]" then Some ([], rest)
      else if Ascii.eqb c "\" then
        match rest with
        | String e rest' =>
            match escape_of e with
            | Some (EClass it) => cons_item it (parse_class rest')
            | Some (EChar d) => cons_item (CChar d) (parse_class rest')
            | _ => None
            end
        | EmptyString => None
        end
      else
        match rest with
        | String d (String hi rest') =>
            if Ascii.eqb d "-" && negb (Ascii.eqb hi "]") then
              if Ascii.eqb hi "\" || (code hi <? code c)%N then None
              else cons_item (CRange c hi) (parse_class rest')
            else cons_item (CChar c) (parse_class rest)
        | _ => cons_item (CChar c) (parse_class rest)
        end
  end.

Fixpoint parse_digits (s : string) (acc : nat) : nat * string :=
  match s with
  | String c rest =>
      if is_digit c then parse_digits rest (10 * acc + (N.to_nat (code c) - 48))
      else (acc, s)
  | EmptyString => (acc, s)
  end.

Definition starts_with_digit (s : string) : bool :=
  match s with
  | String c _ => is_digit c
  | EmptyString => false
  end.

(** [strip p s]: what is left of [s] after its prefix [p]. *)
Fixpoint strip (p s : string) : option string :=
  match p, s with
  | EmptyString, _ => Some s
  | String a p', String b s' => if Ascii.eqb a b then strip p' s' else None
  | _, EmptyString => None
  end.

(** A braced quantifier, after its opening brace. *)
Definition parse_braces (s : string) : option (nat * option nat * string) :=
  if starts_with_digit s then
    let (lo, s1) := parse_digits s 0 in
    match strip "}" s1, strip ",}" s1, strip "," s1 with
    | Some rest, _, _ => Some (lo, Some lo, rest)
    | None, Some rest, _ => Some (lo, None, rest)
    | None, None, Some s2 =>
        if starts_with_digit s2 then
          let (hi, s3) := parse_digits s2 0 in
          match strip "}" s3 with
          | Some rest => if Nat.ltb hi lo then None else Some (lo, Some hi, rest)
          | None => None
          end
        else None
    | None, None, None => None
    end
  else None.

(** A quantifier followed by [?] is lazy. *)
Definition lazy_mark (s : string) : bool * string :=
  match strip "?" s with
  | Some rest => (false, rest)
  | None => (true, s)
  end.

(** The quantifier that may follow an atom. *)
Definition parse_quantifier (atom : Re) (s : string) : option (Re * string) :=
  match s with
  | EmptyString => Some (atom, s)
  | String c rest =>
      if Ascii.eqb c "*" then
        let (g, rest') := lazy_mark rest in Some (Rep 0 None g atom, rest')
      else if Ascii.eqb c "+" then
        let (g, rest') := lazy_mark rest in Some (Rep 1 None g atom, rest')
      else if Ascii.eqb c "?" then
        let (g, rest') := lazy_mark rest in Some (Rep 0 (Some 1) g atom, rest')
      else if Ascii.eqb c "{" then
        match parse_braces rest with
        | Some (lo, hi, rest') =>
            let (g, rest'') := lazy_mark rest' in Some (Rep lo hi g atom, rest'')
        | None => None
        end
      else Some (atom, s)
  end.

Definition expect_close (r : option (Re * string * nat))
  : option (Re * string * nat) :=
  match r with
  | Some (d, s, n) =>
      match strip ")" s with
      | Some rest => Some (d, rest, n)
      | None => None
      end
  | None => None
  end.

Definition quantified (r : option (Re * string * nat)) : option (Re * string * nat) :=
  match r with
  | Some (atom, rest, n) =>
      match parse_quantifier atom rest with
      | Some (q, rest') => Some (q, rest', n)
      | None => None
      end
  | None => None
  end.

Definition wrap (f : Re -> Re) (r : option (Re * string * nat))
  : option (Re * string * nat) :=
  match r with
  | Some (d, rest, n) => Some (f d, rest, n)
  | None => None
  end.

(** Disjunctions, alternatives and terms; [n] counts the capture groups
    opened so far.  [None]: the pattern is outside the fragment, or not a
    pattern at all. *)
Fixpoint parse_disjunction (fuel : nat) (s : string) (n : nat) {struct fuel}
  : option (Re * string * nat) :=
  match fuel with
  | 0 => None
  | S fuel' =>
      match parse_alternative fuel' s n with
      | Some (a, rest, n') =>
          match strip "|" rest with
          | Some rest' => wrap (Alt a) (parse_disjunction fuel' rest' n')
          | None => Some (a, rest, n')
          end
      | None => None
      end
  end
with parse_alternative (fuel : nat) (s : string) (n : nat) {struct fuel}
  : option (Re * string * nat) :=
  match fuel with
  | 0 => None
  | S fuel' =>
      match s with
      | EmptyString => Some (Empty, s, n)
      | String c _ =>
          if Ascii.eqb c "|" || Ascii.eqb c ")" then Some (Empty, s, n)
          else
            match parse_term fuel' s n with
            | Some (t, rest, n') =>
                match parse_alternative fuel' rest n' with
                | Some (Empty, rest', n'') => Some (t, rest', n'')
                | Some (a, rest', n'') => Some (Seq t a, rest', n'')
                | None => None
                end
            | None => None
            end
      end
  end
with parse_term (fuel : nat) (s : string) (n : nat) {struct fuel}
  : option (Re * string * nat) :=
  match fuel with
  | 0 => None
  | S fuel' =>
      match s with
      | EmptyString => None
      | String c rest =>
          if Ascii.eqb c "^" then Some (Bol, rest, n)
          else if Ascii.eqb c "$" then Some (Eol, rest, n)
          else if Ascii.eqb c "." then quantified (Some (Any, rest, n))
          else if Ascii.eqb c "(" then
            match strip "?:" rest, strip "?=" rest, strip "?!" rest, strip "?" rest with
            | Some inner, _, _, _ =>
                quantified (expect_close (parse_disjunction fuel' inner n))
            | None, Some inner, _, _ =>
                wrap (Look false) (expect_close (parse_disjunction fuel' inner n))
            | None, None, Some inner, _ =>
                wrap (Look true) (expect_close (parse_disjunction fuel' inner n))
            | None, None, None, Some _ => None
            | None, None, None, None =>
                quantified
                  (wrap (Group (S n)) (expect_close (parse_disjunction fuel' rest (S n))))
            end
          else if Ascii.eqb c "[" then
            match strip "^" rest with
            | Some inner =>
                match parse_class inner with
                | Some (items, rest') => quantified (Some (Class true items, rest', n))
                | None => None
                end
            | None =>
                match parse_class rest with
                | Some (items, rest') => quantified (Some (Class false items, rest', n))
                | None => None
                end
            end
          else if Ascii.eqb c "\" then
            match rest with
            | String e rest' =>
                match escape_of e with
                | Some (EClass it) => quantified (Some (Class false [it], rest', n))
                | Some (EWordB neg) => Some (WordB neg, rest', n)
                | Some (EChar d) => quantified (Some (Char d, rest', n))
                | None => None
                end
            | EmptyString => None
            end
          else if is_syntax_char c then None
          else quantified (Some (Char c, rest, n))
      end
  end.

(** [new RegExp(source, flags)], for the flags [''] and ['i']. *)
Definition compile (source flags : string) : option t :=
  match parse_disjunction (3 * String.length source + 3) source 0 with
  | Some (tree, rest, n) =>
      if negb (String.eqb rest "") then None
      else if String.eqb flags "" then Some (mk source false tree n)
      else if String.eqb flags "i" then Some (mk source true tree n)
      else None
  | None => None
  end.

(** An expression written as a literal in the source. *)
Definition literal (source flags : string) : t :=
  match compile source flags with
  | Some re => re
  | None => mk source false Empty 0
  end.

(** ** Global matching and replacement *)

(** All the matches of an expression with the [g] flag, left to right; after
    an empty match the search resumes one character further. *)
Fixpoint match_all (fuel : nat) (re : t) (input : list ascii) (from : nat)
  : Outcome (list (nat * nat * Captures)) :=
  match fuel with
  | 0 => OutOfFuel
  | S fuel' =>
      if length input <? from then Matched []
      else
        match search input (ignoreCase re) (tree re)
                (seq from (S (length input) - from)) with
        | Matched (start, stop, caps) =>
            match match_all fuel' re input (if stop =? start then S stop else stop) with
            | Matched l => Matched ((start, stop, caps) :: l)
            | NoMatch => NoMatch
            | OutOfFuel => OutOfFuel
            end
        | NoMatch => Matched []
        | OutOfFuel => OutOfFuel
        end
  end%nat.

(** [str.match(re)] for an expression with the [g] flag: the matched texts,
    or [null] when there is none. *)
Definition match_g (re : t) (str : string) : Outcome (option (list string)) :=
  let input := list_ascii_of_string str in
  match match_all (length input + 2) re input 0 with
  | Matched [] => Matched None
  | Matched l => Matched (Some (map (fun x => slice input (fst (fst x)) (snd (fst x))) l))
  | NoMatch => NoMatch
  | OutOfFuel => OutOfFuel
  end.

(** The text between the matches, each match replaced by [f] of it. *)
Fixpoint rebuild (input : list ascii) (f : string -> string) (pos : nat)
    (l : list (nat * nat * Captures)) : string :=
  match l with
  | [] => slice input pos (length input)
  | (start, stop, _) :: rest =>
      (slice input pos start ++ f (slice input start stop)
       ++ rebuild input f stop rest)%string
  end.

(** [str.replace(re, f)] for an expression with the [g] flag. *)
Definition replace_g (re : t) (f : string -> string) (str : string) : Outcome string :=
  let input := list_ascii_of_string str in
  match match_all (length input + 2) re input 0 with
  | Matched l => Matched (rebuild input f 0 l)
  | NoMatch => NoMatch
  | OutOfFuel => OutOfFuel
  end.

End RegExp.


(* ===================================================================== *)
(** * lib/condition.ts *)
(* ===================================================================== *)

Module Condition.

(** Results of the functions of this file: a value, an exception, or
    [Beyond] when a pattern leaves the fragment of [RegExp] modelled above
    (the model then says nothing). *)
Inductive Res (A : Type) :=
| Ok (a : A)
| Throw (msg : string)
| Beyond.

Arguments Ok {A}.
Arguments Throw {A}.
Arguments Beyond {A}.

Definition bind {A B : Type} (r : Res A) (f : A -> Res B) : Res B :=
  match r with
  | Ok a => f a
  | Throw msg => Throw msg
  | Beyond => Beyond
  end.

Local Notation "'letR' x := r 'in' k" := (bind r (fun x => k))
  (at level 10, x name, r at level 100, k at level 200).

Definition of_outcome {A : Type} (o : RegExp.Outcome A) : Res A :=
  match o with
  | RegExp.Matched a => Ok a
  | _ => Beyond
  end.

Fixpoint traverse {A B : Type} (f : A -> Res B) (l : list A) : Res (list B) :=
  match l with
  | [] => Ok []
  | a :: rest => letR b := f a in letR bs := traverse f rest in Ok (b :: bs)
  end.

(** ** Strings *)

(** [l.join(sep)] *)
Fixpoint join (sep : string) (l : list string) : string :=
  match l with
  | [] => ""
  | [x] => x
  | x :: rest => x ++ sep ++ join sep rest
  end.

(** [hay.replace(needle, by)] with a string [needle]: the first occurrence. *)
Fixpoint replace_first (needle by_ hay : string) : string :=
  match RegExp.strip needle hay with
  | Some rest => by_ ++ rest
  | None =>
      match hay with
      | EmptyString => EmptyString
      | String c rest => String c (replace_first needle by_ rest)
      end
  end.

(** [hay.indexOf(needle) === 0] *)
Definition starts_with (needle hay : string) : bool :=
  match RegExp.strip needle hay with
  | Some _ => true
  | None => false
  end.

(** [value.split('-')[0]] and [value.split('-')[1]] *)
Fixpoint before_dash (s : string) : string * option string :=
  match s with
  | EmptyString => (EmptyString, None)
  | String c rest =>
      if Ascii.eqb c "-" then (EmptyString, Some rest)
      else let (a, b) := before_dash rest in (String c a, b)
  end.

Definition split_dash (s : string) : string * option string :=
  match before_dash s with
  | (lo, Some rest) => (lo, Some (fst (before_dash rest)))
  | (lo, None) => (lo, None)
  end.

(** Decimal writing of a number, for the keys given by [add]. *)
Fixpoint digits (fuel n : nat) (acc : string) : string :=
  match fuel with
  | 0 => acc
  | S fuel' =>
      let acc' := String (ascii_of_nat (48 + n mod 10)) acc in
      if n / 10 =? 0 then acc' else digits fuel' (n / 10) acc'
  end%nat.

Definition to_string (n : nat) : string := digits (S n) n "".

(** ** Conditions *)

(** The keys of [ConditionKey]; [is_] stands for [is]. *)
Inductive ConditionKey :=
| is_ | starts | ends | contains | excludes | after | before | range.

(** [string | string[]] *)
Inductive Values :=
| One (v : string)
| Many (vs : list string).

(** A condition: its keys in the order they were written, with their values. *)
Definition Condition := list (ConditionKey * Values).

(** [IConditionOptions], each option possibly absent. *)
Record IConditionOptions := mkOptions {
  matchWord : option bool;
  ignoreCase : option bool;
  ignorePunctuation : option bool
}.

Definition _defaults : IConditionOptions :=
  mkOptions (Some true) (Some true) (Some false).

Definition no_options : IConditionOptions := mkOptions None None None.

Definition or_default (a d : option bool) : option bool :=
  match a with
  | Some _ => a
  | None => d
  end.

(** [Object.assign({}, _defaults, options)] *)
Definition with_defaults (options : IConditionOptions) : IConditionOptions :=
  mkOptions (or_default (matchWord options) (matchWord _defaults))
            (or_default (ignoreCase options) (ignoreCase _defaults))
            (or_default (ignorePunctuation options) (ignorePunctuation _defaults)).

Definition truthy (b : option bool) : bool :=
  match b with
  | Some true => true
  | _ => false
  end.

(** The expressions written as literals in the file. *)
Definition re_special : RegExp.t :=
  RegExp.literal "[\-\[\]\/\{\}\(\)\*\+\?\.\\\^\$\|]" "".

Definition re_punctuation : RegExp.t := RegExp.literal "([^\\\w\s])" "".

Definition re_groups : RegExp.t := RegExp.literal "(\(.+?\))" "".

Definition re_slashes : RegExp.t := RegExp.literal "^/(.+)/(.*)$" "".

Definition re_trim : RegExp.t :=
  RegExp.literal "(^[\,\-\:\s]*)|([\,\-\:\s]*$)" "".

Section Expression.

(** [rangeRegex] of the package [to-regex-range], which the file imports. *)
Variable rangeRegex : string -> option string -> string.

(** [new RegExp(source, flags)] *)
Definition new_RegExp (source flags : string) : Res RegExp.t :=
  match RegExp.compile source flags with
  | Some re => Ok re
  | None => Beyond
  end.

(** [fromString (str)] *)
Definition fromString (str : string) : Res RegExp.t :=
  letR m := of_outcome (RegExp.match_ re_slashes str) in
  match m with
  | Some [_; Some pattern; Some flags] => new_RegExp pattern flags
  | _ => Throw ("[expression] " ++ str ++ " can not convert to expression")
  end.

(** [escape (str)] *)
Definition escape (str : string) : Res string :=
  of_outcome (RegExp.replace_g re_special (fun m => "\" ++ m) str).

(** The pattern pushed for one key of the condition. *)
Definition pattern_of (type : ConditionKey) (value b p : string) : string :=
  match type with
  | is_ => "^(" ++ value ++ ")$"
  | starts => "^(?:" ++ value ++ ")" ++ b
  | ends => b ++ "(?:" ++ value ++ ")$"
  | contains => b ++ "(" ++ value ++ ")" ++ b
  | excludes => "^((?!" ++ b ++ value ++ b ++ ").)*$"
  | after => "(?:" ++ value ++ "\s?)([\w\-\s" ++ p ++ "]+)"
  | before => "([\w\-\s" ++ p ++ "]+)(?:\s?" ++ value ++ ")"
  | range =>
      let (lo, hi) := split_dash value in
      b ++ "(" ++ rangeRegex lo hi ++ ")" ++ b
  end.

(** The body of the first loop of [fromCondition], for one key. *)
Definition key_pattern (config : IConditionOptions) (b p : string)
    (entry : ConditionKey * Values) : Res string :=
  let type := fst entry in
  let value := match snd entry with One v => [v] | Many vs => vs end in
  letR value := traverse (fun v => match type with
                              | range => Ok v
                              | _ => escape v
                              end) value in
  letR value := (if truthy (ignorePunctuation config)
            then traverse (fun v => of_outcome
                             (RegExp.replace_g re_punctuation (fun m => m ++ "+") v))
                          value
            else Ok value) in
  Ok (pattern_of type (join "|" value) b p).

(** The second loop of [fromCondition]: every pattern but the last loses the
    group that the next pattern starts with, then is reduced to its groups,
    made non-capturing.  An empty next pattern ends the loop. *)
Fixpoint combine (patterns : list string) : Res (list string) :=
  match patterns with
  | cur :: rest =>
      match rest with
      | [] => Ok patterns
      | next :: _ =>
          if String.eqb next "" then Ok patterns
          else
            letR groups := of_outcome (RegExp.match_g re_groups cur) in
            let cur1 :=
              match groups with
              | Some (_ :: g1 :: _) =>
                  if negb (String.eqb g1 "") && starts_with g1 next
                  then replace_first g1 "" cur
                  else cur
              | _ => cur
              end in
            letR newGroups := of_outcome (RegExp.match_g re_groups cur1) in
            let cur2 :=
              match newGroups with
              | Some gs =>
                  join "" (map (fun group =>
                                  if negb (starts_with "(?" group)
                                  then replace_first "(" "(?:" group
                                  else group) gs)
              | None => cur1
              end in
            letR rest' := combine rest in
            Ok (cur2 :: rest')
      end
  | [] => Ok []
  end.

(** [fromCondition (condition, options = _defaults)] *)
Definition fromCondition (condition : Condition) (options : IConditionOptions)
  : Res RegExp.t :=
  let config := with_defaults options in
  let b := if truthy (matchWord config) then "\b" else "" in
  let i := if truthy (ignoreCase config) then "i" else "" in
  let p := if truthy (ignorePunctuation config)
           then "\,\-\:\[\]\/\(\)\+\?\.\'\$"
           else "\,\-\:" in
  letR patterns := traverse (key_pattern config b p) condition in
  letR patterns := combine patterns in
  match patterns with
  | [] => new_RegExp ".*" i
  | _ => new_RegExp (join "" patterns) i
  end.

(** ** The Conditions class *)

(** An object used as a dictionary.  Its keys come out in the order of the
    language: the keys that are array indices first, ascending, then the
    others in the order they were added. *)
Definition Dict (A : Type) := list (string * A).

(** The number written by a key that is an array index. *)
Fixpoint index_value (s : string) (acc : nat) : option nat :=
  match s with
  | EmptyString => Some acc
  | String c rest =>
      if RegExp.is_digit c
      then index_value rest (10 * acc + (nat_of_ascii c - 48))
      else None
  end.

Definition array_index (key : string) : option nat :=
  match key with
  | EmptyString => None
  | String c rest =>
      if Ascii.eqb c "0" && negb (String.eqb rest "") then None
      else index_value key 0
  end.

Fixpoint dict_get {A : Type} (key : string) (d : Dict A) : option A :=
  match d with
  | [] => None
  | (k, v) :: rest => if String.eqb k key then Some v else dict_get key rest
  end.

(** Where a new key goes: before the first key that is no array index, or
    an array index greater than it. *)
Fixpoint dict_insert {A : Type} (key : string) (v : A) (d : Dict A) : Dict A :=
  match d with
  | [] => [(key, v)]
  | (k, w) :: rest =>
      let here :=
        match array_index key, array_index k with
        | Some n, Some m => Nat.ltb n m
        | Some _, None => true
        | None, _ => false
        end in
      if here then (key, v) :: d else (k, w) :: dict_insert key v rest
  end.

Fixpoint dict_replace {A : Type} (key : string) (v : A) (d : Dict A) : Dict A :=
  match d with
  | [] => []
  | (k, w) :: rest =>
      if String.eqb k key then (k, v) :: rest else (k, w) :: dict_replace key v rest
  end.

(** [d[key] = v] *)
Definition dict_set {A : Type} (key : string) (v : A) (d : Dict A) : Dict A :=
  match dict_get key d with
  | Some _ => dict_replace key v d
  | None => dict_insert key v d
  end.

(** [Object.keys(d)] *)
Definition keys {A : Type} (d : Dict A) : list string := map fst d.

(** The array given by [str.match]; [None] is [null]. *)
Definition Match := option (list (option string)).

Record Conditions := mkConditions {
  config : IConditionOptions;
  expressions : Dict RegExp.t;
  matches : Dict Match;
  captures : Dict (option string)
}.

(** What the constructor and [add] accept. *)
Inductive Input :=
| IString (s : string)
| IRegExp (re : RegExp.t)
| ICondition (c : Condition)
| IList (cs : list Condition)
| ICollection (cs : Dict Condition).

(** The key given to [add]: none, a name, or a number. *)
Inductive Key :=
| NoKey
| Name (s : string)
| Number (n : nat).

(** [add (condition, key?)]: [if (!key) key = Object.keys(this.expressions).length] *)
Definition add (condition : Input) (key : Key) (c : Conditions) : Res Conditions :=
  let key := match key with
             | Name EmptyString | NoKey | Number 0 =>
                 to_string (length (keys (expressions c)))
             | Name s => s
             | Number n => to_string n
             end in
  letR re := match condition with
             | IRegExp re => Ok re
             | IString s => fromString s
             | ICondition cond => fromCondition cond (config c)
             | _ => Throw "TypeError"
             end in
  Ok (mkConditions (config c) (dict_set key re (expressions c)) (matches c) (captures c)).

Fixpoint add_all (cs : list Condition) (c : Conditions) : Res Conditions :=
  match cs with
  | [] => Ok c
  | cond :: rest => letR c' := add (ICondition cond) NoKey c in add_all rest c'
  end.

Fixpoint add_named (cs : Dict Condition) (c : Conditions) : Res Conditions :=
  match cs with
  | [] => Ok c
  | (key, cond) :: rest => letR c' := add (ICondition cond) (Name key) c in add_named rest c'
  end.

(** [isCondition (c)] on a condition: it has a key (its keys are condition
    keys by their type). *)
Definition isCondition (c : Condition) : bool :=
  negb (Nat.eqb (length c) 0).

(** [isConditionCollection (c)] *)
Definition isConditionCollection (cs : Dict Condition) : bool :=
  negb (Nat.eqb (length cs) 0) && forallb (fun kv => isCondition (snd kv)) cs.

(** The names of the condition keys: a collection all of whose names are
    among them passes [isCondition]. *)
Definition validKeys : list string :=
  ["is"; "starts"; "ends"; "contains"; "excludes"; "after"; "before"; "range"].

(** [new Conditions(condition?, options = {})] *)
Definition new (condition : option Input) (options : IConditionOptions)
  : Res Conditions :=
  let c := mkConditions (with_defaults options) [] [] [] in
  match condition with
  | None => Ok c
  | Some (IString EmptyString) => Ok c
  | Some (IString s) => add (IString s) NoKey c
  | Some (IRegExp re) => add (IRegExp re) NoKey c
  | Some (ICondition cond) => if isCondition cond then add (ICondition cond) NoKey c else Ok c
  | Some (IList cs) => add_all cs c
  | Some (ICollection cs) =>
      if negb (Nat.eqb (length cs) 0)
         && forallb (fun kv => existsb (String.eqb (fst kv)) validKeys) cs
      then Throw "TypeError"
      else if isConditionCollection cs then add_named cs c
      else Ok c
  end.

(** The [replace] applied to [match[1]] in [exec], with the expression
    [re_trim]: commas, hyphens, colons and blanks at both ends go. *)
Definition trim (s : string) : Res string :=
  of_outcome (RegExp.replace_g re_trim (fun _ => "") s).

(** The body of the loop of [exec] for one key. *)
Definition exec_one (str : string) (c : Conditions) (entry : string * RegExp.t)
  : Res Conditions :=
  let (key, re) := entry in
  letR m := of_outcome (RegExp.match_ re str) in
  letR captured := match m with
                   | Some (_ :: Some g1 :: _) => letR s := trim g1 in Ok (Some s)
                   | _ => Ok None
                   end in
  Ok (mkConditions (config c) (expressions c)
        (dict_set key m (matches c)) (dict_set key captured (captures c))).

Fixpoint exec_loop (str : string) (es : Dict RegExp.t) (c : Conditions)
  : Res Conditions :=
  match es with
  | [] => Ok c
  | entry :: rest => letR c' := exec_one str c entry in exec_loop str rest c'
  end.

(** [exec (str)]: the instance after the call; the call returns its
    [matches]. *)
Definition exec (str : string) (c : Conditions) : Res Conditions :=
  exec_loop str (expressions c) c.

(** [get success ()] *)
Definition success (c : Conditions) : bool :=
  forallb (fun key => match dict_get key (matches c) with
                      | Some (Some _) => true
                      | _ => false
                      end) (keys (matches c)).

(** [isNaN(parseInt(key, 10))]: after blanks and a sign, no digit. *)
Fixpoint parseInt_isNaN (fuel : nat) (key : string) (signed : bool) : bool :=
  match fuel, key with
  | S fuel', String c rest =>
      if RegExp.is_digit c then false
      else if negb signed && RegExp.is_space c then parseInt_isNaN fuel' rest false
      else if negb signed && (Ascii.eqb c "+" || Ascii.eqb c "-")
           then parseInt_isNaN fuel' rest true
      else true
  | _, _ => true
  end.

Definition named (key : string) : bool :=
  parseInt_isNaN (S (String.length key)) key false.

(** What the getters [matched] and [captured] give: the whole dictionary,
    or the value of the only key. *)
Inductive OneOrAll (A : Type) :=
| All (d : Dict A)
| Single (v : A)
| Undefined.

Arguments All {A}.
Arguments Single {A}.
Arguments Undefined {A}.

(** [get match ()]: the success of all matches, or the only match. *)
Definition match_ (c : Conditions) : bool + Match :=
  match keys (matches c) with
  | _ :: _ :: _ => inl (success c)
  | [key] => inr (match dict_get key (matches c) with Some m => m | None => None end)
  | [] => inr None
  end.

(** [get matched ()] *)
Definition matched (c : Conditions) : OneOrAll Match :=
  let matchKeys := keys (matches c) in
  if Nat.ltb 1 (length matchKeys) || existsb named matchKeys then All (matches c)
  else match matchKeys with
       | [key] => match dict_get key (matches c) with
                  | Some m => Single m
                  | None => Undefined
                  end
       | _ => Undefined
       end.

(** [get captured ()]; a capture that is [undefined] is [Single None]. *)
Definition captured (c : Conditions) : OneOrAll (option string) :=
  let matchKeys := keys (matches c) in
  if Nat.ltb 1 (length matchKeys) || existsb named matchKeys then All (captures c)
  else match matchKeys with
       | [key] => match dict_get key (captures c) with
                  | Some v => Single v
                  | None => Undefined
                  end
       | _ => Undefined
       end.

(** [clear ()] *)
Definition clear (c : Conditions) : Conditions :=
  mkConditions (config c) (expressions c) [] [].

(** [clearAll ()] *)
Definition clearAll (c : Conditions) : Conditions :=
  mkConditions (config c) [] [] [].

(** What a caller sees of [new Conditions(condition, options)] followed by
    [exec(str)]: the getters [success] and [captured]. *)
Definition observe (condition : Input) (options : IConditionOptions) (str : string)
  : Res (bool * OneOrAll (option string)) :=
  letR c := new (Some condition) options in
  letR c' := exec str c in
  Ok (success c', captured c').

(** The source of the expression compiled for a condition. *)
Definition compiled (condition : Condition) (options : IConditionOptions)
  : Res string :=
  letR re := fromCondition condition options in Ok (RegExp.source re).

End Expression.

Arguments All {A}.
Arguments Single {A}.
Arguments Undefined {A}.

End Condition.

(* ===================================================================== *)
(** * Properties of lib/condition.ts *)
(* ===================================================================== *)

Module ConditionProps.
Import Condition.

(** A stand-in for the imported [rangeRegex], which no condition here uses. *)
Definition no_range (lo : string) (hi : option string) : string := "".

(** The matcher on the examples of the language definition. *)
Example backtracking_example :
  RegExp.match_ (RegExp.literal "(z)((a+)?(b+)?(c))*" "") "zaacbbbcac"
  = RegExp.Matched
      (Some [Some "zaacbbbcac"; Some "z"; Some "ac"; Some "a"; None; Some "c"]).
Proof. vm_compute. reflexivity. Qed.

Example alternation_example :
  RegExp.match_ (RegExp.literal "(a|ab)(c|bcd)(d*)" "") "abcd"
  = RegExp.Matched (Some [Some "abcd"; Some "a"; Some "bcd"; Some ""]).
Proof. vm_compute. reflexivity. Qed.

Example escape_example (rangeRegex : string -> option string -> string) :
  escape "a.b-c (d)" = Ok "a\.b\-c \(d\)".
Proof. vm_compute. reflexivity. Qed.

(** The expressions written as literals in the file are within the
    fragment. *)
Example literals_compile :
  RegExp.compile "[\-\[\]\/\{\}\(\)\*\+\?\.\\\^\$\|]" "" = Some re_special /\
  RegExp.compile "([^\\\w\s])" "" = Some re_punctuation /\
  RegExp.compile "(\(.+?\))" "" = Some re_groups /\
  RegExp.compile "^/(.+)/(.*)$" "" = Some re_slashes /\
  RegExp.compile "(^[\,\-\:\s]*)|([\,\-\:\s]*$)" "" = Some re_trim.
Proof. repeat split; vm_compute; reflexivity. Qed.

(** The groups found in the pattern of [starts], and the patterns of the
    scenario before and after they are combined. *)
Example groups_of_starts :
  RegExp.match_g re_groups "^(?:set)\b" = RegExp.Matched (Some ["(?:set)"]).
Proof. vm_compute. reflexivity. Qed.

Example patterns_of_scenario :
  pattern_of no_range starts "set" "\b" "\,\-\:" = "^(?:set)\b" /\
  pattern_of no_range after "set" "\b" "\,\-\:" = "(?:set\s?)([\w\-\s\,\-\:]+)" /\
  combine ["^(?:set)\b"; "(?:set\s?)([\w\-\s\,\-\:]+)"]
    = Ok ["(?:set)"; "(?:set\s?)([\w\-\s\,\-\:]+)"].
Proof. repeat split; vm_compute; reflexivity. Qed.

(** The two conditions of the scenario. *)
Definition starts_and_after : Condition := [(starts, One "set"); (after, One "set")].

Definition after_only : Condition := [(after, One "set")].

(** C3 (as amended): with default options, the condition
    [{ starts: "set", after: "set" }] compiles to an expression that asks for
    ["set"] twice: on ["set alarm 7"] it does not match ([success] false,
    nothing captured), on ["setset alarm 7"] it yields [success = true] and
    [captured = "alarm 7"]; the condition [{ after: "set" }] yields
    [success = true] and [captured = "alarm 7"] on ["set alarm 7"]. *)
Theorem set_alarm_capture (rangeRegex : string -> option string -> string) :
  compiled rangeRegex starts_and_after no_options
    = Ok "(?:set)(?:set\s?)([\w\-\s\,\-\:]+)" /\
  observe rangeRegex (ICondition starts_and_after) no_options "set alarm 7"
    = Ok (false, Single None) /\
  observe rangeRegex (ICondition starts_and_after) no_options "setset alarm 7"
    = Ok (true, Single (Some "alarm 7")) /\
  observe rangeRegex (ICondition after_only) no_options "set alarm 7"
    = Ok (true, Single (Some "alarm 7")).
Proof. repeat split; vm_compute; reflexivity. Qed.

(** C3 (as stated) fails: for [{ starts: "set", after: "set" }] and
    ["set alarm 7"], [success] is false and nothing is captured. *)
Lemma set_alarm_no_match :
  observe no_range (ICondition starts_and_after) no_options "set alarm 7"
    = Ok (false, Single None) /\
  observe no_range (ICondition starts_and_after) no_options "set alarm 7"
    <> Ok (true, Single (Some "alarm 7")).
Proof. split; [vm_compute; reflexivity|vm_compute; discriminate]. Qed.

End ConditionProps.


(* ===================================================================== *)
(** * lib/path.ts: how [add], [forced] and [reset] compose *)
(* ===================================================================== *)

Module PathMore.
Import Path PathProps.

Lemma put_get (c : Collection) (p : Path) : put c (get c p) p = p.
Proof. by destruct c, p. Qed.

Lemma put_put (c : Collection) (m m' : gmap string Branch) (p : Path) :
  put c m (put c m' p) = put c m p.
Proof. by destruct c. Qed.

(** The loop changes nothing in a map whose branches are all forced. *)
Lemma forced_loop_all_forced (ids : list string) (m : gmap string Branch) :
  (forall i b, m !! i = Some b -> truthy (force b) = true) ->
  forced_loop ids m = m.
Proof.
  induction ids as [|j ids IH]; intros H; simpl; [done|].
  assert (Hb : forced_body m j = m).
  { unfold forced_body. destruct (m !! j) as [bj|] eqn:Hj; [|done].
    by rewrite (H j bj Hj). }
  rewrite Hb. by apply IH.
Qed.

(** X1: [forced] loses no forced branch and changes none: a branch is in
    the collection afterwards exactly when it was there before with
    [force = true]; the other collections and the scope are left alone, and
    the count returned is at most the number of branches held before. *)
Theorem forced_keeps_exactly (P : Path) (s : ForcedCollection) :
  (forall i b,
     get (of_forced s) (forced s P).1 !! i = Some b <->
     get (of_forced s) P !! i = Some b /\ force b = Some true) /\
  (forall c, c <> of_forced s -> get c (forced s P).1 = get c P) /\
  scope (forced s P).1 = scope P /\
  (forced s P).2 <= size (get (of_forced s) P).
Proof.
  split; [intros i b; apply forced_lookup|].
  split; [intros c; apply forced_frame|].
  split; [by destruct s|].
  unfold forced. simpl. apply map_subseteq_size, map_subseteq_spec.
  intros i b. apply forced_loop_lookup_Some.
Qed.

(** X2: [forced] is idempotent: a second call removes nothing and returns
    the same count. *)
Theorem forced_idempotent (P : Path) (s : ForcedCollection) :
  forced s (forced s P).1 = forced s P.
Proof.
  unfold forced. simpl. rewrite get_put, put_put.
  rewrite forced_loop_all_forced; [done|].
  intros i b H. eapply forced_loop_visited; [|exact H].
  apply forced_loop_lookup_Some in H.
  unfold keys. apply list_elem_of_fmap. exists (i, b). split; [done|].
  by apply elem_of_map_to_list.
Qed.

(** X3: [add] files the branch under its id in the collection named,
    replacing a branch that had this id, and returns the id; the collection
    grows by one exactly when the id was free, and every other entry of the
    path stays.  The branch then survives [forced] on its collection exactly
    when its [force] is [true], and survives [reset] exactly when it was
    added for the server stage.  The one id left out is ['__proto__'], under
    which no branch can be filed. *)
Theorem add_files_branch (b : Branch) (c : Collection) (P : Path) :
  match add b c P with
  | None => id b = "__proto__"
  | Some (P', i) =>
      id b <> "__proto__" /\
      i = id b /\
      get c P' !! id b = Some b /\
      (forall i', i' <> id b -> get c P' !! i' = get c P !! i') /\
      (forall c', c' <> c -> get c' P' = get c' P) /\
      scope P' = scope P /\
      size (get c P')
        = (match get c P !! id b with
           | Some _ => size (get c P)
           | None => S (size (get c P))
           end) /\
      (forall s, c = of_forced s ->
         get c (forced s P').1 !! id b
         = (if truthy (force b) then Some b else None)) /\
      get c (reset P') !! id b
        = (match c with serve => Some b | _ => None end)
  end.
Proof.
  unfold add. destruct (String.eqb_spec (id b) "__proto__") as [Hp|Hp]; [done|].
  split; [done|]. split; [done|].
  rewrite get_put. repeat split.
  - apply lookup_insert_eq.
  - intros i Hi. by apply lookup_insert_ne.
  - intros c' Hc. by apply get_put_ne.
  - by destruct c.
  - rewrite map_size_insert. by destruct (get c P !! id b).
  - intros s ->. destruct (truthy (force b)) eqn:Hf.
    + apply forced_lookup. rewrite get_put, lookup_insert_eq.
      split; [done|by apply truthy_force].
    + destruct (get _ _ !! id b) as [b'|] eqn:E; [|done].
      apply forced_lookup in E as [E Hf'].
      rewrite get_put, lookup_insert_eq in E. injection E as <-.
      rewrite Hf' in Hf. discriminate.
  - destruct c; unfold reset; simpl; try apply lookup_empty.
    apply lookup_insert_eq.
Qed.

End PathMore.


(* ===================================================================== *)
(** * util/config: the two spellings of a key *)
(* ===================================================================== *)

Module ConfigMore.
Import Config ConfigProps.

(** No character of the string is a capital letter. *)
Definition no_upper (s : string) : bool :=
  all_chars (fun c => negb (is_upper c)) s.

(** No hyphen of the string is followed by a small letter. *)
Fixpoint no_hyphen_lower (s : string) : bool :=
  match s with
  | EmptyString => true
  | String c rest =>
      match rest with
      | String d _ => negb (Ascii.eqb c "-" && is_lower d) && no_hyphen_lower rest
      | EmptyString => true
      end
  end.

Lemma lower_upper (c : ascii) :
  is_upper c = true ->
  is_lower (toLowerCase c) = true /\ toUpperCase (toLowerCase c) = c /\
  is_upper (toLowerCase c) = false /\ Ascii.eqb c "-" = false.
Proof.
  destruct c as [[] [] [] [] [] [] [] []]; vm_compute; intros H;
    try discriminate; auto.
Qed.

Lemma upper_lower (c : ascii) :
  is_lower c = true ->
  is_upper (toUpperCase c) = true /\ toLowerCase (toUpperCase c) = c /\
  is_upper c = false.
Proof.
  destruct c as [[] [] [] [] [] [] [] []]; vm_compute; intros H;
    try discriminate; auto.
Qed.

Lemma hyphen_not_upper : is_upper "-" = false.
Proof. reflexivity. Qed.

(** What [camelCase] does on a first character that opens no match. *)
Lemma camelCase_keep (c : ascii) (rest : string) :
  (match rest with
   | String d _ => Ascii.eqb c "-" && (is_lower d || is_upper d)
   | EmptyString => false
   end) = false ->
  camelCase (String c rest) = String c (camelCase rest).
Proof.
  intros H. simpl. destruct rest as [|d rest']; [done|]. by rewrite H.
Qed.

Lemma camelCase_hyphenate_aux (s : string) :
  no_hyphen_lower s = true -> camelCase (hyphenate s) = s.
Proof.
  induction s as [|c rest IH]; intros H; [done|].
  assert (Hrest : no_hyphen_lower rest = true).
  { simpl in H. destruct rest as [|d rest']; [done|].
    by apply andb_true_iff in H as [_ H]. }
  change (hyphenate (String c rest))
    with (if is_upper c then String "-" (String (toLowerCase c) (hyphenate rest))
          else String c (hyphenate rest)).
  destruct (is_upper c) eqn:Hc.
  - destruct (lower_upper c Hc) as (Hl & Hu & _ & _).
    change (camelCase (String "-" (String (toLowerCase c) (hyphenate rest))))
      with (if Ascii.eqb "-" "-" && (is_lower (toLowerCase c) || is_upper (toLowerCase c))
            then String (toUpperCase (toLowerCase c)) (camelCase (hyphenate rest))
            else String "-" (camelCase (String (toLowerCase c) (hyphenate rest)))).
    rewrite Hl, Hu. simpl. by rewrite IH.
  - rewrite camelCase_keep; [by rewrite IH|].
    destruct rest as [|d rest']; [done|].
    change (hyphenate (String d rest'))
      with (if is_upper d then String "-" (String (toLowerCase d) (hyphenate rest'))
            else String d (hyphenate rest')).
    destruct (is_upper d) eqn:Hd.
    + simpl. apply andb_false_r.
    + simpl in H. apply andb_true_iff in H as [H _]. apply negb_true_iff in H.
      cbv beta iota. rewrite Hd, orb_false_r. exact H.
Qed.

Lemma hyphenate_camelCase_aux (n : nat) : forall s,
  String.length s <= n -> no_upper s = true -> hyphenate (camelCase s) = s.
Proof.
  induction n as [|n IH]; intros s Hn Hs.
  - destruct s; [done|simpl in Hn; lia].
  - destruct s as [|c rest]; [done|].
    unfold no_upper in Hs. simpl in Hs, Hn.
    apply andb_true_iff in Hs as [Hc Hrest]. apply negb_true_iff in Hc.
    destruct rest as [|d rest'].
    + simpl. by rewrite Hc.
    + simpl in Hrest, Hn. apply andb_true_iff in Hrest as [Hd Hrest'].
      apply negb_true_iff in Hd.
      change (camelCase (String c (String d rest')))
        with (if Ascii.eqb c "-" && (is_lower d || is_upper d)
              then String (toUpperCase d) (camelCase rest')
              else String c (camelCase (String d rest'))).
      destruct (Ascii.eqb c "-" && (is_lower d || is_upper d)) eqn:E.
      * apply andb_true_iff in E as [Ec El]. apply Ascii.eqb_eq in Ec as ->.
        rewrite Hd, orb_false_r in El.
        destruct (upper_lower d El) as (Hu & Hl & _).
        simpl. rewrite Hu, Hl. rewrite IH; [done|lia|done].
      * change (hyphenate (String c (camelCase (String d rest'))))
          with (if is_upper c
                then String "-" (String (toLowerCase c)
                                   (hyphenate (camelCase (String d rest'))))
                else String c (hyphenate (camelCase (String d rest')))).
        rewrite Hc. rewrite IH; [done|simpl; lia|].
        unfold no_upper. simpl. by rewrite Hd.
Qed.

(** [safeName] leaves alone what it has produced. *)
Lemma safeName_fixed (s : string) :
  all_chars safe_class_i s = true -> safeName s = s.
Proof.
  induction s as [|c rest IH]; intros H; [done|].
  simpl in H. apply andb_true_iff in H as [Hc H].
  simpl. rewrite Hc. simpl. by rewrite IH.
Qed.

Lemma assign_config (key : string) (v : Value) (s : Settings) (k : string) :
  config (assign key v s) !! k = (if String.eqb key k then Some v else config s !! k) /\
  updates (assign key v s) !! k = (if String.eqb key k then Some v else updates s !! k).
Proof.
  unfold assign. simpl. destruct (String.eqb key k) eqn:E.
  - apply String.eqb_eq in E as ->. by rewrite !lookup_insert_eq.
  - apply String.eqb_neq in E. by rewrite !lookup_insert_ne.
Qed.

(** X4: the two spellings of a key convert into each other.  A key
    without a hyphen before a small letter comes back from [hyphenate]
    followed by [camelCase]; a key without capital letters comes back from
    [camelCase] followed by [hyphenate]. *)
Theorem spellings_round_trip (s : string) :
  (no_hyphen_lower s = true -> camelCase (hyphenate s) = s) /\
  (no_upper s = true -> hyphenate (camelCase s) = s).
Proof.
  split; [apply camelCase_hyphenate_aux|].
  intros H. by apply (hyphenate_camelCase_aux (String.length s)).
Qed.

Lemma spellings_round_trip_witness :
  camelCase (hyphenate "nluMinLength") = "nluMinLength" /\
  hyphenate (camelCase "nlu-min-length") = "nlu-min-length".
Proof.
  split.
  - exact (proj1 (spellings_round_trip "nluMinLength") eq_refl).
  - exact (proj2 (spellings_round_trip "nlu-min-length") eq_refl).
Defined.

(** The hypotheses cannot be dropped. *)
Example round_trips_need_their_hypotheses :
  camelCase (hyphenate "a-b") = "aB" /\ hyphenate (camelCase "a-B") = "a-b".
Proof. split; reflexivity. Qed.

(** X5: [safeName] is idempotent, never lengthens its argument, and leaves
    a name as it is exactly when the name is made of letters, digits,
    underscores and hyphens. *)
Theorem safeName_idempotent (s : string) :
  safeName (safeName s) = safeName s /\
  String.length (safeName s) <= String.length s /\
  (safeName s = s <-> all_chars safe_class_i s = true).
Proof.
  split; [apply safeName_fixed, safeName_chars|]. split.
  - induction s as [|c rest IH]; simpl; [lia|].
    destruct (safe_class_i c); simpl; lia.
  - split; [|apply safeName_fixed].
    intros H. rewrite <- H. apply safeName_chars.
Qed.

(** The keys that [set (key, value)] writes. *)
Definition written (key k : string) : bool :=
  String.eqb key k
  || (String.eqb key (hyphenate key) && String.eqb (camelCase key) k)
  || (negb (String.eqb key (hyphenate key)) && String.eqb key (camelCase key)
      && String.eqb (hyphenate key) k).

Lemma set_lookup (key : string) (v : Value) (s : Settings) (k : string) :
  config (set key v s) !! k = (if written key k then Some v else config s !! k) /\
  updates (set key v s) !! k = (if written key k then Some v else updates s !! k).
Proof.
  unfold set, written.
  destruct (String.eqb key (hyphenate key)) eqn:E1;
    [|destruct (String.eqb key (camelCase key)) eqn:E2];
    repeat match goal with
           | |- context [assign ?a ?b ?c] =>
               let H := fresh in
               pose proof (assign_config a b c k) as H;
               destruct H as [-> ->]
           end;
    destruct (String.eqb key k); simpl; rewrite ?orb_false_r; try done;
    by destruct (String.eqb _ k).
Qed.

Lemma written_spellings (key : string) :
  hyphenate key = key \/ camelCase key = key ->
  written key key = true /\ written key (hyphenate key) = true /\
  written key (camelCase key) = true.
Proof.
  intros H. unfold written. rewrite String.eqb_refl. split; [done|].
  destruct (String.eqb key (hyphenate key)) eqn:E1.
  - apply String.eqb_eq in E1. rewrite <- E1, !String.eqb_refl. simpl.
    split; [done|]. by destruct (String.eqb key (camelCase key)).
  - destruct H as [H|H]; [rewrite H, String.eqb_refl in E1; discriminate|].
    rewrite H, !String.eqb_refl. simpl.
    split; [|done]. by destruct (String.eqb key (hyphenate key)).
Qed.

End ConfigMore.


(* ===================================================================== *)
(** * The Settings class: reloading the configuration *)
(* ===================================================================== *)

Module ConfigReload.
Import Config.

(** The names that every object inherits: reading them gives a value
    although nothing was stored under them. *)
Definition inherited : list string :=
  [ "constructor"; "__proto__"; "hasOwnProperty"; "isPrototypeOf";
    "propertyIsEnumerable"; "toLocaleString"; "toString"; "valueOf";
    "__defineGetter__"; "__defineSetter__"; "__lookupGetter__";
    "__lookupSetter__" ].

(** What reading a key of the configuration object gives: the value held
    under the key, what every object inherits under that name, or
    [undefined]. *)
Inductive Got :=
| Held (v : Value)
| Inherited
| Undefined.

(** Reading a key that the object does not hold. *)
Definition absent (key : string) : Got :=
  if existsb (String.eqb key) inherited then Inherited else Undefined.

(** An object that holds no entry of its own under ['__proto__'].  The
    objects that assignments and [Object.assign] build from [{}] are such:
    under that key they store nothing, and change the prototype instead. *)
Definition plain {A : Type} (m : gmap string A) : bool :=
  match m !! "__proto__" with
  | Some _ => false
  | None => true
  end.

Section Yargs.

(** A [yargs.Options] record, opaque here. *)
Variable Options : Type.

(** The [argv] object that the yargs pipeline of [loadConfig] computes from
    the options handed to it (command line, environment, package and
    configuration file, defaults), an ordinary object.  [later] tells that
    the instance had a configuration already: the options are then handed
    over with [global] set to false where it was undefined. *)
Variable argv : bool -> gmap string Options -> gmap string Value.

(** [initOptions] *)
Variable init : gmap string Options.

(** A [Settings] instance with its [options]; [config] and [updates] hold
    the entries of the two objects. *)
Record SettingsInstance := mkInstance {
  options : gmap string Options;
  settings : Settings
}.

(** [get (key)] *)
Definition get (key : string) (i : SettingsInstance) : Got :=
  match config (settings i) !! key with
  | Some v => Held v
  | None => absent key
  end.

(** [set (key, value)].  [None]: one of the keys written is ['__proto__'],
    under which the assignments store nothing. *)
Definition set (key : string) (value : Value) (i : SettingsInstance)
  : option SettingsInstance :=
  if existsb (String.eqb "__proto__") [key; camelCase key; hyphenate key] then None
  else Some (mkInstance (options i) (Config.set key value (settings i))).

(** [Object.keys(this.options).indexOf(hyphenate(key)) < 0] *)
Definition unknown (opts : gmap string Options) (key : string) : bool :=
  match opts !! hyphenate key with
  | Some _ => false
  | None => true
  end.

(** [loadConfig (reset = false)]: the configuration returned and the
    [updates] after the call.  [None]: [updates] is to be restored and holds
    an entry under ['__proto__'], which the loop [config[key] =
    this.updates[key]] does not copy. *)
Definition loadConfig (reset later : bool) (i : SettingsInstance)
  : option (gmap string Value * gmap string Value) :=
  let config := argv later (options i) in
  let known (kv : string * Value) := unknown (options i) kv.1 = false in
  if reset then Some (filter known config, ∅)
  else if plain (updates (settings i))
       then Some (filter known (updates (settings i) ∪ config), updates (settings i))
       else None.

(** [reloadConfig ()] *)
Definition reloadConfig (i : SettingsInstance) : option SettingsInstance :=
  match loadConfig false true i with
  | Some (config, updates) => Some (mkInstance (options i) (mkSettings config updates))
  | None => None
  end.

(** [resetConfig ()].  [None]: [initOptions] holds an entry under
    ['__proto__'], which [Object.assign] does not copy. *)
Definition resetConfig (i : SettingsInstance) : option SettingsInstance :=
  if plain init then
    match loadConfig true true (mkInstance init (settings i)) with
    | Some (config, updates) => Some (mkInstance init (mkSettings config updates))
    | None => None
    end
  else None.

(** [unset (key)] *)
Definition unset (key : string) (i : SettingsInstance) : option SettingsInstance :=
  let forget (m : gmap string Value) :=
    delete (hyphenate key) (delete (camelCase key) (delete key m)) in
  reloadConfig
    (mkInstance (options i)
       (mkSettings (forget (config (settings i))) (forget (updates (settings i))))).

(** [extend (options)].  [None]: one of the two objects handed to
    [Object.assign] holds an entry under ['__proto__']. *)
Definition extend (more : gmap string Options) (i : SettingsInstance)
  : option SettingsInstance :=
  if plain more && plain (options i)
  then reloadConfig (mkInstance (more ∪ options i) (settings i))
  else None.

End Yargs.

Arguments mkInstance {Options}.
Arguments options {Options}.
Arguments settings {Options}.
Arguments get {Options}.
Arguments set {Options}.
Arguments unknown {Options}.
Arguments loadConfig {Options}.
Arguments reloadConfig {Options}.
Arguments resetConfig {Options}.
Arguments unset {Options}.
Arguments extend {Options}.

End ConfigReload.

Module ConfigReloadProps.
Import Config ConfigMore ConfigReload.

(** Neither spelling of a key is ['__proto__'], unless the key is. *)
Lemma hyphenate_no_hyphen : forall s : string,
  all_chars (fun c => negb (Ascii.eqb c "-")) (hyphenate s) = true -> hyphenate s = s.
Proof.
  induction s as [|c rest IH]; simpl; [done|].
  destruct (is_upper c); simpl; [discriminate|].
  intros H. apply andb_true_iff in H as [_ H]. by rewrite IH.
Qed.

Lemma camelCase_no_upper : forall s : string,
  all_chars (fun c => negb (is_upper c)) (camelCase s) = true -> camelCase s = s.
Proof.
  induction s as [|c rest IH]; [done|].
  destruct rest as [|d rest']; [done|].
  change (camelCase (String c (String d rest')))
    with (if Ascii.eqb c "-" && (is_lower d || is_upper d)
          then String (toUpperCase d) (camelCase rest')
          else String c (camelCase (String d rest'))).
  destruct (Ascii.eqb c "-" && (is_lower d || is_upper d)) eqn:E.
  - intros H. exfalso. cbn [all_chars] in H. apply andb_true_iff in H as [H _].
    apply andb_true_iff in E as [_ E]. apply negb_true_iff in H.
    destruct (is_lower d) eqn:El.
    + destruct (upper_lower d El) as (Hu & _). congruence.
    + simpl in E. unfold toUpperCase in H. rewrite El in H. congruence.
  - intros H. cbn [all_chars] in H. apply andb_true_iff in H as [_ H].
    by rewrite IH.
Qed.

Lemma spellings_not_proto (key : string) :
  key <> "__proto__" ->
  existsb (String.eqb "__proto__") [key; camelCase key; hyphenate key] = false.
Proof.
  intros Hk. cbn [existsb]. rewrite orb_false_r.
  destruct (String.eqb_spec "__proto__" key) as [E|_]; [by destruct Hk|].
  destruct (String.eqb_spec "__proto__" (camelCase key)) as [E|_].
  { destruct Hk. rewrite <- (camelCase_no_upper key); [done|]. by rewrite <- E. }
  destruct (String.eqb_spec "__proto__" (hyphenate key)) as [E|_]; [|done].
  destruct Hk. rewrite <- (hyphenate_no_hyphen key); [done|]. by rewrite <- E.
Qed.

Lemma plain_delete {A : Type} (k : string) (m : gmap string A) :
  plain m = true -> plain (delete k m) = true.
Proof.
  unfold plain. destruct (m !! "__proto__") eqn:E; [done|]. intros _.
  by rewrite (proj2 (lookup_delete_None m k "__proto__") (or_intror E)).
Qed.

(** [set] stores nothing under ['__proto__']. *)
Lemma set_plain (key : string) (value : Value) (s : Settings) :
  existsb (String.eqb "__proto__") [key; camelCase key; hyphenate key] = false ->
  plain (updates (Config.set key value s)) = plain (updates s).
Proof.
  intros H. unfold plain. destruct (set_lookup key value s "__proto__") as [_ ->].
  replace (written key "__proto__") with false; [done|].
  cbn [existsb] in H. rewrite orb_false_r in H.
  apply orb_false_iff in H as [H1 H]. apply orb_false_iff in H as [H2 H3].
  unfold written.
  rewrite (String.eqb_sym key), (String.eqb_sym (camelCase key)),
    (String.eqb_sym (hyphenate key)), H1, H2, H3.
  by rewrite !andb_false_r.
Qed.

Section Yargs.

Context {Options : Type}.
Variable argv : bool -> gmap string Options -> gmap string Value.

(** X6: [set] keeps the two spellings of a key together.  When the key is
    written in one of the two forms (no capital letter, or no hyphen before
    a letter) and is not ['__proto__'], the value can be read back under the
    key, under its hyphenated form and under its camel-case form, from
    [config] and from [updates]; every other key reads as before. *)
Theorem set_both_spellings (key : string) (v : Value) (i : SettingsInstance Options) :
  hyphenate key = key \/ camelCase key = key ->
  key <> "__proto__" ->
  exists i',
    set key v i = Some i' /\
    get key i' = Held v /\
    get (hyphenate key) i' = Held v /\
    get (camelCase key) i' = Held v /\
    updates (settings i') !! key = Some v /\
    updates (settings i') !! hyphenate key = Some v /\
    updates (settings i') !! camelCase key = Some v /\
    options i' = options i /\
    (forall k, k <> key -> k <> hyphenate key -> k <> camelCase key ->
       get k i' = get k i /\ updates (settings i') !! k = updates (settings i) !! k).
Proof.
  intros H Hk. unfold set. rewrite (spellings_not_proto key Hk).
  eexists. split; [reflexivity|].
  destruct (written_spellings key H) as (H1 & H2 & H3). unfold get.
  cbn [settings options].
  destruct (set_lookup key v (settings i) key) as [Hc1 Hu1].
  destruct (set_lookup key v (settings i) (hyphenate key)) as [Hc2 Hu2].
  destruct (set_lookup key v (settings i) (camelCase key)) as [Hc3 Hu3].
  rewrite Hc1, Hc2, Hc3, Hu1, Hu2, Hu3, H1, H2, H3. repeat split.
  - destruct (set_lookup key v (settings i) k) as [-> _].
    replace (written key k) with false; [done|].
    unfold written. apply String.eqb_neq in H0, H4, H5.
    rewrite (String.eqb_sym key k), (String.eqb_sym (camelCase key) k),
      (String.eqb_sym (hyphenate key) k), H0, H4, H5.
    by rewrite !andb_false_r.
  - destruct (set_lookup key v (settings i) k) as [_ ->].
    replace (written key k) with false; [done|].
    unfold written. apply String.eqb_neq in H0, H4, H5.
    rewrite (String.eqb_sym key k), (String.eqb_sym (camelCase key) k),
      (String.eqb_sym (hyphenate key) k), H0, H4, H5.
    by rewrite !andb_false_r.
Qed.

(** What [reloadConfig] gives on an instance whose [updates] can be
    restored. *)
Lemma reloadConfig_plain (i : SettingsInstance Options) :
  plain (updates (settings i)) = true ->
  exists i',
    reloadConfig argv i = Some i' /\
    options i' = options i /\
    updates (settings i') = updates (settings i) /\
    forall key,
      get key i' =
        if unknown (options i) key then absent key
        else match updates (settings i) !! key with
             | Some v => Held v
             | None => match argv true (options i) !! key with
                       | Some v => Held v
                       | None => absent key
                       end
             end.
Proof.
  intros Hp. unfold reloadConfig, loadConfig. rewrite Hp.
  eexists. split; [reflexivity|]. split; [done|]. split; [done|].
  intros key. unfold get. cbn [settings config].
  assert (Hu : (updates (settings i) ∪ argv true (options i)) !! key
               = match updates (settings i) !! key with
                 | Some v => Some v
                 | None => argv true (options i) !! key
                 end).
  { rewrite lookup_union.
    by destruct (updates (settings i) !! key), (argv true (options i) !! key). }
  destruct (unknown (options i) key) eqn:E.
  - rewrite (proj2 (map_lookup_filter_None _ _ key)); [done|].
    right. intros v _. simpl. by rewrite E.
  - destruct ((updates (settings i) ∪ argv true (options i)) !! key) as [v|] eqn:Hl.
    + rewrite (proj2 (map_lookup_filter_Some _ _ key v)) by done.
      destruct (updates (settings i) !! key); [by injection Hu as ->|].
      by rewrite <- Hu.
    + rewrite (proj2 (map_lookup_filter_None _ _ key)) by (by left).
      destruct (updates (settings i) !! key); [done|].
      by rewrite <- Hu.
Qed.

Lemma updates_set (key : string) (value : Value) (s : Settings) :
  updates (Config.set key value s) !! key = Some value.
Proof.
  destruct (set_lookup key value s key) as [_ ->].
  unfold written. by rewrite String.eqb_refl.
Qed.

(** [set], then [reloadConfig]. *)
Lemma set_then_reload (key : string) (value : Value) (i : SettingsInstance Options) :
  key <> "__proto__" ->
  plain (updates (settings i)) = true ->
  exists i1 i',
    set key value i = Some i1 /\
    reloadConfig argv i1 = Some i' /\
    get key i' = (if unknown (options i) key then absent key else Held value) /\
    updates (settings i') !! key = Some value /\
    plain (updates (settings i')) = true /\
    options i' = options i.
Proof.
  intros Hk Hp. unfold set. rewrite (spellings_not_proto key Hk).
  eexists.
  destruct (reloadConfig_plain
              (mkInstance (options i) (Config.set key value (settings i))))
    as (i' & Hr & Ho & Hu & Hg).
  { cbn [settings]. by rewrite set_plain by (by apply spellings_not_proto). }
  exists i'. split; [reflexivity|]. split; [exact Hr|].
  cbn [settings options] in *. rewrite Hg, Hu, updates_set.
  repeat split; try done.
  by rewrite set_plain by (by apply spellings_not_proto).
Qed.

(** X7: a value given with [set] outlives a reload only under a key
    whose hyphenated form is a declared option: under such a key it takes
    precedence over what is loaded, under any other key it is dropped from
    the configuration (while staying in [updates]), and the key then reads
    as one that was never set.  The key ['__proto__'] is left out: nothing
    can be set under it. *)
Theorem reload_keeps_declared_settings (key : string) (value : Value)
    (i : SettingsInstance Options) :
  key <> "__proto__" ->
  plain (updates (settings i)) = true ->
  exists i1 i',
    set key value i = Some i1 /\
    reloadConfig argv i1 = Some i' /\
    get key i' = (if unknown (options i) key then absent key else Held value) /\
    updates (settings i') !! key = Some value /\
    options i' = options i.
Proof.
  intros Hk Hp.
  destruct (set_then_reload key value i Hk Hp) as (i1 & i' & H1 & H2 & H3 & H4 & _ & H5).
  by exists i1, i'.
Qed.

(** X8: [unset] does not clear a setting: under a key that is a
    declared option, [get] then gives what the command line, the environment
    or the defaults give for it, as if the key had never been set; the value
    given by [set] is forgotten. *)
Theorem unset_reverts_to_loaded (key : string) (i : SettingsInstance Options) :
  plain (updates (settings i)) = true ->
  exists i',
    unset argv key i = Some i' /\
    get key i' =
      (if unknown (options i) key then absent key
       else match argv true (options i) !! key with
            | Some v => Held v
            | None => absent key
            end) /\
    updates (settings i') !! key = None /\
    updates (settings i') !! camelCase key = None /\
    updates (settings i') !! hyphenate key = None /\
    options i' = options i.
Proof.
  intros Hp. unfold unset.
  set (forget := fun m : gmap string Value =>
                   delete (hyphenate key) (delete (camelCase key) (delete key m))).
  destruct (reloadConfig_plain
              (mkInstance (options i)
                 (mkSettings (forget (config (settings i)))
                             (forget (updates (settings i))))))
    as (i' & Hr & Ho & Hu & Hg).
  { cbn [settings updates]. unfold forget. by do 3 apply plain_delete. }
  exists i'. split; [exact Hr|].
  cbn [settings options updates] in *.
  assert (H : forall k, k = key \/ k = camelCase key \/ k = hyphenate key ->
            forget (updates (settings i)) !! k = None).
  { intros k Hk. unfold forget. rewrite !lookup_delete_None.
    destruct Hk as [->|[->| ->]]; auto. }
  rewrite Hg, Hu, (H key) by auto.
  repeat split; try done; apply H; auto.
Qed.

(** X9: a value given with [set] under a key that no option declares
    is invisible after a reload, and comes back when [extend] declares the
    option; [resetConfig] forgets it for good, together with the options
    added by [extend]. *)
Theorem extend_revives_setting (init more : gmap string Options) (key : string)
    (value : Value) (i : SettingsInstance Options) :
  key <> "__proto__" ->
  plain (updates (settings i)) = true ->
  plain (options i) = true ->
  plain more = true ->
  plain init = true ->
  unknown (options i) key = true ->
  unknown more key = false ->
  exists i0 i1 i2 i3,
    set key value i = Some i0 /\
    reloadConfig argv i0 = Some i1 /\
    extend argv more i1 = Some i2 /\
    resetConfig argv init i2 = Some i3 /\
    get key i1 = absent key /\
    get key i2 = Held value /\
    updates (settings i3) = ∅ /\
    options i3 = init.
Proof.
  intros Hk Hp Hpo Hpm Hpi Hu Hm.
  destruct (set_then_reload key value i Hk Hp)
    as (i0 & i1 & H0 & H1 & Hg1 & Hu1 & Hp1 & Ho1).
  exists i0, i1. rewrite Hu in Hg1.
  destruct (reloadConfig_plain (mkInstance (more ∪ options i1) (settings i1)) Hp1)
    as (i2 & H2 & Ho2 & Hu2 & Hg2).
  exists i2. unfold resetConfig, loadConfig. rewrite Hpi.
  eexists. split; [exact H0|]. split; [exact H1|].
  split.
  { unfold extend. rewrite Hpm.
    replace (plain (options i1)) with true by (by rewrite Ho1). exact H2. }
  split; [reflexivity|]. split; [exact Hg1|]. split; [|done].
  rewrite Hg2. cbn [options settings]. rewrite Hu1.
  assert (Hkn : unknown (more ∪ options i1) key = false).
  { unfold unknown in *. rewrite lookup_union.
    by destruct (more !! hyphenate key), (options i1 !! hyphenate key). }
  by rewrite Hkn.
Qed.

End Yargs.

Lemma set_both_spellings_witness :
  let i := mkInstance (∅ : gmap string unit) defaults in
  exists i', set "autoSave" (VBool false) i = Some i' /\
             get "auto-save" i' = Held (VBool false).
Proof.
  cbv zeta.
  destruct (set_both_spellings "autoSave" (VBool false)
              (mkInstance (∅ : gmap string unit) defaults))
    as (i' & H1 & _ & H2 & _); [by right|discriminate|].
  by exists i'.
Defined.

Lemma reload_keeps_declared_settings_witness :
  let argv := fun (_ : bool) (_ : gmap string unit) => (∅ : gmap string Value) in
  let i := mkInstance ({["colour" := tt]} : gmap string unit) (mkSettings ∅ ∅) in
  exists i1 i', set "colour" (VStr "red") i = Some i1 /\
                reloadConfig argv i1 = Some i' /\
                get "colour" i' = Held (VStr "red").
Proof.
  cbv zeta.
  destruct (reload_keeps_declared_settings
              (fun (_ : bool) (_ : gmap string unit) => (∅ : gmap string Value))
              "colour" (VStr "red")
              (mkInstance ({["colour" := tt]} : gmap string unit) (mkSettings ∅ ∅)))
    as (i1 & i' & H1 & H2 & H3 & _); [discriminate|reflexivity|].
  by exists i1, i'.
Defined.

Lemma unset_reverts_to_loaded_witness :
  let argv := fun (_ : bool) (_ : gmap string unit) =>
                ({["colour" := VStr "blue"]} : gmap string Value) in
  let i := mkInstance ({["colour" := tt]} : gmap string unit)
             (mkSettings {["colour" := VStr "red"]} {["colour" := VStr "red"]}) in
  exists i', unset argv "colour" i = Some i' /\
             get "colour" i' = Held (VStr "blue") /\
             get "constructor" i' = Inherited.
Proof.
  cbv zeta.
  destruct (unset_reverts_to_loaded
              (fun (_ : bool) (_ : gmap string unit) =>
                 ({["colour" := VStr "blue"]} : gmap string Value))
              "colour"
              (mkInstance ({["colour" := tt]} : gmap string unit)
                 (mkSettings {["colour" := VStr "red"]} {["colour" := VStr "red"]})))
    as (i' & H1 & H2 & _); [reflexivity|].
  exists i'. split; [exact H1|]. split; [exact H2|].
  revert H1. unfold unset, reloadConfig, loadConfig. simpl. by intros [= <-].
Defined.

Lemma extend_revives_setting_witness :
  let argv := fun (_ : bool) (_ : gmap string unit) => (∅ : gmap string Value) in
  let i := mkInstance (∅ : gmap string unit) (mkSettings ∅ ∅) in
  exists i0 i1 i2,
    set "colour" (VStr "red") i = Some i0 /\
    reloadConfig argv i0 = Some i1 /\
    extend argv {["colour" := tt]} i1 = Some i2 /\
    get "colour" i1 = Undefined /\
    get "colour" i2 = Held (VStr "red").
Proof.
  cbv zeta.
  destruct (extend_revives_setting
              (fun (_ : bool) (_ : gmap string unit) => (∅ : gmap string Value))
              ∅ {["colour" := tt]} "colour" (VStr "red")
              (mkInstance (∅ : gmap string unit) (mkSettings ∅ ∅)))
    as (i0 & i1 & i2 & i3 & H0 & H1 & H2 & _ & H4 & H5 & _);
    try reflexivity; [discriminate|].
  by exists i0, i1, i2.
Defined.

End ConfigReloadProps.


(* ===================================================================== *)
(** * lib/memory.ts: [get], [set], [unset], and the save timer *)
(* ===================================================================== *)

Module MemoryOps.
Import Memory.

(** The names that every object inherits: reading them gives a value
    although nothing was stored under them. *)
Definition inherited : list string :=
  [ "constructor"; "__proto__"; "hasOwnProperty"; "isPrototypeOf";
    "propertyIsEnumerable"; "toLocaleString"; "toString"; "valueOf";
    "__defineGetter__"; "__defineSetter__"; "__lookupGetter__";
    "__lookupSetter__" ].

(** The names of a [Memory] instance that are no collection of values: the
    save tracking record, the methods of the class and the inherited names. *)
Definition not_a_collection : list string :=
  [ "intervals"; "toObject"; "clear"; "save"; "load"; "setSaveInterval"; "get";
    "unset"; "clearSaveInterval"; "set"; "start"; "shutdown" ] ++ inherited.

(** What [this[collection]] designates. *)
Inductive Slot :=
| Users
| Rooms
| Private
| Added (name : string).

Definition slot (collection : string) : option Slot :=
  if existsb (String.eqb collection) not_a_collection then None
  else if String.eqb collection "users" then Some Users
  else if String.eqb collection "rooms" then Some Rooms
  else if String.eqb collection "private" then Some Private
  else Some (Added collection).

(** What a method gives: a value, [undefined], what every object inherits
    under the key, or a [TypeError] thrown on reading a property of
    [undefined]. *)
Inductive Got (A : Type) :=
| Value (a : A)
| Undefined
| Inherited
| TypeError.

Arguments Value {A}.
Arguments Undefined {A}.
Arguments Inherited {A}.
Arguments TypeError {A}.

(** Reading a key that the object does not hold. *)
Definition absent {A : Type} (key : string) : Got A :=
  if existsb (String.eqb key) inherited then Inherited else Undefined.

Section Ops.

Variable Val : Type.

(** [util.clone], the deep copy made by [set]. *)
Variable clone : Val -> Val.

(** [this[collection]] *)
Definition read (s : Slot) (m : Memory Val) : option (gmap string Val) :=
  match s with
  | Users => Some (users m)
  | Rooms => Some (rooms m)
  | Private => Some (private m)
  | Added name => collections m !! name
  end.

(** [this[collection] = c] *)
Definition write (s : Slot) (c : gmap string Val) (m : Memory Val) : Memory Val :=
  match s with
  | Users => mkMemory c (rooms m) (private m) (intervals m) (collections m)
  | Rooms => mkMemory (users m) c (private m) (intervals m) (collections m)
  | Private => mkMemory (users m) (rooms m) c (intervals m) (collections m)
  | Added name =>
      mkMemory (users m) (rooms m) (private m) (intervals m)
               (<[name := c]> (collections m))
  end.

(** [get (key, collection = 'private')]; [None]: the name is no collection. *)
Definition get (key collection : string) (m : Memory Val) : option (Got Val) :=
  match slot collection with
  | None => None
  | Some s =>
      Some (match read s m with
            | None => TypeError
            | Some c => match c !! key with
                        | Some v => Value v
                        | None => absent key
                        end
            end)
  end.

(** [set (key, value, collection = 'private')]: the memory after the call
    and the events emitted on the event bus.  [None]: the name is no
    collection, or the key is ['__proto__'], under which an assignment
    stores no entry. *)
Definition set (key : string) (value : Val) (collection : string) (m : Memory Val)
  : option (Memory Val * list string) :=
  match slot collection with
  | None => None
  | Some s =>
      if String.eqb key "__proto__" then None
      else
        let data := clone value in
        let c := match read s m with
                 | Some c => c
                 | None => ∅
                 end in
        Some (write s (<[key := data]> c) m, ["loaded"])
  end.

(** [unset (key, collection = 'private')]: the memory after the call, or a
    [TypeError]. *)
Definition unset (key collection : string) (m : Memory Val)
  : option (Got (Memory Val)) :=
  match slot collection with
  | None => None
  | Some s =>
      Some (match read s m with
            | None => TypeError
            | Some c => Value (write s (delete key c) m)
            end)
  end.

End Ops.

Arguments absent {A}.
Arguments get {Val}.
Arguments set {Val}.
Arguments unset {Val}.
Arguments read {Val}.
Arguments write {Val}.

End MemoryOps.

Module MemoryOpsProps.
Import Memory MemoryOps.

Lemma read_write {Val} (s : Slot) (c : gmap string Val) (m : Memory Val) :
  read s (write s c m) = Some c.
Proof. destruct s; simpl; try done. apply lookup_insert_eq. Qed.

Lemma slot_inj (c c' : string) (s : Slot) :
  slot c = Some s -> slot c' = Some s -> c = c'.
Proof.
  unfold slot. intros H H'.
  destruct (existsb (String.eqb c) not_a_collection); [done|].
  destruct (existsb (String.eqb c') not_a_collection); [done|].
  destruct (String.eqb_spec c "users"), (String.eqb_spec c' "users"),
    (String.eqb_spec c "rooms"), (String.eqb_spec c' "rooms"),
    (String.eqb_spec c "private"), (String.eqb_spec c' "private"); congruence.
Qed.

Lemma read_write_ne {Val} (s s' : Slot) (c : gmap string Val) (m : Memory Val) :
  s <> s' -> read s' (write s c m) = read s' m.
Proof.
  intros H. destruct s, s'; simpl; try done.
  apply lookup_insert_ne. congruence.
Qed.

(** X10: a value stored with [set] is read back by [get] as the copy
    that [set] made, under the same key and collection, also when the
    collection did not exist; the call emits ['loaded']; the other
    collections and the save tracking record are left alone; after [unset]
    the key reads again as it does when nothing is stored. *)
Theorem set_then_get {Val} (clone : Val -> Val) (key collection : string)
    (value : Val) (m : Memory Val) (s : Slot) :
  slot collection = Some s ->
  key <> "__proto__" ->
  exists m',
    set clone key value collection m = Some (m', ["loaded"]) /\
    get key collection m' = Some (Value (clone value)) /\
    intervals m' = intervals m /\
    (forall k c', c' <> collection -> get k c' m' = get k c' m) /\
    (forall k c, read s m = Some c -> k <> key ->
       get k collection m' = get k collection m) /\
    exists m'',
      unset key collection m' = Some (Value m'') /\
      get key collection m'' = Some (absent key).
Proof.
  intros Hs Hk. unfold set, get, unset. rewrite Hs.
  destruct (String.eqb_spec key "__proto__") as [->|_]; [done|].
  eexists. split; [reflexivity|].
  rewrite read_write, lookup_insert_eq. split; [done|]. split; [by destruct s|].
  split; [|split].
  - intros k c' Hc. destruct (slot c') as [s'|] eqn:Hs'; [|done].
    rewrite read_write_ne; [done|]. intros ->. by destruct (Hc (slot_inj _ _ _ Hs' Hs)).
  - intros k c Hr Hne. rewrite Hr. by rewrite lookup_insert_ne.
  - eexists. split; [reflexivity|]. by rewrite read_write, lookup_delete_eq.
Qed.

Lemma set_then_get_witness :
  slot "scores" = Some (Added "scores") /\
  exists m', set (fun v : string => v) "ann" "7" "scores" (new_memory string)
             = Some (m', ["loaded"]) /\
             get "ann" "scores" m' = Some (Value "7").
Proof.
  split; [reflexivity|].
  destruct (set_then_get (fun v : string => v) "ann" "scores" "7"
              (new_memory string) (Added "scores") eq_refl)
    as (m' & H1 & H2 & _); [discriminate|].
  exists m'. split; assumption.
Defined.

(** X11: reading or deleting in a collection that was never created
    throws a [TypeError], while a key missing from an existing collection
    reads as [undefined] (or as what every object inherits under that name,
    such as ['toString']) and deleting it changes nothing. *)
Theorem missing_collection_throws {Val} (key name : string) (m : Memory Val) :
  slot name = Some (Added name) ->
  (collections m !! name = None ->
     get key name m = Some TypeError /\ unset key name m = Some TypeError) /\
  (forall c, collections m !! name = Some c -> c !! key = None ->
     get key name m = Some (absent key) /\ unset key name m = Some (Value m)).
Proof.
  intros Hs. unfold get, unset. rewrite Hs. simpl. split.
  - intros ->. done.
  - intros c Hc Hk. rewrite Hc, Hk. split; [done|].
    rewrite delete_id by done. rewrite insert_id by done. by destruct m.
Qed.

Lemma missing_collection_throws_witness :
  slot "scores" = Some (Added "scores") /\
  get "ann" "scores" (new_memory string) = Some TypeError.
Proof.
  split; [reflexivity|].
  exact (proj1 (proj1 (missing_collection_throws "ann" "scores" (new_memory string)
                         eq_refl) eq_refl)).
Defined.

(** A world in which the periodic save is running. *)
Definition saving : World string unit :=
  mkWorld (mkMemory ∅ ∅ ∅ (mkSaveInterval (Some 0) 5000) ∅) (Some tt) true [0] 1 [].

(** X15: [setSaveInterval] does not clear a timer that is already armed:
    called on a world whose periodic save is running it arms a second timer,
    and the first one can no longer be cleared, since [clearSaveInterval]
    only knows the last handle. *)
Theorem setSaveInterval_leaks {Val S} (n : option Z) (w : World Val S)
    (s : S) (t : nat) :
  storage w = Some s ->
  autoSave w = true ->
  In t (armed w) ->
  t < fresh Val S w ->
  In t (armed (setSaveInterval n w)) /\
  In (fresh Val S w) (armed (setSaveInterval n w)) /\
  In t (armed (clearSaveInterval (setSaveInterval n w))).
Proof.
  intros Hs Ha Hin Hlt. unfold setSaveInterval. rewrite Hs, Ha. simpl.
  split; [by right|]. split; [by left|].
  unfold clearSaveInterval. simpl.
  apply list_elem_of_In, list_elem_of_filter. split; [lia|].
  apply list_elem_of_In. by right.
Qed.

Lemma setSaveInterval_leaks_witness :
  In 0 (armed (clearSaveInterval (setSaveInterval None saving))).
Proof.
  refine (proj2 (proj2 (setSaveInterval_leaks None saving tt 0 eq_refl eq_refl _ _))).
  - by left.
  - simpl. lia.
Defined.

Lemma lookup_assign {Val} (a b : gmap string Val) (k : string) :
  assign a b !! k = match b !! k with Some v => Some v | None => a !! k end.
Proof.
  unfold assign. rewrite lookup_union. destruct (b !! k), (a !! k); done.
Qed.



End MemoryOpsProps.

(* ===================================================================== *)
(** * lib/memory.ts: [save] and [shutdown], turn by turn *)
(* ===================================================================== *)

Module MemoryTurns.
Import Memory.

(** The two asynchronous methods followed here. *)
Inductive Call :=
| CSave
| CShutdown.

(** The [await] at which an activation is suspended: that of [save], on
    [adapter.adapters.storage.saveMemory(memory)], and that of [shutdown],
    on [this.save()]. *)
Inductive Frame :=
| SvAwaitAdapter
| SdAwaitSave.

(** A task is one call of a method with the method it is awaiting
    (innermost first).  [ready] tells whether the promise awaited by the
    innermost frame has settled, and how. *)
Inductive Task :=
| Running (frames : list Frame) (ready : option Outcome)
| Settled (out : Outcome).

(** How a method leaves the synchronous part of a turn. *)
Inductive Ret :=
| Suspend (frames : list Frame) (ready : option Outcome)
| Return (out : Outcome).

Section Turns.

Variable Val : Type.
Variable S : Type.

(** [async save ()] up to its [await]. *)
Definition save (w : World Val S) : World Val S * Ret :=
  match storage w with
  | None => (w, Return Resolved)
  | Some _ => (clearSaveInterval w, Suspend [SvAwaitAdapter] None)
  end.

(** [await f()] from a method that continues at [parent]: an [await] always
    suspends, also when the promise of [f] is settled already. *)
Definition await_call (parent : Frame) (r : World Val S * Ret) : World Val S * Ret :=
  match r with
  | (w, Suspend frames ready) => (w, Suspend (frames ++ [parent]) ready)
  | (w, Return out) => (w, Suspend [parent] (Some out))
  end.

(** [async shutdown ()] up to its [await]. *)
Definition shutdown (w : World Val S) : World Val S * Ret :=
  await_call SdAwaitSave (save w).

Definition call (c : Call) (w : World Val S) : World Val S * Ret :=
  match c with
  | CSave => save w
  | CShutdown => shutdown w
  end.

(** The turn that starts when the promise awaited at [f] has settled, with
    the lines it logs at level info: [save] arms the timer again when the
    adapter resolved; [shutdown] clears the timer and logs when [save]
    resolved.  A rejection is passed on. *)
Definition resume (f : Frame) (out : Outcome) (w : World Val S)
  : World Val S * Ret * list string :=
  match f, out with
  | SvAwaitAdapter, Resolved => (setSaveInterval None w, Return Resolved, [])
  | SdAwaitSave, Resolved =>
      (clearSaveInterval w, Return Resolved, ["[memory] saving is disabled"])
  | _, Rejected e => (w, Return (Rejected e), [])
  end.

(** The host: the world of the memory, the tasks (a task being known by its
    position) and the lines logged at level info. *)
Record Host := mkHost {
  world : World Val S;
  tasks : list Task;
  infos : list string
}.

Definition place (r : Ret) (rest : list Frame) : Task :=
  match r with
  | Suspend frames ready => Running (frames ++ rest) ready
  | Return out =>
      match rest with
      | [] => Settled out
      | _ => Running rest (Some out)
      end
  end.

(** A new task, run up to its first [await]. *)
Definition start (r : World Val S * Ret) (h : Host) : Host :=
  mkHost r.1 (tasks h ++ [place r.2 []]) (infos h).

Definition running (tk : Task) : bool :=
  match tk with
  | Running _ _ => true
  | Settled _ => false
  end.

(** A task whose awaited promise has settled: its continuation is waiting
    in the queue of microtasks. *)
Definition due (tk : Task) : bool :=
  match tk with
  | Running _ (Some _) => true
  | _ => false
  end.

(** What may happen next: code calls a method; the interval timer [t]
    fires and calls [() => this.save()]; a task has its next turn,
    [answer] being what the storage adapter answers to [saveMemory] (an
    error, or its new state) when that is what the task awaits. *)
Inductive Label :=
| Invoke (c : Call)
| Tick (t : nat)
| Resume (k : nat) (answer : Error + S).

(** How the promise awaited by the innermost frame settles. *)
Definition settles (f : Frame) (ready : option Outcome) (answer : Error + S)
  : option Outcome :=
  match f, ready with
  | SvAwaitAdapter, _ =>
      Some (match answer with inl e => Rejected e | inr _ => Resolved end)
  | SdAwaitSave, Some out => Some out
  | SdAwaitSave, None => None
  end.

(** One turn.  A label that does not apply leaves the host as it is: a
    timer fires only while it is armed, and between two turns of the event
    loop, hence not while a continuation is due. *)
Definition step (h : Host) (l : Label) : Host :=
  match l with
  | Invoke c => start (call c (world h)) h
  | Tick t =>
      if existsb (Nat.eqb t) (armed (world h)) && negb (existsb due (tasks h))
      then start (save (world h)) h
      else h
  | Resume k answer =>
      match tasks h !! k with
      | Some (Running (f :: rest) ready) =>
          match settles f ready answer with
          | Some out =>
              let w := match f, answer with
                       | SvAwaitAdapter, inr s' => with_storage s' (world h)
                       | _, _ => world h
                       end in
              let '(w', r, lines) := resume f out w in
              mkHost w' (<[k := place r rest]> (tasks h)) (infos h ++ lines)
          | None => h
          end
      | _ => h
      end
  end.

Definition run (h : Host) (ls : list Label) : Host := fold_left step ls h.

(** A save or a shutdown is in flight. *)
Definition in_flight (h : Host) : bool := existsb running (tasks h).

(** A schedule in which code calls [save] and [shutdown] only while none
    is in flight. *)
Definition calm (h : Host) (l : Label) : bool :=
  match l with
  | Invoke _ => negb (in_flight h)
  | _ => true
  end.

Fixpoint calm_run (h : Host) (ls : list Label) : bool :=
  match ls with
  | [] => true
  | l :: ls' => calm h l && calm_run (step h l) ls'
  end.

(** At most one save timer is armed in the host, the one recorded in
    [intervals.save.timer]. *)
Definition tidy (w : World Val S) : Prop :=
  armed w = [] \/
  exists t, armed w = [t] /\ timer (intervals (memory w)) = Some t.

End Turns.

Arguments save {Val S}.
Arguments await_call {Val S}.
Arguments shutdown {Val S}.
Arguments call {Val S}.
Arguments resume {Val S}.
Arguments mkHost {Val S}.
Arguments world {Val S}.
Arguments tasks {Val S}.
Arguments infos {Val S}.
Arguments start {Val S}.
Arguments Invoke {S}.
Arguments Tick {S}.
Arguments Resume {S}.
Arguments settles {S}.
Arguments step {Val S}.
Arguments run {Val S}.
Arguments in_flight {Val S}.
Arguments calm {Val S}.
Arguments calm_run {Val S}.
Arguments tidy {Val S}.

End MemoryTurns.

Module MemoryTurnsProps.
Import Memory MemoryTurns.

Section Timers.

Context {Val S : Type}.

Lemma tidy_clear (w : World Val S) :
  tidy w -> armed (clearSaveInterval w) = [].
Proof.
  unfold tidy, clearSaveInterval. intros [H|(t & H & Ht)].
  - destruct (timer (intervals (memory w))); simpl; by rewrite H.
  - rewrite Ht. simpl. rewrite H.
    rewrite filter_cons_False by (intros Hne; by apply Hne). done.
Qed.

(** What [setSaveInterval ()] arms when no timer is armed. *)
Lemma armed_set (w : World Val S) :
  armed w = [] ->
  armed (setSaveInterval None w) =
    (if autoSave w then match storage w with Some _ => [fresh Val S w] | None => [] end
     else []) /\
  tidy (setSaveInterval None w).
Proof.
  intros Ha. unfold setSaveInterval.
  destruct (storage w) as [s|], (autoSave w); simpl; rewrite ?Ha;
    (split; [done|]); try (by left).
  right. by exists (fresh Val S w).
Qed.

(** The tasks are settled, but for one at most, which awaits the adapter
    while no timer is armed, or has its continuation due. *)
Definition over (tk : Task) : Prop := exists out, tk = Settled out.

Definition active (tk : Task) (w : World Val S) : Prop :=
  ((tk = Running [SvAwaitAdapter] None \/
    tk = Running [SvAwaitAdapter; SdAwaitSave] None) /\ armed w = []) \/
  exists out, tk = Running [SdAwaitSave] (Some out) /\
              (out = Resolved \/ armed w = []).

Definition orderly (h : Host Val S) : Prop :=
  tidy (world h) /\
  (Forall over (tasks h) \/
   exists pre tk post,
     tasks h = (pre ++ tk :: post)%list /\
     Forall over pre /\ Forall over post /\ active tk (world h)).

Lemma in_flight_active (pre post : list Task) (tk : Task) (w : World Val S) :
  active tk w -> existsb running (pre ++ tk :: post) = true.
Proof.
  intros H. rewrite existsb_app. simpl.
  destruct H as [[[->| ->] _]|(out & -> & _)]; simpl; by rewrite orb_true_r.
Qed.

(** What a call started while nothing is in flight leaves. *)
Lemma start_orderly (c : Call) (h : Host Val S) :
  tidy (world h) -> Forall over (tasks h) -> orderly (start (call c (world h)) h).
Proof.
  intros Ht Ho. unfold start, orderly.
  assert (Hcases : (exists out, call c (world h) = (world h, Return out)) \/
                   (call c (world h) = (world h, Suspend [SdAwaitSave] (Some Resolved))) \/
                   (exists fs, call c (world h) = (clearSaveInterval (world h), Suspend fs None) /\
                               (fs = [SvAwaitAdapter] \/ fs = [SvAwaitAdapter; SdAwaitSave]))).
  { destruct c; unfold call, shutdown, save; destruct (storage (world h)); simpl; eauto 10. }
  destruct Hcases as [[out ->]|[->|(fs & -> & Hfs)]]; simpl.
  - split; [done|]. left. apply Forall_app. split; [done|]. repeat constructor. by exists out.
  - split; [done|]. right. exists (tasks h), (Running [SdAwaitSave] (Some Resolved)), [].
    split; [done|]. split; [done|]. split; [done|].
    right. exists Resolved. split; [done|]. by left.
  - pose proof (tidy_clear _ Ht) as Hc. split; [by left|].
    right. exists (tasks h), (Running (fs ++ []) None), [].
    rewrite app_nil_r. split; [done|]. split; [done|]. split; [done|].
    left. split; [|done]. destruct Hfs as [->| ->]; auto.
Qed.

Lemma lookup_over (l : list Task) (k : nat) (f : Frame) (rest : list Frame)
    (ready : option Outcome) :
  Forall over l -> l !! k <> Some (Running (f :: rest) ready).
Proof.
  intros Ho Hk. apply (Forall_lookup_1 _ _ _ _ Ho) in Hk as [out Hk]. discriminate.
Qed.

(** The task that is not over is the active one. *)
Lemma orderly_lookup (h : Host Val S) (k : nat) (f : Frame)
    (rest : list Frame) (ready : option Outcome) :
  orderly h ->
  tasks h !! k = Some (Running (f :: rest) ready) ->
  exists pre post,
    tasks h = (pre ++ Running (f :: rest) ready :: post)%list /\
    k = length pre /\ Forall over pre /\ Forall over post /\
    active (Running (f :: rest) ready) (world h).
Proof.
  intros [_ [Ho|(pre & tk & post & Hts & Hpre & Hpost & Ha)]] Hk;
    [by destruct (lookup_over _ _ _ _ _ Ho Hk)|].
  rewrite Hts in Hk. destruct (decide (k < length pre)) as [Hlt|Hge].
  { rewrite lookup_app_l in Hk by done. by destruct (lookup_over _ _ _ _ _ Hpre Hk). }
  destruct (decide (k = length pre)) as [->|Hne].
  - rewrite list_lookup_middle in Hk by done. injection Hk as ->.
    by exists pre, post.
  - rewrite lookup_app_r in Hk by lia.
    destruct (k - length pre) as [|j] eqn:Ej; [lia|]. simpl in Hk.
    by destruct (lookup_over _ _ _ _ _ Hpost Hk).
Qed.

(** Every turn of a calm schedule keeps the timers and the tasks orderly. *)
Lemma step_orderly (h : Host Val S) (l : Label S) :
  orderly h -> calm h l = true -> orderly (step h l).
Proof.
  intros Hord Hc. pose proof Hord as [Ht Hs].
  destruct l as [c|t|k answer]; unfold step.
  - simpl in Hc. apply negb_true_iff in Hc. unfold in_flight in Hc.
    destruct Hs as [Ho|(pre & tk & post & Hts & _ & _ & Ha)].
    + by apply start_orderly.
    + rewrite Hts, (in_flight_active pre post tk _ Ha) in Hc. discriminate.
  - destruct (existsb (Nat.eqb t) (armed (world h)) && negb (existsb due (tasks h)))
      eqn:E; [|done].
    apply andb_true_iff in E as [E1 E2]. apply negb_true_iff in E2.
    destruct Hs as [Ho|(pre & tk & post & Hts & _ & _ & Ha)].
    + exact (start_orderly CSave h Ht Ho).
    + exfalso. destruct Ha as [[_ Ha]|(out & -> & _)].
      * rewrite Ha in E1. discriminate.
      * rewrite Hts, existsb_app in E2. simpl in E2. by rewrite orb_true_r in E2.
  - destruct (tasks h !! k) as [[[|f rest] ready|]|] eqn:Hk; try done.
    destruct (orderly_lookup h k f rest ready Hord Hk)
      as (pre & post & Hts & -> & Hpre & Hpost & Ha).
    assert (Hins : forall x, <[length pre := x]> (tasks h) = (pre ++ x :: post)%list).
    { intros x. rewrite Hts, insert_app_r_alt, Nat.sub_diag by done. done. }
    assert (Hdone : forall o, Forall over (pre ++ Settled o :: post)).
    { intros o. apply Forall_app. split; [done|]. constructor; [by eexists|done]. }
    destruct Ha as [[[Hf|Hf] Ha]|(out & Hf & Hout)]; injection Hf as -> -> ->; simpl.
    + destruct answer as [e|s']; simpl; rewrite Hins.
      * split; [done|]. left. apply Hdone.
      * destruct (armed_set (with_storage s' (world h)) Ha) as [_ Hti].
        split; [exact Hti|]. left. apply Hdone.
    + destruct answer as [e|s']; simpl; rewrite Hins.
      * split; [done|]. right. exists pre, (Running [SdAwaitSave] (Some (Rejected e))), post.
        split; [done|]. split; [done|]. split; [done|].
        right. exists (Rejected e). split; [done|]. by right.
      * destruct (armed_set (with_storage s' (world h)) Ha) as [_ Hti].
        split; [exact Hti|]. right.
        exists pre, (Running [SdAwaitSave] (Some Resolved)), post.
        split; [done|]. split; [done|]. split; [done|].
        right. exists Resolved. split; [done|]. by left.
    + destruct out as [|e]; simpl; rewrite Hins.
      * split; [left; by apply tidy_clear|]. left. apply Hdone.
      * split; [done|]. left. apply Hdone.
Qed.

Lemma run_orderly (ls : list (Label S)) : forall h : Host Val S,
  orderly h -> calm_run h ls = true -> orderly (run h ls).
Proof.
  induction ls as [|l ls IH]; intros h Ho Hc; simpl; [done|].
  simpl in Hc. apply andb_true_iff in Hc as [Hl Hc].
  apply IH; [by apply step_orderly|done].
Qed.

Lemma idle_orderly (h : Host Val S) :
  tidy (world h) -> in_flight h = false -> orderly h.
Proof.
  intros Ht Hi. split; [done|]. left. unfold in_flight in Hi.
  apply Forall_forall. intros tk Hin.
  destruct tk as [fs rdy|out]; [|by exists out].
  assert (existsb running (tasks h) = true); [|congruence].
  apply existsb_exists. exists (Running fs rdy). split; [|done].
  by apply list_elem_of_In.
Qed.

(** A save that is awaiting the adapter, in an orderly host. *)
Lemma awaiting_adapter (h : Host Val S) (k : nat) (rest : list Frame) :
  orderly h ->
  tasks h !! k = Some (Running (SvAwaitAdapter :: rest) None) ->
  armed (world h) = [].
Proof.
  intros Ho Hk.
  destruct (orderly_lookup h k _ _ _ Ho Hk) as (_ & _ & _ & _ & _ & _ & Ha).
  destruct Ha as [[_ Ha]|(out & Hf & _)]; [done|discriminate].
Qed.

(** A shutdown whose save was rejected finds no timer armed. *)
Lemma after_rejected_save (h : Host Val S) (k : nat) (e : Error) :
  orderly h ->
  tasks h !! k = Some (Running [SdAwaitSave] (Some (Rejected e))) ->
  armed (world h) = [].
Proof.
  intros Ho Hk.
  destruct (orderly_lookup h k _ _ _ Ho Hk) as (_ & _ & _ & _ & _ & _ & Ha).
  destruct Ha as [[[Hf|Hf] _]|(out & Hf & [->|Ha])]; try discriminate. done.
Qed.

(** X13: in a schedule where code calls [save] and [shutdown] only while
    none of them is in flight, at most one save timer is ever armed, and
    none while a save awaits the storage adapter: the periodic save cannot
    start a second time before it is over.  When the adapter then rejects,
    the save is rejected with that error and no timer is armed: periodic
    saving has stopped; when it resolves, one timer is armed if [autoSave]
    is set, and none otherwise. *)
Theorem save_rearms_unless_rejected (h0 : Host Val S) (ls : list (Label S))
    (k : nat) :
  tidy (world h0) ->
  in_flight h0 = false ->
  calm_run h0 ls = true ->
  tidy (world (run h0 ls)) /\
  (tasks (run h0 ls) !! k = Some (Running [SvAwaitAdapter] None) ->
   armed (world (run h0 ls)) = [] /\
   (forall t, step (run h0 ls) (Tick t) = run h0 ls) /\
   (forall e,
      tasks (step (run h0 ls) (Resume k (inl e))) !! k = Some (Settled (Rejected e)) /\
      armed (world (step (run h0 ls) (Resume k (inl e)))) = []) /\
   (forall s',
      tasks (step (run h0 ls) (Resume k (inr s'))) !! k = Some (Settled Resolved) /\
      armed (world (step (run h0 ls) (Resume k (inr s')))) =
        (if autoSave (world (run h0 ls))
         then [fresh Val S (world (run h0 ls))] else []))).
Proof.
  intros Ht Hi Hc.
  pose proof (run_orderly ls h0 (idle_orderly h0 Ht Hi) Hc) as Ho.
  split; [by destruct Ho|]. intros Hk.
  pose proof (awaiting_adapter _ k [] Ho Hk) as Ha.
  pose proof (lookup_lt_Some _ _ _ Hk) as Hlt.
  split; [exact Ha|]. split; [|split].
  - intros t. unfold step. by rewrite Ha.
  - intros e. unfold step. rewrite Hk. simpl.
    by rewrite list_lookup_insert_eq.
  - intros s'. unfold step. rewrite Hk. simpl.
    rewrite list_lookup_insert_eq by done. split; [done|].
    destruct (armed_set (with_storage s' (world (run h0 ls))) Ha) as [-> _].
    simpl. done.
Qed.

Lemma calm_run_app (a b : list (Label S)) : forall h : Host Val S,
  calm_run h (a ++ b) = calm_run h a && calm_run (run h a) b.
Proof.
  induction a as [|l a IH]; intros h; simpl; [done|].
  by rewrite IH, andb_assoc.
Qed.

(** The collections of two memories are the same. *)
Definition same_data (m m' : Memory Val) : Prop :=
  users m' = users m /\ rooms m' = rooms m /\ private m' = private m /\
  collections m' = collections m.

Lemma same_data_set (w : World Val S) :
  same_data (memory w) (memory (setSaveInterval None w)).
Proof.
  unfold setSaveInterval, same_data.
  destruct (storage w); [destruct (autoSave w)|]; simpl; auto.
Qed.

(** The next turn of the task started last. *)
Lemma resume_last (w : World Val S) (l : list Task) (inf : list string) (f : Frame)
    (rest : list Frame) (ready : option Outcome) (answer : Error + S) (out : Outcome) :
  settles f ready answer = Some out ->
  step (mkHost w (l ++ [Running (f :: rest) ready]) inf) (Resume (length l) answer)
  = mkHost (resume f out (match f, answer with
                          | SvAwaitAdapter, inr s' => with_storage s' w
                          | _, _ => w
                          end)).1.1
      (l ++ [place (resume f out (match f, answer with
                                  | SvAwaitAdapter, inr s' => with_storage s' w
                                  | _, _ => w
                                  end)).1.2 rest])
      (inf ++ (resume f out (match f, answer with
                             | SvAwaitAdapter, inr s' => with_storage s' w
                             | _, _ => w
                             end)).2).
Proof.
  intros Hs. unfold step. cbn [tasks world infos].
  rewrite list_lookup_middle by done. rewrite Hs.
  destruct (resume f out _) as [[w' r] lines]. cbn [fst snd].
  by rewrite insert_app_r_alt, Nat.sub_diag by done.
Qed.

(** The three turns of a [shutdown]. *)
Lemma shutdown_run (w : World Val S) (l : list Task) (inf : list string)
    (answer : Error + S) :
  run (mkHost w l inf) [Invoke CShutdown; Resume (length l) answer; Resume (length l) answer]
  = match storage w, answer with
    | None, _ =>
        mkHost (clearSaveInterval w) (l ++ [Settled Resolved])
          (inf ++ ["[memory] saving is disabled"])
    | Some _, inl e =>
        mkHost (clearSaveInterval w) (l ++ [Settled (Rejected e)]) ((inf ++ []) ++ [])
    | Some _, inr s' =>
        mkHost (clearSaveInterval
                  (setSaveInterval None (with_storage s' (clearSaveInterval w))))
          (l ++ [Settled Resolved]) ((inf ++ []) ++ ["[memory] saving is disabled"])
    end.
Proof.
  unfold run. cbn [fold_left]. unfold step at 3. cbn [world tasks infos].
  unfold call, shutdown, save, start.
  destruct (storage w) as [s|] eqn:Hs; cbn [await_call fst snd place app].
  - rewrite (resume_last _ l inf SvAwaitAdapter [SdAwaitSave] None answer
               (match answer with inl e => Rejected e | inr _ => Resolved end) eq_refl).
    destruct answer as [e|s']; cbn [resume fst snd place].
    + by rewrite (resume_last _ l _ SdAwaitSave [] (Some (Rejected e)) (inl e)
                    (Rejected e) eq_refl).
    + by rewrite (resume_last _ l _ SdAwaitSave [] (Some Resolved) (inr s')
                    Resolved eq_refl).
  - rewrite (resume_last _ l inf SdAwaitSave [] (Some Resolved) answer Resolved eq_refl).
    cbn [resume fst snd place]. unfold step. cbn [tasks].
    rewrite list_lookup_middle by done. by destruct answer.
Qed.


End Timers.

(** A host in which the periodic save is running. *)
Definition periodic : Host string unit :=
  mkHost MemoryOpsProps.saving [] [].

Lemma save_rearms_unless_rejected_witness :
  tidy (world periodic) /\
  armed (world (step (run periodic [Tick 0])
                  (Resume 0 (inl (AdapterFailure "disk full"))))) = [].
Proof.
  assert (Ht : tidy (world periodic)) by (right; by exists 0).
  split; [exact Ht|].
  exact (proj2 (proj1 (proj2 (proj2
    (proj2 (save_rearms_unless_rejected periodic [Tick 0] 0 Ht eq_refl eq_refl)
       eq_refl))) (AdapterFailure "disk full"))).
Defined.


(** The schedules have to be calm.  A [save] called while the periodic save
    is in flight ends with two timers armed, of which [clearSaveInterval]
    knows the last one only; a [shutdown] called then clears the timer that
    its own save armed, and resolves while the timer armed by the periodic
    save goes on. *)
Example overlapping_saves_leak_a_timer :
  let ls := [Tick 0; Invoke CSave; Resume 0 (inr tt); Resume 1 (inr tt)] in
  calm_run periodic ls = false /\
  armed (world (run periodic ls)) = [2; 1] /\
  armed (clearSaveInterval (world (run periodic ls))) = [1].
Proof. repeat split. Qed.

Example shutdown_during_save_leaves_a_timer :
  let ls := [Tick 0; Invoke CShutdown; Resume 0 (inr tt); Resume 1 (inr tt);
             Resume 1 (inr tt)] in
  calm_run periodic ls = false /\
  tasks (run periodic ls) !! 1 = Some (Settled Resolved) /\
  infos (run periodic ls) = ["[memory] saving is disabled"] /\
  armed (world (run periodic ls)) = [1].
Proof. repeat split. Qed.

(** A [save] that nothing overlaps, taken with the answer of the adapter,
    is the [save] of the one-step model. *)
Lemma lone_save_is_save {Val S : Type} (a : StorageAdapter Val S) (w : World Val S) :
  let answer := match storage w with
                | Some s => saveMemory Val S a s (memory w)
                | None => inl StorageUnavailable
                end in
  world (run (mkHost w [] []) [Invoke CSave; Resume 0 answer]) = (Memory.save a w).1 /\
  tasks (run (mkHost w [] []) [Invoke CSave; Resume 0 answer]) !! 0
  = Some (Settled (Memory.save a w).2).
Proof.
  cbv zeta. unfold Memory.save, run, step, start, call, save. simpl.
  destruct (storage w) as [s|] eqn:Hs; simpl; [|done].
  rewrite MemoryProps.memory_clearSaveInterval.
  by destruct (saveMemory Val S a s (memory w)).
Qed.

End MemoryTurnsProps.


(* ===================================================================== *)
(** * lib/middleware.ts: the order of a run, and the [Middlewares] collection *)
(* ===================================================================== *)

Module Middlewares.
Import Middleware.

(** The indices of the pieces run, in the order of the trace. *)
Definition ran (t : list Event) : list nat :=
  omap (fun e => match e with PieceRan i => Some i | _ => None end) t.

Section Collection.

Variable State : Type.

(** A piece that neither throws nor calls [done]. *)
Definition continues (p : Piece State) : Prop :=
  forall st s, In s (p st) -> s <> CallDone /\ forall err, s <> Throw err.

(** A piece that throws on every state, without having called [done]. *)
Definition throws (p : Piece State) : Prop :=
  forall st, (exists err, In (Throw err) (p st)) /\ ~ In CallDone (p st).

(** What a body throws: the value of its first [throw]. *)
Fixpoint thrown (body : list (Stmt State)) : option Thrown :=
  match body with
  | [] => None
  | Throw v :: _ => Some v
  | _ :: k => thrown k
  end.

(** [middlewareTypes] *)
Definition middlewareTypes : list string :=
  ["hear"; "listen"; "understand"; "serve"; "act"; "respond"; "remember"].

(** A [Middlewares] instance: the [Middleware] stored under each key. *)
Local Abbreviation Middlewares := (gmap string (Middleware State)).

(** [new Middleware(type)] *)
Definition new_Middleware (type : string) : Middleware State :=
  mkMiddleware type [].

(** [load ()] *)
Definition load (ms : Middlewares) : Middlewares :=
  foldl (fun acc type =>
           match acc !! type with
           | Some _ => acc
           | None => <[type := new_Middleware type]> acc
           end) ms middlewareTypes.

(** [unload ()] *)
Definition unload (ms : Middlewares) : Middlewares :=
  foldl (fun acc type => delete type acc) ms middlewareTypes.

(** [middleware[type]]: the register function that the loop over
    [middlewareTypes] defines for a type; [None]: the file defines none
    under that name. *)
Definition middleware (type : string)
  : option (Piece State -> Middlewares -> Middlewares) :=
  if existsb (String.eqb type) middlewareTypes then
    Some (fun middlewarePiece ms =>
            let ms1 := match ms !! type with
                       | Some _ => ms
                       | None => <[type := new_Middleware type]> ms
                       end in
            match ms1 !! type with
            | Some m => <[type := register middlewarePiece m]> ms1
            | None => ms1
            end)
  else None.

(** Every stack is stored under its own type. *)
Definition well_named (ms : Middlewares) : Prop :=
  forall key m, ms !! key = Some m -> type m = key.

End Collection.

Abbreviation Middlewares State := (gmap string (Middleware State)).

Arguments continues {State}.
Arguments throws {State}.
Arguments thrown {State}.
Arguments load {State}.
Arguments unload {State}.
Arguments middleware {State}.
Arguments well_named {State}.
Arguments new_Middleware {State}.

End Middlewares.

Module MiddlewaresProps.
Import Middleware MiddlewareProps Middlewares.

Section Order.

Context {State : Type}.

(** Events other than the run of a piece and the call of [complete]. *)
Definition only_done (t : list Event) : Prop :=
  Forall (fun e => exists j, e = DoneCalled j) t.

Lemma only_done_ran (t : list Event) : only_done t -> ran t = [].
Proof. induction 1 as [|e t [j ->] _ IH]; [done|]. simpl. exact IH. Qed.

Lemma only_done_complete (t : list Event) : only_done t -> ~ In CompleteCalled t.
Proof.
  induction 1 as [|e t [j ->] _ IH]; [by intros []|].
  intros [?|?]; [discriminate|done].
Qed.

Lemma ran_app (t u : list Event) : ran (t ++ u) = (ran t ++ ran u)%list.
Proof. unfold ran. apply omap_app. Qed.

Lemma run_piece_trace (i : nat) (d : Done State) (body : list (Stmt State)) :
  forall r, exists t,
    trace (run_piece i d body r).1 = (trace r ++ t)%list /\ only_done t.
Proof.
  induction body as [|s k IH]; intros r; simpl.
  - exists []. split; [by rewrite app_nil_r|constructor].
  - destruct s as [f|w| | |v]; simpl.
    + exact (IH (with_state (f (b r)) r)).
    + exact (IH (with_done (match w with Some w0 => w0 d | None => d end) r)).
    + destruct (IH (call_done false d (log (DoneCalled i) r))) as (t & Ht & Hd).
      exists (DoneCalled i :: t). split.
      * rewrite Ht. destruct (call_done_trace false d (log (DoneCalled i) r)) as [-> _].
        simpl. by rewrite <- app_assoc.
      * constructor; [by exists i|done].
    + destruct (IH (await r)) as (t & Ht & Hd).
      exists t. by rewrite Ht, (proj1 (await_trace r)).
    + exists []. split; [by rewrite app_nil_r|constructor].
Qed.

Lemma for_pieces_trace (ty : string) (ps : list (Piece State)) :
  forall i r, exists t k,
    trace (for_pieces ty i ps r).1 = (trace r ++ t)%list /\
    ran t = seq i k /\ k <= length ps /\ ~ In CompleteCalled t /\
    ((for_pieces ty i ps r).2 = None -> k = length ps).
Proof.
  induction ps as [|p ps IH]; intros i r; simpl.
  - exists [], 0. rewrite app_nil_r. repeat split; try done. by intros [].
  - unfold executePiece.
    destruct (run_piece_trace i (done r) (p (b r)) (log (PieceRan i) r))
      as (t1 & Ht1 & Hd1).
    destruct (run_piece i (done r) (p (b r)) (log (PieceRan i) r)) as [r' [v|]];
      simpl in *.
    + exists (PieceRan i :: t1), 1. rewrite (proj1 (await_trace r')), Ht1, <- app_assoc.
      simpl. rewrite (only_done_ran t1 Hd1). repeat split; try done; try lia.
      intros [?|?]; [discriminate|]. by apply (only_done_complete t1).
    + destruct (IH (S i) (await r')) as (t & k & Ht & Hr & Hk & Hc & Hn).
      exists (PieceRan i :: t1 ++ t)%list, (S k).
      rewrite Ht, (proj1 (await_trace r')), Ht1.
      rewrite <- !app_assoc. simpl. split; [done|].
      rewrite ran_app, (only_done_ran t1 Hd1). simpl. rewrite Hr.
      repeat split; try done; try lia.
      * intros [?|Hin]; [discriminate|]. apply in_app_iff in Hin as [?|?]; [|done].
        by apply (only_done_complete t1).
      * intros H. by rewrite (Hn H).
Qed.


(** No promise settled, nothing scheduled. *)
Definition unsettled (r : Run State) : Prop :=
  promise r = Pending /\ isPending r = true /\ queue r = [].

Lemma await_unsettled (r : Run State) :
  unsettled r -> unsettled (await r) /\ trace (await r) = trace r.
Proof.
  intros (H1 & H2 & H3). rewrite await_idle by done.
  unfold unsettled, then_callback. rewrite H1. simpl. by rewrite H1, H2.
Qed.

(** A piece that continues leaves the trace and the promise alone. *)
Lemma run_piece_continues (i : nat) (d : Done State) (body : list (Stmt State)) :
  (forall s, In s body -> s <> CallDone /\ forall err, s <> Throw err) ->
  forall r, unsettled r ->
            (run_piece i d body r).2 = None /\
            trace (run_piece i d body r).1 = trace r /\
            unsettled (run_piece i d body r).1.
Proof.
  induction body as [|s k IH]; intros Hq r Hu; simpl; [done|].
  assert (Hk : forall s, In s k -> s <> CallDone /\ forall err, s <> Throw err)
    by (intros s' ?; apply Hq; by right).
  destruct (Hq s (or_introl eq_refl)) as [H1 H2].
  destruct s as [f|w| | |v]; simpl.
  - exact (IH Hk (with_state (f (b r)) r) Hu).
  - exact (IH Hk (with_done (match w with Some w0 => w0 d | None => d end) r) Hu).
  - done.
  - destruct (await_unsettled r Hu) as [Hu' Ht].
    destruct (IH Hk (await r) Hu') as (? & ? & ?). by rewrite <- Ht.
  - by destruct (H2 v).
Qed.

Lemma for_pieces_continues (ty : string) (ps : list (Piece State)) :
  Forall continues ps ->
  forall i r, unsettled r ->
              (for_pieces ty i ps r).2 = None /\
              trace (for_pieces ty i ps r).1 =
                (trace r ++ map PieceRan (seq i (length ps)))%list /\
              unsettled (for_pieces ty i ps r).1.
Proof.
  induction 1 as [|p ps Hp _ IH]; intros i r Hu; simpl.
  - by rewrite app_nil_r.
  - unfold executePiece.
    destruct (run_piece_continues i (done r) (p (b r)) (Hp (b r)) (log (PieceRan i) r) Hu)
      as (He & Ht & Hu1).
    destruct (run_piece i (done r) (p (b r)) (log (PieceRan i) r)) as [r' [v|]];
      simpl in *; [done|].
    destruct (await_unsettled r' Hu1) as [Hu2 Ht2].
    destruct (IH (S i) (await r') Hu2) as (He' & Ht' & Hu').
    rewrite He', Ht', Ht2, Ht. simpl. by rewrite <- app_assoc.
Qed.

(** X17: when no piece throws or calls [done], every piece runs, then
    [complete] is invoked, once.  If [complete] returns and the pieces honour
    the contract of [next], the promise is resolved with the state; if
    [complete] throws, the promise is rejected with that error as it was
    thrown: no middleware type is added to it. *)
Theorem uninterrupted_stack_completes (m : Middleware State) (state : State)
    (complete : Complete State) :
  Forall continues (stack m) ->
  trace (execute m state complete) =
    (map PieceRan (seq 0 (length (stack m))) ++ [CompleteCalled])%list /\
  ((forall st, (complete st).2 = None) -> Forall honours_next (stack m) ->
     promise (execute m state complete) = Fulfilled) /\
  (forall err, (forall st, (complete st).2 = Some err) ->
     promise (execute m state complete) = Rejected err).
Proof.
  intros Hq. unfold execute. rewrite eventually_trace. unfold reduceStack.
  set (r0 := with_done Resolve (mkRun state Resolve Pending [] true [])).
  assert (Hu0 : unsettled r0) by done.
  destruct (for_pieces_continues (type m) (stack m) Hq 0 r0 Hu0) as (He & Ht & Hu).
  pose proof (fun H => for_pieces_reaches (type m) (stack m) H 0 r0 eq_refl) as HI.
  destruct (for_pieces (type m) 0 (stack m) r0) as [r1 [err|]]; simpl in *; [done|].
  destruct Hu as (Hp & Hpend & Hqu). rewrite Hpend.
  match goal with |- context [complete ?x] =>
    assert (Hall : forall o, (forall st, (complete st).2 = o) -> o = (complete x).2)
      by (intros o e; by rewrite (e x));
    destruct (complete x) as [st oerr] end.
  simpl in Hall.
  split; [|split].
  - destruct oerr as [err|].
    + rewrite trace_reject. simpl. by rewrite Ht.
    + rewrite (proj1 (await_trace _)), (proj1 (call_done_trace _ _ _)),
        (proj1 (await_trace _)).
      simpl. by rewrite Ht.
  - intros Hnone Hh. rewrite <- (Hall None Hnone).
    set (r2 := with_state st (log CompleteCalled r1)).
    assert (Hu2 : unsettled r2) by done.
    destruct (await_unsettled r2 Hu2) as [(Hp3 & _ & _) _].
    assert (Hr3 : unrejected (await r2)) by (intros e; by rewrite Hp3).
    destruct (call_done_bound false (done (await r2)) (await r2) Hr3) as (Hr4 & _ & Hb4).
    assert (Hd : reaches_resolve (done (await r2)) = true).
    { rewrite (proj2 (await_trace r2)). exact (HI Hh). }
    destruct (await_bound _ Hr4 (Hb4 Hd)) as [Hr5 Hb5].
    by apply eventually_fulfils.
  - intros err Hsome. rewrite <- (Hall (Some err) Hsome).
    assert (Hrej : reject err (with_state st (log CompleteCalled r1))
                   = mkRun st (done r1) (Rejected err)
                       (trace r1 ++ [CompleteCalled]) (isPending r1) (queue r1)).
    { unfold reject. simpl. by rewrite Hp. }
    rewrite Hrej, eventually_idle; done.
Qed.

Lemma for_pieces_app (ty : string) (pre rest : list (Piece State)) :
  forall i r,
    for_pieces ty i (pre ++ rest) r =
      match for_pieces ty i pre r with
      | (r', Some err) => (r', Some err)
      | (r', None) => for_pieces ty (i + length pre) rest r'
      end.
Proof.
  induction pre as [|p pre IH]; intros i r; simpl.
  - by rewrite Nat.add_0_r.
  - destruct (executePiece ty i p r) as [r' [err|]]; [done|].
    rewrite IH. by rewrite Nat.add_succ_r.
Qed.

Lemma run_piece_throws (i : nat) (d : Done State) (body : list (Stmt State)) :
  (exists v, In (Throw v) body) -> ~ In CallDone body ->
  forall r, unsettled r ->
            (exists v, thrown body = Some v /\ (run_piece i d body r).2 = Some v) /\
            trace (run_piece i d body r).1 = trace r /\
            unsettled (run_piece i d body r).1.
Proof.
  induction body as [|s k IH]; intros [v Hin] Hnd r Hu; [by destruct Hin|].
  assert (Hk : ~ In CallDone k) by (intros ?; apply Hnd; by right).
  destruct s as [f|w| | |e]; simpl.
  - destruct Hin as [?|Hin]; [discriminate|].
    exact (IH (ex_intro _ v Hin) Hk (with_state (f (b r)) r) Hu).
  - destruct Hin as [?|Hin]; [discriminate|].
    exact (IH (ex_intro _ v Hin) Hk
             (with_done (match w with Some w0 => w0 d | None => d end) r) Hu).
  - destruct Hnd. by left.
  - destruct Hin as [?|Hin]; [discriminate|].
    destruct (await_unsettled r Hu) as [Hu' Ht].
    destruct (IH (ex_intro _ v Hin) Hk (await r) Hu') as (? & ? & ?).
    by rewrite <- Ht.
  - split; [by exists e|done].
Qed.

(** X18: when a piece throws and no piece before it called [done] or
    threw, the pieces registered after it are not run, [complete] is not
    invoked, and the promise is rejected.  When the piece threw an object
    that takes new properties, such as an [Error], the promise is rejected
    with that object, which then carries the type of the middleware; when it
    threw anything else (a string, [null], a frozen object) the promise is
    rejected with the [TypeError] raised by the catch block, which carries
    no middleware type. *)
Theorem throwing_piece_stops_stack (m : Middleware State) (state : State)
    (complete : Complete State) (pre post : list (Piece State)) (p : Piece State) :
  stack m = (pre ++ p :: post)%list ->
  Forall continues pre ->
  throws p ->
  trace (execute m state complete) = map PieceRan (seq 0 (S (length pre))) /\
  exists st v,
    thrown (p st) = Some v /\
    promise (execute m state complete) =
      Rejected (match v with
                | Object err => mkError (message err) (Some (type m))
                | Sealed typeError => mkError typeError None
                end).
Proof.
  intros Hs Hq Hp. unfold execute. rewrite eventually_trace. unfold reduceStack.
  rewrite Hs, for_pieces_app.
  set (r0 := with_done Resolve (mkRun state Resolve Pending [] true [])).
  assert (Hu0 : unsettled r0) by done.
  destruct (for_pieces_continues (type m) pre Hq 0 r0 Hu0) as (He & Ht & Hu).
  destruct (for_pieces (type m) 0 pre r0) as [r1 [err|]]; simpl in *; [done|].
  unfold executePiece.
  destruct (Hp (b r1)) as [Hthrow Hnd].
  destruct (run_piece_throws (length pre) (done r1) (p (b r1)) Hthrow Hnd
              (log (PieceRan (length pre)) r1) Hu) as ((v & Hv & Herr) & Ht' & Hu').
  destruct (run_piece (length pre) (done r1) (p (b r1)) (log (PieceRan (length pre)) r1))
    as [r2 oerr]; simpl in *. subst oerr.
  destruct (await_unsettled r2 Hu') as [(Hp3 & Hi3 & Hq3) Ht3].
  rewrite trace_reject, Ht3, Ht', Ht. split.
  - transitivity (map PieceRan (seq 0 (S (length pre)))); [|reflexivity].
    rewrite seq_S, map_app. reflexivity.
  - exists (b r1), v. split; [exact Hv|].
    rewrite eventually_idle by (by rewrite queue_reject).
    unfold reject. rewrite Hp3. simpl. by destruct v.
Qed.

End Order.

(** A stack of two pieces, the second of which throws. *)
Definition second_throws : Middleware nat :=
  mkMiddleware "hear"
    [ fun _ => [Mutate S; Next None];
      fun _ => [Throw (Object (mkError "boom" None))];
      fun _ => [Mutate S] ].

Lemma uninterrupted_stack_completes_witness :
  trace (execute (mkMiddleware "hear" [fun _ : nat => [Mutate S; Next None]])
           0 (fun st => (st, None)))
  = [PieceRan 0; CompleteCalled].
Proof.
  refine (proj1 (uninterrupted_stack_completes
                   (mkMiddleware "hear" [fun _ : nat => [Mutate S; Next None]])
                   0 (fun st => (st, None)) _)).
  repeat constructor; try discriminate.
  all: destruct H as [<-|[<-|[]]]; discriminate.
Defined.

Lemma throwing_piece_stops_stack_witness :
  trace (execute second_throws 0 (fun st => (st, None))) = [PieceRan 0; PieceRan 1].
Proof.
  refine (proj1 (throwing_piece_stops_stack second_throws 0 (fun st => (st, None))
                   [fun _ => [Mutate S; Next None]] [fun _ => [Mutate S]]
                   (fun _ => [Throw (Object (mkError "boom" None))]) eq_refl _ _)).
  - repeat constructor; try discriminate.
    all: destruct H as [<-|[<-|[]]]; discriminate.
  - intros st. split; [eexists; by left|]. intros [?|[]]. discriminate.
Defined.

Section Registry.

Context {State : Type}.

Lemma load_fold_lookup (l : list string) : forall (ms : Middlewares State) (k : string),
  foldl (fun acc type =>
           match acc !! type with
           | Some _ => acc
           | None => <[type := new_Middleware type]> acc
           end) ms l !! k
  = if decide (k ∈ l) then Some (default (new_Middleware k) (ms !! k)) else ms !! k.
Proof.
  induction l as [|x l IH]; intros ms k; cbn [foldl].
  - destruct (decide (k ∈ [])) as [Hin|_]; [by apply elem_of_nil in Hin|done].
  - rewrite IH.
    destruct (decide (k ∈ l)) as [Hin|Hin], (decide (k ∈ x :: l)) as [Hin'|Hin'].
    + destruct (ms !! x) eqn:Hx; cbn beta iota; [done|].
      destruct (decide (k = x)) as [->|Hne].
      * by rewrite lookup_insert_eq, Hx.
      * by rewrite lookup_insert_ne.
    + destruct Hin'. by right.
    + apply elem_of_cons in Hin' as [->|?]; [|done].
      destruct (ms !! x) eqn:Hx; cbn beta iota; [by rewrite Hx|]. by rewrite lookup_insert_eq.
    + destruct (ms !! x) eqn:Hx; cbn beta iota; [done|].
      rewrite lookup_insert_ne; [done|]. intros ->. apply Hin'. by left.
Qed.

Lemma load_lookup (ms : Middlewares State) (k : string) :
  load ms !! k =
    if decide (k ∈ middlewareTypes) then Some (default (new_Middleware k) (ms !! k))
    else ms !! k.
Proof. apply load_fold_lookup. Qed.

Lemma unload_fold_lookup (l : list string) : forall (ms : Middlewares State) (k : string),
  foldl (fun acc type => delete type acc) ms l !! k
  = if decide (k ∈ l) then None else ms !! k.
Proof.
  induction l as [|x l IH]; intros ms k; cbn [foldl].
  - destruct (decide (k ∈ [])) as [Hin|_]; [by apply elem_of_nil in Hin|done].
  - rewrite IH.
    destruct (decide (k ∈ l)) as [Hin|Hin], (decide (k ∈ x :: l)) as [Hin'|Hin'].
    + done.
    + destruct Hin'. by right.
    + apply elem_of_cons in Hin' as [->|?]; [|done]. apply lookup_delete_eq.
    + rewrite lookup_delete_ne; [done|]. intros ->. apply Hin'. by left.
Qed.

Lemma unload_lookup (ms : Middlewares State) (k : string) :
  unload ms !! k = if decide (k ∈ middlewareTypes) then None else ms !! k.
Proof. apply unload_fold_lookup. Qed.

(** X19: after [load] each of the seven types has a stack, stored under
    its own type; a stack that was there before keeps its pieces, a missing
    one starts empty; other keys are left alone, and loading again changes
    nothing.  [unload] removes the stacks of the seven types and nothing
    else, so that [load] after [unload] gives seven empty stacks: the pieces
    registered before are forgotten. *)
Theorem load_and_unload (ms : Middlewares State) :
  (forall ty, ty ∈ middlewareTypes ->
     load ms !! ty = Some (default (new_Middleware ty) (ms !! ty)) /\
     unload ms !! ty = None /\
     load (unload ms) !! ty = Some (new_Middleware ty)) /\
  (forall key, key ∉ middlewareTypes ->
     load ms !! key = ms !! key /\ unload ms !! key = ms !! key) /\
  (well_named ms -> well_named (load ms)) /\
  load (load ms) = load ms.
Proof.
  split; [|split; [|split]].
  - intros ty Hin. rewrite !load_lookup, !unload_lookup, !decide_True by done. done.
  - intros key Hin. by rewrite load_lookup, unload_lookup, !decide_False.
  - intros Hw key m. rewrite load_lookup. destruct (decide (key ∈ middlewareTypes)).
    + destruct (ms !! key) as [m0|] eqn:Hk; simpl; intros [= <-]; [by apply Hw|done].
    + apply Hw.
  - apply map_eq. intros k. rewrite !load_lookup.
    destruct (decide (k ∈ middlewareTypes)); [|done]. by destruct (ms !! k).
Qed.

Lemma types_existsb (ty : string) :
  existsb (String.eqb ty) middlewareTypes = true <-> ty ∈ middlewareTypes.
Proof.
  rewrite existsb_exists. split.
  - intros (x & Hin & ->%String.eqb_eq). by apply list_elem_of_In.
  - intros Hin. exists ty. split; [by apply list_elem_of_In|apply String.eqb_refl].
Qed.

(** X20: the file defines [middleware[type]] for the seven types only.
    It appends the piece to the stack of its type, after the pieces
    registered before, creating the stack when [load] has not run yet; the
    other stacks are left alone, and a later [load] keeps the piece. *)
Theorem register_appends (ty : string) (piece : Piece State) (ms : Middlewares State) :
  match middleware ty with
  | None => ty ∉ middlewareTypes
  | Some reg =>
      ty ∈ middlewareTypes /\
      let m := default (new_Middleware ty) (ms !! ty) in
      reg piece ms !! ty = Some (mkMiddleware (type m) (stack m ++ [piece])) /\
      load (reg piece ms) !! ty = reg piece ms !! ty /\
      (forall key, key <> ty -> reg piece ms !! key = ms !! key) /\
      (well_named ms -> well_named (reg piece ms))
  end.
Proof.
  unfold middleware.
  destruct (existsb (String.eqb ty) middlewareTypes) eqn:E.
  - apply types_existsb in E. split; [done|].
    assert (H1 : (match
                    match ms !! ty with
                    | Some _ => ms
                    | None => <[ty := new_Middleware ty]> ms
                    end !! ty
                  with
                  | Some m => <[ty := register piece m]>
                                match ms !! ty with
                                | Some _ => ms
                                | None => <[ty := new_Middleware ty]> ms
                                end
                  | None => match ms !! ty with
                            | Some _ => ms
                            | None => <[ty := new_Middleware ty]> ms
                            end
                  end)
                 = <[ty := register piece (default (new_Middleware ty) (ms !! ty))]> ms).
    { destruct (ms !! ty) as [m0|] eqn:Hty.
      - by rewrite Hty.
      - rewrite lookup_insert_eq. simpl. by rewrite insert_insert_eq. }
    simpl. rewrite H1. clear H1.
    split; [by rewrite lookup_insert_eq|].
    split; [by rewrite load_lookup, decide_True, lookup_insert_eq|].
    split; [intros key Hk; by rewrite lookup_insert_ne|].
    intros Hw key m. destruct (decide (key = ty)) as [->|Hne].
    + rewrite lookup_insert_eq. intros [= <-]. simpl.
      destruct (ms !! ty) as [m0|] eqn:Hty; simpl; [by apply Hw|done].
    + rewrite lookup_insert_ne by done. apply Hw.
  - intros Hin%types_existsb. congruence.
Qed.

End Registry.

End MiddlewaresProps.


(* ===================================================================== *)
(** * lib/condition.ts: [escape] and [fromString] on every input *)
(* ===================================================================== *)

Module Escaping.

Local Open Scope char_scope.

(** The characters of the class that [escape] looks for. *)
Definition special (c : ascii) : bool :=
  existsb (Ascii.eqb c)
    ["-"; "["; "]"; "/"; "{"; "}"; "("; ")"; "*"; "+"; "?"; "."; "\"; "^"; "$"; "|"].

(** A string with a backslash put before each special character. *)
Fixpoint escaped (s : string) : string :=
  match s with
  | EmptyString => EmptyString
  | String c rest =>
      if special c then String "\" (String c (escaped rest))
      else String c (escaped rest)
  end.

(** The matches of a one-character test in [l], the characters of the input
    from position [from] on. *)
Fixpoint hits (ok : ascii -> bool) (l : list ascii) (from : nat)
  : list (nat * nat * RegExp.Captures) :=
  match l with
  | [] => []
  | c :: rest =>
      if ok c then (from, S from, []) :: hits ok rest (S from)
      else hits ok rest (S from)
  end.

End Escaping.

Module EscapingProps.
Import Condition Escaping.

Lemma nth_error_lookup {A} (l : list A) (i : nat) : nth_error l i = l !! i.
Proof. revert i. induction l as [|a l IH]; intros [|i]; simpl; auto. Qed.

Lemma string_of_snoc (l : list ascii) (c : ascii) :
  string_of_list_ascii (l ++ [c]) = (string_of_list_ascii l ++ String c "")%string.
Proof. induction l as [|a l IH]; [done|]. simpl. by rewrite IH. Qed.

Lemma append_cons (x : ascii) (a b : string) :
  (String x a ++ b)%string = String x (a ++ b)%string.
Proof. reflexivity. Qed.

Lemma append_assoc (a b c : string) : ((a ++ b) ++ c = a ++ (b ++ c))%string.
Proof. induction a as [|x a IH]; [done|]. by rewrite !append_cons, IH. Qed.

Lemma append_nil_r (a : string) : (a ++ "")%string = a.
Proof. induction a as [|x a IH]; [done|]. by rewrite append_cons, IH. Qed.

Lemma skipn_cons_inv {A} (input : list A) (pos : nat) (c : A) (l : list A) :
  skipn pos input = c :: l ->
  nth_error input pos = Some c /\ skipn (S pos) input = l.
Proof.
  intros Hl. split.
  - rewrite nth_error_lookup. rewrite <- (Nat.add_0_r pos), <- lookup_drop.
    change (drop pos input) with (skipn pos input). by rewrite Hl.
  - change (S pos) with (1 + pos). by rewrite <- skipn_skipn, Hl.
Qed.

Section OneClass.

Variable input : list ascii.
Variable items : list RegExp.ClassItem.

Let ok (c : ascii) : bool := xorb false (RegExp.in_class false items c).

Let ok_at (p : nat) : bool :=
  match nth_error input p with
  | Some c => ok c
  | None => false
  end.

Lemma search_class (starts : list nat) :
  RegExp.search input false (RegExp.Class false items) starts =
    match List.find ok_at starts with
    | Some p => RegExp.Matched (p, S p, [])
    | None => RegExp.NoMatch
    end.
Proof.
  induction starts as [|p rest IH]; [done|].
  simpl. unfold RegExp.one_char, RegExp.at_pos, ok_at, ok.
  destruct (nth_error input p) as [c|]; [|exact IH].
  destruct (RegExp.in_class false items c); simpl; [done|exact IH].
Qed.

(** The first hit at or after [from]. *)
Lemma find_hits : forall (l : list ascii) (from : nat),
  skipn from input = l ->
  match List.find ok_at (seq from (S (length l))) with
  | Some p => from <= p < from + length l /\
              hits ok l from = (p, S p, []) :: hits ok (skipn (S p) input) (S p)
  | None => hits ok l from = []
  end.
Proof.
  induction l as [|c l IH]; intros from Hl.
  - simpl. unfold ok_at.
    assert (Hn : nth_error input from = None).
    { apply nth_error_None. rewrite <- (firstn_skipn from input) at 1.
      rewrite Hl, app_nil_r. rewrite length_firstn. lia. }
    by rewrite Hn.
  - assert (Hc : nth_error input from = Some c).
    { rewrite <- (firstn_skipn from input), Hl.
      assert (Hlen : length (firstn from input) = from).
      { rewrite length_firstn. apply Nat.min_l.
        destruct (Nat.le_gt_cases from (length input)) as [?|Hgt]; [done|].
        rewrite skipn_all2 in Hl by lia. discriminate. }
      rewrite nth_error_app2 by lia. by rewrite Hlen, Nat.sub_diag. }
    assert (Hl' : skipn (S from) input = l).
    { change (S from) with (1 + from). rewrite <- skipn_skipn, Hl. done. }
    change (seq from (S (length (c :: l)))) with (from :: seq (S from) (S (length l))).
    cbn [List.find hits]. unfold ok_at at 1. rewrite Hc.
    destruct (ok c) eqn:Hok.
    + split; [simpl; lia|]. by rewrite Hl'.
    + specialize (IH (S from) Hl').
      destruct (List.find ok_at (seq (S from) (S (length l)))) as [p|]; [|done].
      destruct IH as [Hp ->]. split; [simpl; lia|done].
Qed.

Lemma match_all_hits (src : string) : forall (fuel from : nat),
  length input - from < fuel ->
  RegExp.match_all fuel (RegExp.mk src false (RegExp.Class false items) 0) input from
  = RegExp.Matched (hits ok (skipn from input) from).
Proof.
  induction fuel as [|fuel IH]; intros from Hf; [lia|].
  cbn [RegExp.match_all RegExp.ignoreCase RegExp.tree].
  destruct (Nat.ltb_spec (length input) from) as [Hlt|Hle].
  - by rewrite skipn_all2 by lia.
  - rewrite search_class.
    pose proof (find_hits (skipn from input) from eq_refl) as H.
    assert (Hlen : S (length input) - from = S (length (skipn from input)))
      by (rewrite length_skipn; lia).
    rewrite Hlen.
    destruct (List.find ok_at (seq from (S (length (skipn from input))))) as [p|].
    + destruct H as [Hp ->]. rewrite length_skipn in Hp.
      assert (E : Nat.eqb (S p) p = false) by (apply Nat.eqb_neq; lia).
      rewrite E, IH by lia. done.
    + by rewrite H.
Qed.

Lemma slice_same (p : nat) : RegExp.slice input p p = "".
Proof. unfold RegExp.slice. by rewrite Nat.sub_diag. Qed.

Lemma slice_one (p : nat) (c : ascii) :
  nth_error input p = Some c -> RegExp.slice input p (S p) = String c "".
Proof.
  intros H. unfold RegExp.slice. replace (S p - p) with 1 by lia.
  destruct (nth_error_split _ _ H) as (l1 & l2 & -> & <-).
  by rewrite drop_app_length.
Qed.

Lemma slice_snoc (q p : nat) (c : ascii) :
  q <= p -> nth_error input p = Some c ->
  RegExp.slice input q (S p) = (RegExp.slice input q p ++ String c "")%string.
Proof.
  intros Hq H. unfold RegExp.slice.
  replace (S p - q) with (S (p - q)) by lia.
  rewrite (take_S_r _ _ c).
  - apply string_of_snoc.
  - rewrite lookup_drop. replace (q + (p - q)) with p by lia.
    by rewrite <- nth_error_lookup.
Qed.

(** What [rebuild] makes of the characters [l], with a backslash put before
    each hit. *)
Fixpoint rewritten (l : list ascii) : string :=
  match l with
  | [] => ""
  | c :: rest =>
      if ok c then String "\" (String c (rewritten rest))
      else String c (rewritten rest)
  end.

Lemma rebuild_hits : forall (l : list ascii) (pos q : nat),
  skipn pos input = l -> q <= pos ->
  RegExp.rebuild input (fun m => "\" ++ m)%string q (hits ok l pos)
  = (RegExp.slice input q pos ++ rewritten l)%string.
Proof.
  induction l as [|c l IH]; intros pos q Hl Hq; cbn [hits rewritten RegExp.rebuild].
  - assert (Hlen : length input <= pos).
    { destruct (Nat.le_gt_cases (length input) pos) as [?|Hgt]; [done|].
      assert (H : length (skipn pos input) = length input - pos) by apply length_skipn.
      rewrite Hl in H. simpl in H. lia. }
    unfold RegExp.slice.
    rewrite !firstn_all2 by (rewrite length_skipn; lia).
    by rewrite append_nil_r.
  - destruct (skipn_cons_inv input pos c l Hl) as [Hc Hl'].
    destruct (ok c).
    + cbn [RegExp.rebuild]. rewrite (IH (S pos) (S pos) Hl' (le_n _)).
      rewrite slice_same, (slice_one pos c Hc). reflexivity.
    + rewrite (IH (S pos) q Hl') by lia.
      rewrite (slice_snoc q pos c Hq Hc), append_assoc. reflexivity.
Qed.

End OneClass.

Lemma special_in_class (c : ascii) :
  xorb false
    (RegExp.in_class false
       [RegExp.CChar "-"; RegExp.CChar "["; RegExp.CChar "]"; RegExp.CChar "/";
        RegExp.CChar "{"; RegExp.CChar "}"; RegExp.CChar "("; RegExp.CChar ")";
        RegExp.CChar "*"; RegExp.CChar "+"; RegExp.CChar "?"; RegExp.CChar ".";
        RegExp.CChar "\"; RegExp.CChar "^"; RegExp.CChar "$"; RegExp.CChar "|"]%char c)
  = special c.
Proof.
  unfold RegExp.in_class, special. cbn [existsb RegExp.class_item andb].
  by rewrite orb_false_r.
Qed.

Lemma rewritten_escaped (s : string) :
  rewritten
    [RegExp.CChar "-"; RegExp.CChar "["; RegExp.CChar "]"; RegExp.CChar "/";
     RegExp.CChar "{"; RegExp.CChar "}"; RegExp.CChar "("; RegExp.CChar ")";
     RegExp.CChar "*"; RegExp.CChar "+"; RegExp.CChar "?"; RegExp.CChar ".";
     RegExp.CChar "\"; RegExp.CChar "^"; RegExp.CChar "$"; RegExp.CChar "|"]%char
    (list_ascii_of_string s)
  = escaped s.
Proof.
  induction s as [|c s IH]; [done|].
  cbn [list_ascii_of_string rewritten escaped].
  rewrite special_in_class, IH. reflexivity.
Qed.

Lemma re_special_tree :
  re_special =
    RegExp.mk "[\-\[\]\/\{\}\(\)\*\+\?\.\\\^\$\|]" false
      (RegExp.Class false
         [RegExp.CChar "-"; RegExp.CChar "["; RegExp.CChar "]"; RegExp.CChar "/";
          RegExp.CChar "{"; RegExp.CChar "}"; RegExp.CChar "("; RegExp.CChar ")";
          RegExp.CChar "*"; RegExp.CChar "+"; RegExp.CChar "?"; RegExp.CChar ".";
          RegExp.CChar "\"; RegExp.CChar "^"; RegExp.CChar "$"; RegExp.CChar "|"]%char)
      0.
Proof. vm_compute. reflexivity. Qed.

(** [escape] computes [escaped], on every string. *)
Lemma escape_escaped (str : string) : escape str = Ok (escaped str).
Proof.
  unfold escape, RegExp.replace_g. rewrite re_special_tree.
  rewrite match_all_hits by lia. cbn [of_outcome skipn].
  rewrite rebuild_hits by done.
  rewrite drop_0, slice_same, rewritten_escaped. reflexivity.
Qed.

Lemma escaped_length (s : string) :
  String.length (escaped s) =
    String.length s + length (List.filter special (list_ascii_of_string s)).
Proof.
  induction s as [|c s IH]; [done|].
  cbn [escaped list_ascii_of_string List.filter].
  destruct (special c) eqn:E; simpl; rewrite IH; lia.
Qed.

(** X21: [escape] never fails and puts one backslash before each of the
    sixteen special characters, leaving every other character where it was;
    a string without special characters comes back unchanged, and only such
    a string does. *)
Theorem escape_backslashes_specials (str : string) :
  escape str = Ok (escaped str) /\
  String.length (escaped str) =
    String.length str + length (List.filter special (list_ascii_of_string str)) /\
  (escape str = Ok str <->
   forallb (fun c => negb (special c)) (list_ascii_of_string str) = true).
Proof.
  split; [apply escape_escaped|]. split; [apply escaped_length|].
  rewrite escape_escaped. split.
  - intros [= H]. induction str as [|c s IH]; [done|].
    cbn [escaped] in H. cbn [list_ascii_of_string forallb].
    destruct (special c) eqn:E.
    + exfalso. assert (Hl := f_equal String.length H).
      simpl in Hl. rewrite escaped_length in Hl. lia.
    + injection H as H. by rewrite (IH H).
  - intros H. f_equal. induction str as [|c s IH]; [done|].
    cbn [list_ascii_of_string forallb] in H. apply andb_true_iff in H as [Hc Hs].
    cbn [escaped]. apply negb_true_iff in Hc. by rewrite Hc, (IH Hs).
Qed.

Lemma search_anchored (input : list ascii) (c : ascii) (rest : RegExp.Re)
    (starts : list nat) :
  hd_error input <> Some c ->
  RegExp.search input false
    (RegExp.Seq RegExp.Bol (RegExp.Seq (RegExp.Char c) rest)) starts
  = RegExp.NoMatch.
Proof.
  intros Hc. induction starts as [|p starts IH]; [done|].
  cbn [RegExp.search RegExp.m]. destruct p as [|p]; cbn [Nat.eqb]; [|exact IH].
  unfold RegExp.one_char, RegExp.at_pos. destruct input as [|a input]; [exact IH|].
  cbn [nth_error RegExp.same_char].
  destruct (Ascii.eqb_spec c a) as [->|Hne]; [by destruct Hc|exact IH].
Qed.

Lemma re_slashes_tree :
  re_slashes =
    RegExp.mk "^/(.+)/(.*)$" false
      (RegExp.Seq RegExp.Bol
         (RegExp.Seq (RegExp.Char "/")
            (RegExp.Seq (RegExp.Group 1 (RegExp.Rep 1 None true RegExp.Any))
               (RegExp.Seq (RegExp.Char "/")
                  (RegExp.Seq (RegExp.Group 2 (RegExp.Rep 0 None true RegExp.Any))
                     RegExp.Eol)))))
      2.
Proof. vm_compute. reflexivity. Qed.

(** X22: [fromString] throws on every string that does not begin with a
    slash, the empty string included, with a message that quotes the
    string. *)
Theorem fromString_needs_leading_slash (str : string) :
  (forall rest, str <> String "/" rest) ->
  fromString str = Throw ("[expression] " ++ str ++ " can not convert to expression").
Proof.
  intros H. unfold fromString, RegExp.match_. rewrite re_slashes_tree.
  cbn [RegExp.tree RegExp.ignoreCase]. rewrite search_anchored; [done|].
  destruct str as [|a rest]; [done|]. simpl. intros [= ->]. by destruct (H rest).
Qed.

Lemma fromString_needs_leading_slash_witness :
  fromString "hello/i" = Throw "[expression] hello/i can not convert to expression".
Proof.
  apply (fromString_needs_leading_slash "hello/i"). intros rest. discriminate.
Defined.

End EscapingProps.


(* ===================================================================== *)
(** * lib/condition.ts: a condition [is] matches its own value *)
(* ===================================================================== *)

Module Literal.

(** A character before a tree. *)
Definition before_tree (c : ascii) (a : RegExp.Re) : RegExp.Re :=
  match a with
  | RegExp.Empty => RegExp.Char c
  | _ => RegExp.Seq (RegExp.Char c) a
  end.

(** The tree of a pattern that is a sequence of characters. *)
Fixpoint chars (s : string) : RegExp.Re :=
  match s with
  | EmptyString => RegExp.Empty
  | String c rest => before_tree c (chars rest)
  end.

(** A string that does not begin with a quantifier. *)
Definition starts_plain (s : string) : bool :=
  match s with
  | String d _ =>
      negb (Ascii.eqb d "*" || Ascii.eqb d "+" || Ascii.eqb d "?" || Ascii.eqb d "{")
  | EmptyString => true
  end.

End Literal.

Module LiteralProps.
Import Condition Escaping EscapingProps Literal.

Local Open Scope char_scope.

Lemma special_escape_of (c : ascii) :
  special c = true -> RegExp.escape_of c = Some (RegExp.EChar c).
Proof.
  intros H. unfold special in H. cbn [existsb] in H.
  repeat (apply orb_prop in H as [H|H];
          [apply Ascii.eqb_eq in H; subst c; reflexivity|]).
  discriminate.
Qed.

(** What the parser asks of a character that is not special. *)
Lemma plain_tests (c : ascii) :
  special c = false ->
  RegExp.is_syntax_char c = false /\
  Ascii.eqb c "|" = false /\ Ascii.eqb c ")" = false /\ Ascii.eqb c "^" = false /\
  Ascii.eqb c "$" = false /\ Ascii.eqb c "." = false /\ Ascii.eqb c "(" = false /\
  Ascii.eqb c "[" = false /\ Ascii.eqb c "\" = false /\ Ascii.eqb c "*" = false /\
  Ascii.eqb c "+" = false /\ Ascii.eqb c "?" = false /\ Ascii.eqb c "{" = false.
Proof.
  intros H. unfold special in H. cbn [existsb] in H.
  repeat (apply orb_false_elim in H as [? H]).
  unfold RegExp.is_syntax_char. cbn [existsb].
  repeat match goal with E : Ascii.eqb c _ = false |- _ => rewrite E; clear E end.
  repeat split.
Qed.

Lemma parse_quantifier_plain (atom : RegExp.Re) (s : string) :
  starts_plain s = true -> RegExp.parse_quantifier atom s = Some (atom, s).
Proof.
  destruct s as [|d s]; [done|]. unfold starts_plain, RegExp.parse_quantifier.
  intros H. apply negb_true_iff in H.
  repeat (apply orb_false_elim in H as [H ?]).
  repeat match goal with E : Ascii.eqb d _ = false |- _ => rewrite E; clear E end.
  reflexivity.
Qed.

Lemma escaped_starts_plain (v tl : string) :
  starts_plain tl = true -> starts_plain (escaped v ++ tl)%string = true.
Proof.
  intros H. destruct v as [|c v]; [exact H|]. cbn [escaped].
  destruct (special c) eqn:E; rewrite !append_cons; [reflexivity|].
  destruct (plain_tests c E) as (_ & _ & _ & _ & _ & _ & _ & _ & _ & H1 & H2 & H3 & H4).
  unfold starts_plain. by rewrite H1, H2, H3, H4.
Qed.

Lemma parse_term_escaped (c : ascii) (v tl : string) (fuel n : nat) :
  starts_plain tl = true ->
  RegExp.parse_term (S fuel) (escaped (String c v) ++ tl)%string n
  = Some (RegExp.Char c, (escaped v ++ tl)%string, n).
Proof.
  intros H. pose proof (escaped_starts_plain v tl H) as Hq.
  cbn [escaped]. destruct (special c) eqn:E; rewrite !append_cons.
  - cbn [RegExp.parse_term]. cbn [Ascii.eqb Bool.eqb andb orb].
    rewrite (special_escape_of c E). unfold RegExp.quantified.
    by rewrite parse_quantifier_plain.
  - destruct (plain_tests c E)
      as (H0 & _ & _ & H1 & H2 & H3 & H4 & H5 & H6 & _).
    cbn [RegExp.parse_term]. rewrite H1, H2, H3, H4, H5, H6, H0.
    unfold RegExp.quantified. by rewrite parse_quantifier_plain.
Qed.

Lemma escaped_head (c : ascii) (v tl : string) :
  exists h rest, (escaped (String c v) ++ tl)%string = String h rest /\
                 Ascii.eqb h "|" = false /\ Ascii.eqb h ")" = false.
Proof.
  cbn [escaped]. destruct (special c) eqn:E; rewrite !append_cons.
  - by eexists _, _.
  - destruct (plain_tests c E) as (_ & H1 & H2 & _). by eexists _, _.
Qed.

Lemma parse_alternative_escaped (r : string) : forall (v : string) (fuel n : nat),
  String.length v < fuel ->
  RegExp.parse_alternative fuel (escaped v ++ String ")" r)%string n
  = Some (chars v, String ")" r, n).
Proof.
  induction v as [|c v IH]; intros fuel n Hf.
  - destruct fuel as [|fuel]; [simpl in Hf; lia|]. reflexivity.
  - destruct fuel as [|fuel]; [simpl in Hf; lia|].
    destruct (escaped_head c v (String ")" r)) as (h & rest & Heq & H1 & H2).
    rewrite Heq. cbn [RegExp.parse_alternative]. rewrite H1, H2. cbn [orb].
    rewrite <- Heq. destruct fuel as [|fuel]; [simpl in Hf; lia|].
    rewrite parse_term_escaped by done. cbn beta iota.
    rewrite IH by (simpl in Hf; lia).
    cbn [chars]. unfold before_tree. by destruct (chars v).
Qed.

Lemma length_append (a b : string) :
  String.length (a ++ b)%string = String.length a + String.length b.
Proof. induction a as [|x a IH]; [done|]. rewrite append_cons. simpl. by rewrite IH. Qed.

Lemma step_disjunction (g : nat) (s : string) (n : nat) (a : RegExp.Re)
    (rest : string) (n' : nat) :
  RegExp.parse_alternative g s n = Some (a, rest, n') ->
  RegExp.strip "|" rest = None ->
  RegExp.parse_disjunction (S g) s n = Some (a, rest, n').
Proof. intros H1 H2. cbn [RegExp.parse_disjunction]. by rewrite H1, H2. Qed.

Lemma step_alternative (g : nat) (c : ascii) (s : string) (n : nat) (t a : RegExp.Re)
    (rest rest' : string) (n' n'' : nat) :
  Ascii.eqb c "|" = false -> Ascii.eqb c ")" = false ->
  RegExp.parse_term g (String c s) n = Some (t, rest, n') ->
  RegExp.parse_alternative g rest n' = Some (a, rest', n'') ->
  RegExp.parse_alternative (S g) (String c s) n
  = Some (match a with RegExp.Empty => t | _ => RegExp.Seq t a end, rest', n'').
Proof.
  intros H1 H2 H3 H4. cbn [RegExp.parse_alternative].
  rewrite H1, H2, H3. cbn [orb]. rewrite H4. by destruct a.
Qed.

Lemma strip_question (p rest : string) :
  RegExp.strip "?" rest = None -> RegExp.strip (String "?" p) rest = None.
Proof.
  destruct rest as [|b rest]; [done|]. cbn [RegExp.strip].
  by destruct (Ascii.eqb "?" b).
Qed.

Lemma step_group (g : nat) (rest : string) (n : nat) (d : RegExp.Re) (r : string)
    (m : nat) :
  RegExp.strip "?" rest = None ->
  RegExp.parse_disjunction g rest (S n) = Some (d, String ")" r, m) ->
  starts_plain r = true ->
  RegExp.parse_term (S g) (String "(" rest) n = Some (RegExp.Group (S n) d, r, m).
Proof.
  intros H1 H2 H3. cbn [RegExp.parse_term]. cbn [Ascii.eqb Bool.eqb andb].
  rewrite !(strip_question _ rest H1), ?H1. cbn beta iota. rewrite H2.
  unfold RegExp.expect_close, RegExp.wrap, RegExp.quantified.
  cbn [RegExp.strip Ascii.eqb Bool.eqb andb]. by rewrite parse_quantifier_plain.
Qed.

Lemma escaped_no_question (v tl : string) :
  RegExp.strip "?" tl = None -> RegExp.strip "?" (escaped v ++ tl)%string = None.
Proof.
  intros H. destruct v as [|c v]; [exact H|]. cbn [escaped].
  destruct (special c) eqn:E; rewrite !append_cons; [reflexivity|].
  destruct (plain_tests c E) as (_ & _ & _ & _ & _ & _ & _ & _ & _ & _ & _ & H1 & _).
  cbn [RegExp.strip]. rewrite Ascii.eqb_sym. by rewrite H1.
Qed.

Local Close Scope char_scope.

Lemma parse_is (v : string) (f : nat) :
  String.length v < f ->
  RegExp.parse_disjunction (S (S (S (S (S f)))))
    (String "^" (String "(" (escaped v ++ ")$"))) 0
  = Some (RegExp.Seq RegExp.Bol (RegExp.Seq (RegExp.Group 1 (chars v)) RegExp.Eol),
          "", 1).
Proof.
  intros Hf.
  apply step_disjunction; [|done].
  apply (step_alternative _ _ _ _ RegExp.Bol
           (RegExp.Seq (RegExp.Group 1 (chars v)) RegExp.Eol)
           (String "(" (escaped v ++ ")$")) "" 0 1); [done|done|done|].
  apply (step_alternative _ _ _ _ (RegExp.Group 1 (chars v)) RegExp.Eol "$" "" 1 1);
    [done|done| |done].
  apply step_group; [by apply escaped_no_question| |done].
  apply step_disjunction; [|done].
  by apply parse_alternative_escaped.
Qed.

Lemma compile_is (v flags : string) :
  flags = "" \/ flags = "i" ->
  RegExp.compile ("^(" ++ escaped v ++ ")$") flags
  = Some (RegExp.mk ("^(" ++ escaped v ++ ")$") (String.eqb flags "i")
            (RegExp.Seq RegExp.Bol
               (RegExp.Seq (RegExp.Group 1 (chars v)) RegExp.Eol)) 1).
Proof.
  intros Hfl. unfold RegExp.compile.
  assert (Hfuel : exists f, 3 * String.length ("^(" ++ escaped v ++ ")$") + 3
                            = S (S (S (S (S f)))) /\ String.length v < f).
  { rewrite !append_cons. cbn [String.length].
    change ("" ++ (escaped v ++ ")$"))%string with (escaped v ++ ")$")%string.
    rewrite length_append, escaped_length. simpl.
    exists (3 * String.length v
            + 3 * length (List.filter special (list_ascii_of_string v)) + 10).
    split; lia. }
  destruct Hfuel as (f & -> & Hf).
  rewrite !append_cons.
  change ("" ++ (escaped v ++ ")$"))%string with (escaped v ++ ")$")%string.
  rewrite (parse_is v f Hf). by destruct Hfl as [-> | ->].
Qed.

Lemma same_char_refl (i : bool) (c : ascii) : RegExp.same_char i c c = true.
Proof. destruct i; apply Ascii.eqb_refl. Qed.

(** A character followed by a tree. *)
Lemma m_char_then (input : list ascii) (i : bool) (c : ascii) (a : RegExp.Re)
    (p : nat) (caps : RegExp.Captures) (k : RegExp.Cont) :
  RegExp.m input i (before_tree c a) p caps k
  = RegExp.one_char input (RegExp.same_char i c) p caps
      (fun p' caps' => RegExp.m input i a p' caps' k).
Proof. by destruct a. Qed.

(** The characters of [w] match where the input holds them. *)
Lemma m_chars (input : list ascii) (i : bool) : forall (w : string) (p : nat)
    (caps : RegExp.Captures) (k : RegExp.Cont) (tail : list ascii),
  skipn p input = (list_ascii_of_string w ++ tail)%list ->
  RegExp.m input i (chars w) p caps k = k (p + String.length w) caps.
Proof.
  induction w as [|c w IH]; intros p caps k tail H.
  - simpl. by rewrite Nat.add_0_r.
  - cbn [chars]. rewrite m_char_then.
    cbn [list_ascii_of_string] in H. rewrite <- app_comm_cons in H.
    destruct (skipn_cons_inv input p c _ H) as [Hc Hrest].
    unfold RegExp.one_char, RegExp.at_pos. rewrite Hc, same_char_refl.
    rewrite (IH (S p) caps k tail Hrest). cbn [String.length].
    by rewrite Nat.add_succ_r.
Qed.

Lemma length_list_ascii (s : string) :
  length (list_ascii_of_string s) = String.length s.
Proof. induction s as [|c s IH]; [done|]. simpl. by rewrite IH. Qed.

(** The expression of a condition [is] on the value itself. *)
Lemma match_is (src v : string) (i : bool) :
  RegExp.match_
    (RegExp.mk src i
       (RegExp.Seq RegExp.Bol (RegExp.Seq (RegExp.Group 1 (chars v)) RegExp.Eol)) 1) v
  = RegExp.Matched (Some [Some v; Some v]).
Proof.
  unfold RegExp.match_. cbn [RegExp.tree RegExp.ignoreCase RegExp.groups].
  cbn [seq RegExp.search RegExp.m Nat.eqb].
  rewrite (m_chars _ i v 0 _ _ []) by (by rewrite app_nil_r).
  cbn [Nat.add]. rewrite length_list_ascii, Nat.eqb_refl.
  cbn [map RegExp.capture RegExp.set_capture List.filter List.find fst snd Nat.eqb].
  unfold RegExp.slice. rewrite Nat.sub_0_r, drop_0.
  rewrite firstn_all2 by (by rewrite length_list_ascii).
  by rewrite string_of_list_ascii_of_string.
Qed.

Section Is.

Variable rangeRegex : string -> option string -> string.

(** X23: a condition [{ is: v }] compiles, for every string [v] (its
    special characters escaped), and the expression matches [v] itself,
    whole, capturing it; this holds for all options that do not ask to
    ignore punctuation. *)
Theorem is_condition_matches_its_value (v : string) (options : IConditionOptions) :
  ignorePunctuation options <> Some true ->
  exists re,
    fromCondition rangeRegex [(is_, One v)] options = Ok re /\
    RegExp.source re = "^(" ++ escaped v ++ ")$" /\
    RegExp.match_ re v = RegExp.Matched (Some [Some v; Some v]).
Proof.
  intros Hp.
  assert (Hi : truthy (ignorePunctuation (with_defaults options)) = false).
  { unfold with_defaults. cbn [ignorePunctuation _defaults or_default].
    destruct (ignorePunctuation options) as [[|]|]; [by destruct Hp|done|done]. }
  unfold fromCondition, key_pattern. cbn [traverse fst snd bind].
  rewrite escape_escaped. cbn [bind]. rewrite Hi. cbn [bind join pattern_of].
  cbn [combine bind]. unfold new_RegExp. cbn [join].
  rewrite compile_is by (destruct (truthy (Condition.ignoreCase (with_defaults options))); auto).
  eexists. split; [reflexivity|]. split; [reflexivity|]. apply match_is.
Qed.

End Is.

Lemma is_condition_matches_its_value_witness :
  exists re,
    fromCondition ConditionProps.no_range [(is_, One "what? (really)")] no_options = Ok re /\
    RegExp.match_ re "what? (really)"
    = RegExp.Matched (Some [Some "what? (really)"; Some "what? (really)"]).
Proof.
  destruct (is_condition_matches_its_value ConditionProps.no_range
              "what? (really)" no_options) as (re & H1 & _ & H2); [discriminate|].
  by exists re.
Defined.

End LiteralProps.


(* ===================================================================== *)
(** * lib/condition.ts: the [Conditions] class *)
(* ===================================================================== *)

Module ConditionsProps.
Import Condition.

Section Dict.

Context {A : Type}.

Lemma dict_get_in (key : string) (d : Dict A) :
  In key (keys d) <-> exists v, dict_get key d = Some v.
Proof.
  induction d as [|[k w] d IH]; simpl.
  - split; [done|]. by intros [v ?].
  - destruct (String.eqb_spec k key) as [->|Hne].
    + split; [by exists w|by left].
    + rewrite <- IH. split; [intros [?|?]; [done|done]|by right].
Qed.

Lemma dict_get_replace (key key' : string) (v : A) (d : Dict A) :
  dict_get key' (dict_replace key v d) =
    if String.eqb key key'
    then match dict_get key d with Some _ => Some v | None => None end
    else dict_get key' d.
Proof.
  induction d as [|[k w] d IH]; simpl.
  - by destruct (String.eqb key key').
  - destruct (String.eqb_spec k key) as [->|Hne]; simpl.
    + by destruct (String.eqb key key').
    + destruct (String.eqb_spec k key') as [->|Hne'].
      * destruct (String.eqb_spec key key') as [->|?]; done.
      * exact IH.
Qed.

Lemma dict_get_insert (key key' : string) (v : A) (d : Dict A) :
  dict_get key d = None ->
  dict_get key' (dict_insert key v d) =
    if String.eqb key key' then Some v else dict_get key' d.
Proof.
  induction d as [|[k w] d IH]; simpl; [done|].
  destruct (String.eqb_spec k key) as [->|Hne]; [done|]. intros Hd.
  destruct (match array_index key with
            | Some n => match array_index k with
                        | Some m => Nat.ltb n m
                        | None => true
                        end
            | None => false
            end); simpl.
  - done.
  - rewrite (IH Hd). destruct (String.eqb_spec k key') as [->|Hne'];
      [|done]. by destruct (String.eqb_spec key key') as [->|?].
Qed.

(** [d[key] = v] followed by [d[key']] *)
Lemma dict_get_set (key key' : string) (v : A) (d : Dict A) :
  dict_get key' (dict_set key v d) =
    if String.eqb key key' then Some v else dict_get key' d.
Proof.
  unfold dict_set. destruct (dict_get key d) eqn:Hd.
  - rewrite dict_get_replace, Hd. done.
  - by apply dict_get_insert.
Qed.

Lemma keys_replace (key : string) (v : A) (d : Dict A) :
  keys (dict_replace key v d) = keys d.
Proof.
  unfold keys. induction d as [|[k w] d IH]; simpl; [done|].
  destruct (String.eqb k key); simpl; [done|]. by rewrite IH.
Qed.

Lemma keys_insert (key : string) (v : A) (d : Dict A) :
  keys (dict_insert key v d) ≡ₚ key :: keys d.
Proof.
  unfold keys. induction d as [|[k w] d IH]; simpl; [done|].
  destruct (match array_index key with
            | Some n => match array_index k with
                        | Some m => Nat.ltb n m
                        | None => true
                        end
            | None => false
            end); simpl; [done|].
  rewrite IH. apply Permutation_swap.
Qed.

Lemma keys_set_NoDup (key : string) (v : A) (d : Dict A) :
  NoDup (keys d) -> NoDup (keys (dict_set key v d)).
Proof.
  intros H. unfold dict_set. destruct (dict_get key d) eqn:Hd.
  - by rewrite keys_replace.
  - rewrite keys_insert. apply NoDup_cons. split; [|done].
    intros Hin%list_elem_of_In%dict_get_in. destruct Hin as [w Hw]. congruence.
Qed.

End Dict.

Section Class.

Variable rangeRegex : string -> option string -> string.

(** [add] changes the expressions only, and keeps their keys distinct. *)
Lemma add_keeps (condition : Input) (key : Key) (c c' : Conditions) :
  add rangeRegex condition key c = Ok c' ->
  matches c' = matches c /\ captures c' = captures c /\ config c' = config c /\
  (NoDup (keys (expressions c)) -> NoDup (keys (expressions c'))).
Proof.
  unfold add, bind.
  destruct (match condition with
            | IString s => fromString s
            | IRegExp re => Ok re
            | ICondition cond => fromCondition rangeRegex cond (config c)
            | _ => Throw "TypeError"
            end) as [re| |]; [|done|done].
  intros [= <-]. simpl. repeat split; try done. apply keys_set_NoDup.
Qed.

Lemma add_all_keeps (cs : list Condition) : forall (c c' : Conditions),
  add_all rangeRegex cs c = Ok c' ->
  matches c' = matches c /\ captures c' = captures c /\ config c' = config c /\
  (NoDup (keys (expressions c)) -> NoDup (keys (expressions c'))).
Proof.
  induction cs as [|cond cs IH]; intros c c'; simpl.
  - by intros [= <-].
  - destruct (add rangeRegex (ICondition cond) NoKey c) as [c1| |] eqn:Ha;
      simpl; [|done|done].
    intros H. destruct (IH _ _ H) as (-> & -> & -> & Hn').
    destruct (add_keeps _ _ _ _ Ha) as (-> & -> & -> & Hn). repeat split; auto.
Qed.

Lemma add_named_keeps (cs : Dict Condition) : forall (c c' : Conditions),
  add_named rangeRegex cs c = Ok c' ->
  matches c' = matches c /\ captures c' = captures c /\ config c' = config c /\
  (NoDup (keys (expressions c)) -> NoDup (keys (expressions c'))).
Proof.
  induction cs as [|[key cond] cs IH]; intros c c'; simpl.
  - by intros [= <-].
  - destruct (add rangeRegex (ICondition cond) (Name key) c) as [c1| |] eqn:Ha;
      simpl; [|done|done].
    intros H. destruct (IH _ _ H) as (-> & -> & -> & Hn').
    destruct (add_keeps _ _ _ _ Ha) as (-> & -> & -> & Hn). repeat split; auto.
Qed.

(** X24: an instance just constructed, whatever it was given, holds no
    result: [success] is nevertheless true, and [match], [matched] and
    [captured] are [undefined]; its expressions have distinct keys and its
    configuration is the options over the defaults. *)
Theorem new_holds_no_result (condition : option Input) (options : IConditionOptions)
    (c : Conditions) :
  new rangeRegex condition options = Ok c ->
  success c = true /\
  Condition.match_ c = inr None /\
  matched c = Undefined /\
  captured c = Undefined /\
  config c = with_defaults options /\
  NoDup (keys (expressions c)).
Proof.
  intros H.
  assert (Hf : matches c = [] /\ captures c = [] /\ config c = with_defaults options /\
               NoDup (keys (expressions c))).
  { set (c0 := mkConditions (with_defaults options) [] [] []) in *.
    assert (H0 : NoDup (keys (expressions c0))) by constructor.
    assert (Hadd : forall i k, add rangeRegex i k c0 = Ok c ->
               matches c = [] /\ captures c = [] /\ config c = with_defaults options /\
               NoDup (keys (expressions c))).
    { intros i k Ha. destruct (add_keeps _ _ _ _ Ha) as (-> & -> & -> & Hn).
      repeat split; auto. }
    unfold new in H. fold c0 in H.
    destruct condition as [[s|re|cond|cs|cs]|].
    - destruct s; [by injection H as <-|by eapply Hadd].
    - by eapply Hadd.
    - destruct (isCondition cond); [by eapply Hadd|by injection H as <-].
    - destruct (add_all_keeps _ _ _ H) as (-> & -> & -> & Hn). repeat split; auto.
    - destruct (negb (length cs =? 0)%nat &&
                forallb (fun kv => existsb (String.eqb kv.1) validKeys) cs); [done|].
      destruct (isConditionCollection cs); [|by injection H as <-].
      destruct (add_named_keeps _ _ _ H) as (-> & -> & -> & Hn). repeat split; auto.
    - by injection H as <-. }
  destruct Hf as (Hm & Hc & Hcfg & Hn).
  unfold success, Condition.match_, matched, captured. rewrite Hm. simpl.
  repeat split; auto.
Qed.

End Class.

Lemma new_holds_no_result_witness :
  success (mkConditions (with_defaults no_options) [("0", re_special)] [] []) = true.
Proof.
  refine (proj1 (new_holds_no_result ConditionProps.no_range
                   (Some (IRegExp re_special)) no_options _ _)).
  reflexivity.
Defined.

Lemma exec_one_spec (str : string) (c c' : Conditions) (key : string) (re : RegExp.t) :
  exec_one str c (key, re) = Ok c' ->
  exists m, RegExp.match_ re str = RegExp.Matched m /\
            config c' = config c /\ expressions c' = expressions c /\
            matches c' = dict_set key m (matches c).
Proof.
  unfold exec_one, bind, of_outcome.
  destruct (RegExp.match_ re str) as [m| |]; [|done|done].
  destruct (match m with
            | Some (_ :: Some g1 :: _) =>
                match trim g1 with
                | Ok a => Ok (Some a)
                | Throw msg => Throw msg
                | Beyond => Beyond
                end
            | _ => Ok None
            end) as [cap| |]; [|done|done].
  intros [= <-]. by exists m.
Qed.

Lemma exec_loop_spec (str : string) (es : Dict RegExp.t) :
  forall (c c' : Conditions),
    NoDup (keys es) ->
    exec_loop str es c = Ok c' ->
    expressions c' = expressions c /\
    forall key,
      match dict_get key es with
      | Some re => exists m, RegExp.match_ re str = RegExp.Matched m /\
                             dict_get key (matches c') = Some m
      | None => dict_get key (matches c') = dict_get key (matches c)
      end.
Proof.
  induction es as [|[k re] es IH]; intros c c' Hn; cbn [exec_loop dict_get].
  - by intros [= <-].
  - destruct (exec_one str c (k, re)) as [c1| |] eqn:H1; cbn [bind]; [|done|done].
    intros H. apply exec_one_spec in H1 as (m & Hm & _ & He & Hms).
    apply NoDup_cons in Hn as [Hk Hn].
    destruct (IH c1 c' Hn H) as [He' Hall]. split; [congruence|].
    intros key. specialize (Hall key).
    destruct (String.eqb_spec k key) as [->|Hne].
    + exists m. split; [done|].
      destruct (dict_get key es) as [re'|] eqn:Hd.
      * destruct Hk. apply list_elem_of_In, dict_get_in. by exists re'.
      * rewrite Hall, Hms, dict_get_set, String.eqb_refl. done.
    + destruct (dict_get key es); [done|].
      rewrite Hall, Hms, dict_get_set.
      destruct (String.eqb_spec k key); [done|done].
Qed.

(** X25: [exec] keeps the expressions and stores, under the key of each
    expression, what the string gives against it; results stored under other
    keys stay.  On an instance without earlier results, [success] is then
    true exactly when every expression matches the string. *)
Theorem exec_records_every_expression (str : string) (c c' : Conditions) :
  NoDup (keys (expressions c)) ->
  exec str c = Ok c' ->
  expressions c' = expressions c /\
  (forall key re, dict_get key (expressions c) = Some re ->
     exists m, RegExp.match_ re str = RegExp.Matched m /\
               dict_get key (matches c') = Some m) /\
  (forall key, dict_get key (expressions c) = None ->
     dict_get key (matches c') = dict_get key (matches c)) /\
  (matches c = [] ->
     (success c' = true <->
      forall key re, dict_get key (expressions c) = Some re ->
        exists l, RegExp.match_ re str = RegExp.Matched (Some l))).
Proof.
  intros Hn H. destruct (exec_loop_spec str (expressions c) c c' Hn H) as [He Hall].
  assert (H2 : forall key re, dict_get key (expressions c) = Some re ->
             exists m, RegExp.match_ re str = RegExp.Matched m /\
                       dict_get key (matches c') = Some m).
  { intros key re Hd. specialize (Hall key). by rewrite Hd in Hall. }
  assert (H3 : forall key, dict_get key (expressions c) = None ->
             dict_get key (matches c') = dict_get key (matches c)).
  { intros key Hd. specialize (Hall key). by rewrite Hd in Hall. }
  split; [done|]. split; [done|]. split; [done|].
  intros Hm. unfold success. rewrite forallb_forall. split.
  - intros Hs key re Hd. destruct (H2 key re Hd) as (m & Hmatch & Hget).
    assert (Hin : In key (keys (matches c'))) by (apply dict_get_in; by exists m).
    specialize (Hs key Hin). rewrite Hget in Hs.
    destruct m as [l|]; [by exists l|done].
  - intros Hall' key Hin. apply dict_get_in in Hin as [m Hget].
    destruct (dict_get key (expressions c)) as [re|] eqn:Hd.
    + destruct (H2 key re Hd) as (m' & Hmatch & Hget').
      destruct (Hall' key re Hd) as [l Hl]. rewrite Hget'.
      rewrite Hl in Hmatch. by injection Hmatch as <-.
    + rewrite (H3 key Hd), Hm in Hget. done.
Qed.

(** An instance with one expression, and its state after [exec]. *)
Definition one_expression : Conditions :=
  mkConditions (with_defaults no_options) [("0", RegExp.literal "a+" "")] [] [].

Lemma exec_records_every_expression_witness :
  NoDup (keys (expressions one_expression)) /\
  exists c', exec "caab" one_expression = Ok c' /\ success c' = true.
Proof.
  assert (Hn : NoDup (keys (expressions one_expression))).
  { repeat constructor. by intros ?%elem_of_nil. }
  split; [exact Hn|].
  assert (He : exec "caab" one_expression
               = Ok (mkConditions (with_defaults no_options)
                       [("0", RegExp.literal "a+" "")]
                       [("0", Some [Some "aa"])] [("0", None)]))
    by (vm_compute; reflexivity).
  eexists. split; [exact He|].
  apply (proj2 (proj2 (proj2 (exec_records_every_expression _ _ _ Hn He))) eq_refl).
  intros key re. unfold one_expression. cbn [expressions dict_get].
  destruct (String.eqb "0" key); [|done].
  intros [= <-]. eexists. vm_compute. reflexivity.
Defined.

End ConditionsProps.


(* ===================================================================== *)
(** * The life cycle: failures that never exit, and the order of teardown *)
(* ===================================================================== *)

Module LifecycleMore.
Import Lifecycle.

(** The event that [shutdown] waits for, by status. *)
Definition awaited (st : string) : option string :=
  if String.eqb st "loading" then Some "loaded"
  else if String.eqb st "starting" then Some "started"
  else None.

(** A task that is over, or suspended in [shutdown] until [e] is emitted. *)
Definition waits_for (e : string) (tk : Task) : Prop :=
  match tk with
  | Running (SdAwaitEvent e' _ :: _) None => e' = e
  | Settled _ => True
  | _ => False
  end.

(** Every call of [shutdown] waits for [e], and every task is waiting. *)
Definition stalled (e : string) (s : Bot) : Prop :=
  awaited (getStatus (status (core s))) = Some e /\
  Forall (waits_for e) (tasks s).

(** Events that are no progress of any task: calls from outside and
    emissions. *)
Definition idle (ev : Event) : bool :=
  match ev with
  | Invoked _ _ | Emitted _ => true
  | _ => false
  end.

(** The three teardown calls. *)
Inductive Teardown := TMemory | TAdapters | TServer.

Definition teardown_of (t : nat) (ev : Event) : option Teardown :=
  match ev with
  | MemoryShutdown t' => if Nat.eqb t t' then Some TMemory else None
  | AdaptersShutdown t' => if Nat.eqb t t' then Some TAdapters else None
  | ServerShutdown t' => if Nat.eqb t t' then Some TServer else None
  | _ => None
  end.

(** Reading the teardown calls of task [t] in a record: the adapters are
    shut down right after the memory, the server right after the adapters.
    [last] is the last call read; [None] as answer: out of order. *)
Fixpoint in_order (t : nat) (last : option Teardown) (evs : list Event)
  : option (option Teardown) :=
  match evs with
  | [] => Some last
  | ev :: rest =>
      match teardown_of t ev with
      | None => in_order t last rest
      | Some TMemory => in_order t (Some TMemory) rest
      | Some TAdapters =>
          match last with
          | Some TMemory => in_order t (Some TAdapters) rest
          | _ => None
          end
      | Some TServer =>
          match last with
          | Some TAdapters => in_order t (Some TServer) rest
          | _ => None
          end
      end
  end.

End LifecycleMore.

Module LifecycleMoreProps.
Import Lifecycle LifecycleProps LifecycleMore.

Lemma awaited_inv (st e : string) :
  awaited st = Some e ->
  (st = "loading" /\ e = "loaded") \/ (st = "starting" /\ e = "started").
Proof.
  unfold awaited.
  destruct (String.eqb_spec st "loading") as [->|_]; [intros [= <-]; auto|].
  destruct (String.eqb_spec st "starting") as [->|_]; [intros [= <-]; auto|done].
Qed.

(** While [shutdown] would wait, every exported function ends up waiting in
    [shutdown] and changes nothing. *)
Lemma call_stalled (e : string) (cl : Call) (t : nat) (sync : bool) (c : Core) :
  awaited (getStatus (status c)) = Some e ->
  exists exit rest, call cl t sync c = (c, Suspend (SdAwaitEvent e exit :: rest) None).
Proof.
  intros H. apply awaited_inv in H as [[Hs ->]|[Hs ->]];
    destruct cl; cbv [call start load pause reset shutdown];
    rewrite Hs; simpl; eauto.
Qed.

Lemma invoke_stalled (e : string) (cl : Call) (sync : bool) (s : Bot) :
  stalled e s ->
  stalled e (invoke cl sync s) /\
  status (core (invoke cl sync s)) = status (core s) /\
  log (core (invoke cl sync s)) = (log (core s) ++ [Invoked (length (tasks s)) cl])%list.
Proof.
  intros [Hs Ht]. unfold invoke.
  destruct (call_stalled e cl (length (tasks s)) sync
              (record (Invoked (length (tasks s)) cl) (core s)) Hs)
    as (exit & rest & ->).
  unfold settle. cbn [tasks place]. rewrite list_lookup_middle by done.
  cbn [core tasks]. split; [|done]. split; [exact Hs|].
  apply Forall_app. split; [done|]. by repeat constructor.
Qed.

Lemma wake_waits (e x : string) (tk : Task) :
  x <> e -> waits_for e tk -> wake x tk = tk.
Proof.
  intros Hx. destruct tk as [[|[] rest] [|]|]; simpl; try done.
  intros ->. destruct (String.eqb_spec x e); done.
Qed.

Lemma step_stalled (e : string) (s : Bot) (l : Label) :
  stalled e s -> l <> Emit e ->
  stalled e (step s l) /\
  status (core (step s l)) = status (core s) /\
  exists new, log (core (step s l)) = (log (core s) ++ new)%list /\
              forallb idle new = true.
Proof.
  intros Hst Hl. destruct l as [cl sync|t ok sync heard|x]; unfold step.
  - destruct (invoke_stalled e cl sync s Hst) as (H1 & H2 & H3).
    split; [done|]. split; [done|]. by eexists.
  - assert (Hsame : stalled e s /\ status (core s) = status (core s) /\
              exists new, log (core s) = (log (core s) ++ new)%list /\
                          forallb idle new = true).
    { split; [done|]. split; [done|]. exists []. by rewrite app_nil_r. }
    destruct (tasks s !! t) as [[[|f rest] rdy|]|] eqn:Ht; try done.
    destruct Hst as [_ Hall].
    pose proof (proj1 (Forall_lookup _ _) Hall t _ Ht) as Hw.
    destruct f, rdy; try done.
  - assert (Hx : x <> e) by (intros ->; by destruct Hl).
    destruct Hst as [Hs Hall]. unfold hear. cbn [fold_left core tasks record status log].
    split; [split; [done|]|].
    + apply Forall_fmap. eapply Forall_impl; [exact Hall|].
      intros tk Hw. simpl. by rewrite (wake_waits e x tk Hx Hw).
    + split; [done|]. by exists [Emitted x].
Qed.

Lemma run_stalled (e : string) (ls : list Label) : forall s,
  stalled e s -> Forall (fun l => l <> Emit e) ls ->
  stalled e (run s ls) /\
  status (core (run s ls)) = status (core s) /\
  exists new, log (core (run s ls)) = (log (core s) ++ new)%list /\
              forallb idle new = true.
Proof.
  induction ls as [|l ls IH]; intros s Hst Hls.
  - split; [done|]. split; [done|]. exists []. by rewrite app_nil_r.
  - apply Forall_cons in Hls as [Hl Hls]. simpl.
    destruct (step_stalled e s l Hst Hl) as (H1 & H2 & new1 & H3 & H4).
    destruct (IH (step s l) H1 Hls) as (H5 & H6 & new2 & H7 & H8).
    split; [done|]. split; [congruence|].
    exists (new1 ++ new2)%list. rewrite H7, H3, <- app_assoc. split; [done|].
    by rewrite forallb_app, H4, H8.
Qed.

(** X26: when [load] fails in its synchronous part, the [shutdown(1)] of
    its catch block waits for the event ['loaded'], which only the end of a
    successful [load] or other code emits.  Unless other code emits it, the
    status stays ['loading'] for ever, every later call of an exported
    function waits as well, nothing is torn down, no task settles and the
    process never exits. *)
Theorem failed_load_never_exits (ls : list Label) :
  Forall (fun l => l <> Emit "loaded") ls ->
  let s := run initial (Invoke CLoad false :: ls) in
  getStatus (status (core s)) = "loading" /\
  tasks s !! 0 = Some (Running [SdAwaitEvent "loaded" 1; LdAwaitCatch] None) /\
  Forall (waits_for "loaded") (tasks s) /\
  forallb idle (log (core s)) = true.
Proof.
  intros Hls. cbn [run fold_left].
  set (s0 := step initial (Invoke CLoad false)).
  assert (H0 : stalled "loaded" s0) by (split; [reflexivity|by repeat constructor]).
  destruct (run_stalled "loaded" ls s0 H0 Hls) as ([H1 H2] & H3 & new & H4 & H5).
  fold (run s0 ls). split; [by rewrite H3|]. split; [|split; [done|]].
  - clear - H0 Hls. revert s0 H0 Hls.
    assert (G : forall ks s, stalled "loaded" s ->
              Forall (fun l => l <> Emit "loaded") ks ->
              forall tk, waits_for "loaded" tk -> tasks s !! 0 = Some tk ->
              tasks (run s ks) !! 0 = Some tk).
    { intros ks. induction ks as [|l ks IH]; intros s Hst Hks tk Hw Ht; [exact Ht|].
      apply Forall_cons in Hks as [Hl Hls]. simpl.
      apply (IH _ (proj1 (step_stalled _ s l Hst Hl)) Hls tk Hw).
      destruct l as [cl sync|t ok sync heard|x]; unfold step.
      - destruct (invoke_extends cl sync s) as (extra & _ & -> & _).
        rewrite lookup_app_l; [done|]. by apply lookup_lt_Some in Ht.
      - destruct (tasks s !! t) as [[[|f rest] rdy|]|] eqn:Ht'; try done.
        destruct Hst as [_ Hall].
        pose proof (proj1 (Forall_lookup _ _) Hall t _ Ht') as Hw'.
        destruct f, rdy; done.
      - unfold hear. cbn [fold_left tasks]. rewrite list_lookup_fmap, Ht. simpl.
        rewrite (wake_waits "loaded" x tk); [done| |done].
        intros ->. by destruct Hl. }
    intros s0 H0 Hls. by apply (G ls s0 H0 Hls).
  - rewrite H4, forallb_app, H5. reflexivity.
Qed.

Lemma failed_load_never_exits_witness :
  getStatus (status (core (run initial
    [Invoke CLoad false; Invoke (CShutdown 0) true; Resume 0 true true [];
     Emit "shutdown"; Resume 1 true true []]))) = "loading".
Proof.
  refine (proj1 (failed_load_never_exits
            [Invoke (CShutdown 0) true; Resume 0 true true [];
             Emit "shutdown"; Resume 1 true true []] _)).
  repeat constructor; discriminate.
Defined.

(** A call of [start] in the initial state, run until [server.start()],
    [adapters.start()] or [memory.start()] rejects: [k] of them resolved
    before. *)
Definition start_until_failure (k : nat) : list Label :=
  ([Invoke CStart true; Resume 0 true true []; Resume 0 true true []]
   ++ repeat (Resume 0 true true []) k ++ [Resume 0 false true []])%list.

(** X27: when [server.start()], [adapters.start()] or [memory.start()]
    rejects, the [shutdown(1)] of the catch block of [start] waits for the
    event ['started'], which [start] emits only after that catch block.
    Unless other code emits it, the status stays ['starting'] for ever,
    every later call waits as well, nothing is torn down, [start] never
    settles and the process never exits. *)
Theorem failed_start_never_exits (k : nat) (ls : list Label) :
  k <= 2 ->
  Forall (fun l => l <> Emit "started") ls ->
  let s0 := run initial (start_until_failure k) in
  let s := run s0 ls in
  getStatus (status (core s)) = "starting" /\
  tasks s0 = [Running [SdAwaitEvent "started" 1; StAwaitCatch] None] /\
  Forall (waits_for "started") (tasks s) /\
  forallb idle (observed s0 s) = true.
Proof.
  intros Hk Hls. cbv zeta.
  assert (H0 : stalled "started" (run initial (start_until_failure k)) /\
               tasks (run initial (start_until_failure k))
               = [Running [SdAwaitEvent "started" 1; StAwaitCatch] None]).
  { destruct k as [|[|[|k]]]; [| | |lia];
      (split; [split; [reflexivity|by repeat constructor]|reflexivity]). }
  destruct H0 as [H0 Ht0].
  destruct (run_stalled "started" ls _ H0 Hls) as ([H1 H2] & H3 & new & H4 & H5).
  split; [|split; [done|split; [done|]]].
  - rewrite H3. by destruct k as [|[|[|k]]]; [| | |lia].
  - unfold observed. rewrite H4, drop_app_length. exact H5.
Qed.

Lemma failed_start_never_exits_witness :
  getStatus (status (core (run (run initial (start_until_failure 1))
                             [Invoke CPause true; Resume 1 true true []])))
  = "starting".
Proof.
  refine (proj1 (failed_start_never_exits 1
                   [Invoke CPause true; Resume 1 true true []] _ _)).
  - lia.
  - repeat constructor; discriminate.
Defined.

(** ** The order of the teardown calls *)

Lemma in_order_app (t : nat) (a b : list Event) : forall last,
  in_order t last (a ++ b) =
    match in_order t last a with
    | Some l => in_order t l b
    | None => None
    end.
Proof.
  induction a as [|ev a IH]; intros last; [done|]. simpl.
  destruct (teardown_of t ev) as [[| |]|]; [apply IH| | |apply IH].
  - destruct last as [[| |]|]; auto.
  - destruct last as [[| |]|]; auto.
Qed.

Lemma in_order_none (t : nat) (new : list Event) (last : option Teardown) :
  Forall (fun ev => teardown_of t ev = None) new -> in_order t last new = Some last.
Proof. induction 1 as [|ev new Hev _ IH]; [done|]. simpl. by rewrite Hev. Qed.

(** What task [t] stands at, against the last teardown call it made. *)
Definition top_inv (last : option Teardown) (tk : option Task) : Prop :=
  match tk with
  | Some (Running (f :: rest) _) =>
      Forall (fun g => sd g = false) rest /\
      (forall exit, f = SdAwaitMemory exit -> last = Some TMemory) /\
      (forall exit, f = SdAwaitAdapters exit -> last = Some TAdapters)
  | Some _ => True
  | None => last = None
  end.

Definition ordered (s : Bot) : Prop :=
  forall t, exists last,
    in_order t None (log (core s)) = Some last /\ top_inv last (tasks s !! t).

(** A call up to its first await: it is suspended in [shutdown] after the
    first teardown call, or elsewhere with nothing torn down. *)
Definition begun (t : nat) (c : Core) (res : Core * Ret) : Prop :=
  match res.2 with
  | Suspend (f :: rest) _ =>
      Forall (fun g => sd g = false) rest /\
      ((exists exit, f = SdAwaitMemory exit) /\
       log res.1 = (log c ++ [MemoryShutdown t])%list
       \/
       (forall exit, f <> SdAwaitMemory exit) /\
       (forall exit, f <> SdAwaitAdapters exit) /\
       log res.1 = log c)
  | Suspend [] _ => False
  | Return _ => log res.1 = log c
  end.

Lemma shutdown_begun (t exit : nat) (c : Core) : begun t c (shutdown t exit c).
Proof.
  unfold shutdown, begun.
  repeat match goal with |- context [if ?b then _ else _] => destruct b end;
    simpl; try done.
  - split; [done|]. right. by repeat split.
  - split; [done|]. right. by repeat split.
  - split; [done|]. left. split; [by exists exit|done].
Qed.

Lemma await_call_begun (t : nat) (c : Core) (parent : Frame) (r : Core * Ret) :
  sd parent = false -> begun t c r -> begun t c (await_call parent r).
Proof.
  intros Hp. destruct r as [c' [[|f rest] rdy|ok]]; unfold begun; simpl; [done| |].
  - intros [Hr H]. split; [|done]. apply Forall_app. split; [done|by constructor].
  - intros ->. split; [done|]. right.
    repeat split; try done; intros exit ->; discriminate.
Qed.

Lemma begun_status (t : nat) (c c0 : Core) (r : Core * Ret) :
  log c0 = log c -> begun t c0 r -> begun t c r.
Proof. unfold begun. intros ->. done. Qed.

Lemma reset_body_begun (t : nat) (sync : bool) (c : Core) :
  begun t c (reset_body t sync c).
Proof.
  unfold reset_body. destruct sync.
  - unfold begun. simpl. split; [done|]. right. by repeat split.
  - apply await_call_begun; [done|apply shutdown_begun].
Qed.

Lemma reset_begun (t : nat) (sync : bool) (c : Core) : begun t c (reset t sync c).
Proof.
  unfold reset. destruct (negb _).
  - apply await_call_begun; [done|apply shutdown_begun].
  - apply reset_body_begun.
Qed.

Lemma load_body_begun (t : nat) (sync : bool) (c : Core) :
  begun t c (load_body t sync c).
Proof.
  unfold load_body. destruct sync.
  - unfold begun. simpl. split; [done|]. right. by repeat split.
  - apply await_call_begun; [done|].
    apply (begun_status t c (set_status Loading c)); [done|apply shutdown_begun].
Qed.

Lemma load_begun (t : nat) (sync : bool) (c : Core) : begun t c (load t sync c).
Proof.
  unfold load. destruct (negb _).
  - apply await_call_begun; [done|apply reset_begun].
  - apply load_body_begun.
Qed.

Lemma start_body_begun (t : nat) (c : Core) : begun t c (start_body c).
Proof. unfold begun. simpl. split; [done|]. right. by repeat split. Qed.

Lemma start_begun (t : nat) (sync : bool) (c : Core) : begun t c (start t sync c).
Proof.
  unfold start. destruct (negb _).
  - apply await_call_begun; [done|apply load_begun].
  - apply start_body_begun.
Qed.

Lemma start_catch_begun (t : nat) (c : Core) : begun t c (start_catch t c).
Proof. apply await_call_begun; [done|apply shutdown_begun]. Qed.

Lemma call_begun (cl : Call) (t : nat) (sync : bool) (c : Core) :
  begun t c (call cl t sync c).
Proof.
  destruct cl; simpl;
    auto using load_begun, start_begun, shutdown_begun, reset_begun.
  apply await_call_begun; [done|apply shutdown_begun].
Qed.

(** What a turn records and where it leaves the task. *)
Definition turned (t : nat) (last : option Teardown) (c c' : Core) (r : Ret) : Prop :=
  exists new,
    log c' = (log c ++ new)%list /\
    (forall t', t' <> t -> Forall (fun ev => teardown_of t' ev = None) new) /\
    exists last',
      in_order t last new = Some last' /\
      match r with
      | Suspend (g :: fr) _ =>
          Forall (fun h => sd h = false) fr /\
          (forall exit, g = SdAwaitMemory exit -> last' = Some TMemory) /\
          (forall exit, g = SdAwaitAdapters exit -> last' = Some TAdapters)
      | Suspend [] _ => False
      | Return _ => True
      end.

Lemma teardown_of_other (t t' : nat) (ev : Event) :
  t' <> t ->
  ev = MemoryShutdown t \/ ev = AdaptersShutdown t \/ ev = ServerShutdown t ->
  teardown_of t' ev = None.
Proof.
  intros Hne [->|[->| ->]]; simpl;
    by destruct (Nat.eqb_spec t' t).
Qed.

Lemma begun_turned (t : nat) (last : option Teardown) (c : Core) (r : Core * Ret) :
  begun t c r -> turned t last c r.1 r.2.
Proof.
  destruct r as [c' [[|f rest] rdy|ok]]; unfold begun, turned; simpl; [done| |].
  - intros [Hr [[[exit ->] Hl]|(Hm & Ha & Hl)]].
    + exists [MemoryShutdown t]. split; [done|]. split.
      * intros t' Hne. constructor; [|done]. apply (teardown_of_other t); auto.
      * exists (Some TMemory). simpl. rewrite Nat.eqb_refl.
        repeat split; try done; intros exit' [=].
    + exists []. rewrite app_nil_r. split; [done|]. split; [done|].
      exists last. repeat split; try done.
      * intros exit ->. by destruct (Hm exit).
      * intros exit ->. by destruct (Ha exit).
  - intros ->. exists []. rewrite app_nil_r. split; [done|]. split; [done|].
    by exists last.
Qed.

Lemma turned_status (t : nat) (last : option Teardown) (c c0 c' : Core) (r : Ret) :
  log c0 = log c -> turned t last c0 c' r -> turned t last c c' r.
Proof. unfold turned. intros ->. done. Qed.

Lemma resume_turned (t : nat) (f : Frame) (ok sync : bool) (c : Core)
    (last : option Teardown) :
  (forall exit, f = SdAwaitMemory exit -> last = Some TMemory) ->
  (forall exit, f = SdAwaitAdapters exit -> last = Some TAdapters) ->
  turned t last c (resume t f ok sync c).1.1 (resume t f ok sync c).1.2.
Proof.
  intros Hm Ha.
  assert (Hret : forall b, turned t last c c (Return b)).
  { intros b. exists []. rewrite app_nil_r. split; [done|]. split; [done|].
    by exists last. }
  assert (Hsus : forall g, (forall exit, g <> SdAwaitMemory exit) ->
            (forall exit, g <> SdAwaitAdapters exit) ->
            turned t last c c (Suspend [g] None)).
  { intros g H1 H2. exists []. rewrite app_nil_r. split; [done|]. split; [done|].
    exists last. repeat split; try done.
    - intros exit ->. by destruct (H1 exit).
    - intros exit ->. by destruct (H2 exit). }
  assert (Hfin : forall n e, turned t last c (record (Emitted e) (set_status n c))
                               (Return true)).
  { intros n e. exists [Emitted e]. split; [done|]. split; [by repeat constructor|].
    by exists last. }
  destruct f; simpl; unfold quiet, finish; try destruct ok; simpl;
    try apply Hret; try apply Hfin; try (apply Hsus; intros; discriminate);
    try (apply (begun_turned t last c); auto using reset_body_begun, load_body_begun,
           start_body_begun, start_catch_begun).
  - exists [MemoryShutdown t]. split; [done|]. split.
    + intros t' Hne. constructor; [|done]. apply (teardown_of_other t); auto.
    + exists (Some TMemory). simpl. rewrite Nat.eqb_refl.
      repeat split; try done; intros exit' [=].
  - exists [MemoryShutdown t]. split; [done|]. split.
    + intros t' Hne. constructor; [|done]. apply (teardown_of_other t); auto.
    + exists (Some TMemory). simpl. rewrite Nat.eqb_refl.
      repeat split; try done; intros exit' [=].
  - exists [AdaptersShutdown t]. split; [done|]. split.
    + intros t' Hne. constructor; [|done]. apply (teardown_of_other t); auto.
    + exists (Some TAdapters). simpl. rewrite Nat.eqb_refl, (Hm exit eq_refl).
      repeat split; try done; intros exit' [=].
  - exists [ServerShutdown t]. split; [done|]. split.
    + intros t' Hne. constructor; [|done]. apply (teardown_of_other t); auto.
    + exists (Some TServer). simpl. rewrite Nat.eqb_refl, (Ha exit eq_refl).
      repeat split; try done; intros exit' [=].
Qed.

Lemma top_inv_wake (last : option Teardown) (e : string) (tk : option Task) :
  top_inv last tk -> top_inv last (wake e <$> tk).
Proof.
  destruct tk as [[[|f rest] rdy|ok]|]; simpl; try done.
  destruct f; try done. destruct rdy; try done.
  by destruct (String.eqb e e0).
Qed.

Lemma ordered_wake (e : string) (s : Bot) :
  ordered s -> ordered (mkBot (core s) (map (wake e) (tasks s))).
Proof.
  intros H t. destruct (H t) as (last & Hl & Ht). exists last.
  split; [done|]. cbn [tasks]. rewrite list_lookup_fmap. by apply top_inv_wake.
Qed.

Lemma ordered_record (ev : Event) (s : Bot) :
  (forall t, teardown_of t ev = None) ->
  ordered s -> ordered (mkBot (record ev (core s)) (tasks s)).
Proof.
  intros Hev H t. destruct (H t) as (last & Hl & Ht). exists last.
  split; [|done]. cbn [core record log]. rewrite in_order_app, Hl. simpl.
  by rewrite Hev.
Qed.

Lemma ordered_settle (t : nat) (s : Bot) : ordered s -> ordered (settle t s).
Proof.
  intros H. unfold settle. destruct (tasks s !! t) as [[fs rdy|ok]|]; try done.
  by apply (ordered_record _ s).
Qed.

Lemma ordered_process_exit (f : Frame) (s : Bot) :
  ordered s -> ordered (mkBot (process_exit f (core s)) (tasks s)).
Proof.
  intros H. destruct f; simpl; try (by destruct s as [c ts]).
  destruct (Nat.eqb exit 0); [by destruct s as [c ts]|].
  by apply (ordered_record _ s).
Qed.

Lemma ordered_invoke (cl : Call) (sync : bool) (s : Bot) :
  ordered s -> ordered (invoke cl sync s).
Proof.
  intros H. unfold invoke.
  pose proof (call_begun cl (length (tasks s)) sync
                (record (Invoked (length (tasks s)) cl) (core s))) as Hb.
  apply (begun_turned _ None) in Hb.
  destruct (call cl (length (tasks s)) sync
              (record (Invoked (length (tasks s)) cl) (core s))) as [c r].
  apply ordered_settle. intros t. destruct (H t) as (last & Hl & Ht).
  destruct Hb as (new & Hlog & Hother & last' & Hin & Htop).
  cbn [fst snd core tasks record log] in *.
  destruct (decide (t = length (tasks s))) as [->|Hne].
  - rewrite lookup_ge_None_2 in Ht by done. simpl in Ht. subst last.
    exists last'. rewrite Hlog, !in_order_app, Hl. simpl. split; [done|].
    rewrite list_lookup_middle by done.
    destruct r as [[|g fr] rdy|ok]; simpl; [done| |done].
    rewrite app_nil_r. done.
  - exists last. rewrite Hlog, !in_order_app, Hl. simpl.
    rewrite (in_order_none t new last (Hother t Hne)). split; [done|].
    destruct (Nat.lt_ge_cases t (length (tasks s))) as [Hlt|Hge].
    + by rewrite lookup_app_l.
    + rewrite lookup_ge_None_2 in Ht by done. simpl in Ht.
      rewrite lookup_ge_None_2; [done|]. rewrite length_app. simpl. lia.
Qed.

Lemma ordered_hear (e : string) (heard : list (Call * bool)) (s : Bot) :
  ordered s -> ordered (hear e heard s).
Proof.
  intros H. unfold hear. apply ordered_wake with (e := e) in H.
  revert H. generalize (mkBot (core s) (map (wake e) (tasks s))).
  induction heard as [|cb heard IH]; intros s0 H0; [done|]. simpl.
  apply IH. by apply ordered_invoke.
Qed.

Lemma ordered_resume (t : nat) (f : Frame) (rest : list Frame) (rdy : option bool)
    (ok sync : bool) (s : Bot) :
  ordered s ->
  tasks s !! t = Some (Running (f :: rest) rdy) ->
  ordered (mkBot (resume t f ok sync (core s)).1.1
                 (<[t := place (resume t f ok sync (core s)).1.2 rest]> (tasks s))).
Proof.
  intros H Ht t'. destruct (H t') as (last & Hl & Htop).
  destruct (decide (t' = t)) as [->|Hne].
  - rewrite Ht in Htop. simpl in Htop. destruct Htop as (Hrest & Hm & Ha).
    destruct (resume_turned t f ok sync (core s) last Hm Ha)
      as (new & Hlog & _ & last' & Hin & Hr).
    exists last'. cbn [core tasks]. rewrite Hlog, in_order_app, Hl.
    split; [done|]. rewrite list_lookup_insert_eq by (by eapply lookup_lt_Some).
    destruct ((resume t f ok sync (core s)).1.2) as [[|g fr] rdy'|ok']; simpl.
    + done.
    + destruct Hr as (Hfr & Hm' & Ha'). split; [|done].
      apply Forall_app. by split.
    + destruct rest as [|g rest']; [done|]. simpl.
      apply Forall_cons in Hrest as [Hg Hrest]. split; [done|].
      split; intros exit ->; discriminate.
  - assert (Hm : forall exit, f = SdAwaitMemory exit ->
              match in_order t None (log (core s)) with
              | Some l => l
              | None => None
              end = Some TMemory).
    { destruct (H t) as (l & -> & Htop'). rewrite Ht in Htop'.
      simpl in Htop'. apply Htop'. }
    assert (Ha : forall exit, f = SdAwaitAdapters exit ->
              match in_order t None (log (core s)) with
              | Some l => l
              | None => None
              end = Some TAdapters).
    { destruct (H t) as (l & -> & Htop'). rewrite Ht in Htop'.
      simpl in Htop'. apply Htop'. }
    destruct (resume_turned t f ok sync (core s) _ Hm Ha)
      as (new & Hlog & Hother & _).
    exists last. cbn [core tasks]. rewrite Hlog, in_order_app, Hl.
    rewrite (in_order_none t' new last (Hother t' Hne)). split; [done|].
    by rewrite list_lookup_insert_ne.
Qed.

Lemma ordered_step (s : Bot) (l : Label) : ordered s -> ordered (step s l).
Proof.
  intros H. destruct l as [cl sync|t ok sync heard|x]; unfold step.
  - by apply ordered_invoke.
  - destruct (tasks s !! t) as [[[|f rest] rdy|]|] eqn:Ht; try done.
    destruct (resumable (Running (f :: rest) rdy) ok); [|done].
    pose proof (ordered_resume t f rest rdy ok sync s H Ht) as H1.
    destruct (resume t f ok sync (core s)) as [[c r] [e|]]; cbn [fst snd] in H1.
    + apply ordered_settle.
      apply (ordered_process_exit f
               (hear e heard (mkBot c (<[t:=place r rest]> (tasks s))))).
      by apply ordered_hear.
    + apply ordered_settle. cbn [core tasks].
      by apply (ordered_process_exit f (mkBot c (<[t:=place r rest]> (tasks s)))).
  - apply ordered_hear. by apply (ordered_record _ s).
Qed.

Lemma ordered_run (ls : list Label) : forall s, ordered s -> ordered (run s ls).
Proof.
  induction ls as [|l ls IH]; intros s H; [done|]. simpl.
  apply IH. by apply ordered_step.
Qed.

Lemma ordered_initial : ordered initial.
Proof. intros t. exists None. split; [done|]. by destruct t. Qed.

(** X28: in every run, whatever the interleaving of the tasks, the outcomes
    of the collaborators and the listeners, each task makes its teardown
    calls in order: it calls [adapters.shutdown()] only right after its call
    of [memory.shutdown()], and [server.shutdown()] only right after its call
    of [adapters.shutdown()]. *)
Theorem teardown_calls_in_order (ls : list Label) (t : nat) :
  exists last, in_order t None (log (core (run initial ls))) = Some last.
Proof.
  destruct (ordered_run ls initial ordered_initial t) as (last & H & _).
  by exists last.
Qed.

(** The reading [in_order] refuses a record in which the adapters are shut
    down before the memory. *)
Example in_order_refuses :
  in_order 0 None [Invoked 0 (CShutdown 0); AdaptersShutdown 0] = None /\
  in_order 0 None [MemoryShutdown 0; ServerShutdown 0] = None /\
  in_order 0 None [MemoryShutdown 0; AdaptersShutdown 1; AdaptersShutdown 0;
                   ServerShutdown 0; MemoryShutdown 0] = Some (Some TMemory).
Proof. repeat split. Qed.

End LifecycleMoreProps.


(* ===================================================================== *)
(** * lib/bit.ts *)
(* ===================================================================== *)

Module Bit.

(** [string | string[]] *)
Inductive Strings :=
| Str (s : string)
| Strs (l : list string).

(** A string is truthy when it is not empty, an array always. *)
Definition truthy (x : option Strings) : bool :=
  match x with
  | Some (Str s) => negb (String.eqb s "")
  | Some (Strs _) => true
  | None => false
  end.

(** The names that every object inherits: [bits[name]] is defined for them
    although no bit was stored. *)
Definition inherited : list string :=
  [ "constructor"; "__proto__"; "hasOwnProperty"; "isPrototypeOf";
    "propertyIsEnumerable"; "toLocaleString"; "toString"; "valueOf";
    "__defineGetter__"; "__defineSetter__"; "__lookupGetter__";
    "__lookupSetter__" ].

Section Bits.

(** The state handed to callbacks, which may change it. *)
Variable State : Type.

(** [IBit]: the declared attributes, each possibly absent.  A condition is
    given by its source. *)
Record IBit := mkIBit {
  id : option string;
  send : option Strings;
  catch : option string;
  callback : option (State -> State);
  catchCallback : option (State -> State);
  condition : option string;
  intent : option string;
  listen : option string;
  scope : option string;
  next : option Strings;
  options : option string
}.

(** A [Bit] instance: the attributes copied, under an [id] that is always
    there. *)
Record Bit := mkBit {
  bit_id : string;
  attributes : IBit
}.

(** The counters behind [counter(prefix)], which the file imports, and the
    function itself. *)
Variable Counters : Type.
Variable counter : string -> Counters -> string * Counters.

(** What the functions of the file read and write: the [bits] collection,
    the counters, and the lines logged as warnings and errors. *)
Record World := mkWorld {
  bits : gmap string Bit;
  counters : Counters;
  warnings : list string;
  errors : list string
}.

(** [new Bit(options)].  The identifier is computed first; the copy of the
    attributes then overwrites it with the one of the options, if any, also
    when that one is empty. *)
Definition new_Bit (o : IBit) (w : World) : Bit * World :=
  let '(first, cs) :=
    match id o with
    | Some s => if negb (String.eqb s "") then (s, counters w) else counter "bit" (counters w)
    | None => counter "bit" (counters w)
    end in
  let this := mkBit (match id o with Some s => s | None => first end) o in
  (this,
   mkWorld (bits w) cs
     (if negb (truthy (send o)) && negb (match callback o with Some _ => true | None => false end)
      then (warnings w ++ ["Bit won't work without a send or callback attribute."])%list
      else warnings w)
     (errors w)).

(** [execute (state)] *)
Definition execute (b : Bit) (state : State) : State :=
  match callback (attributes b) with
  | Some cb => cb state
  | None => state
  end.

(** [setupBit (options)]: the identifier returned and the world after.
    [None]: the identifier is ['__proto__'], which stores no bit. *)
Definition setupBit (o : IBit) (w : World) : option (string * World) :=
  let '(bit, w1) := new_Bit o w in
  if String.eqb (bit_id bit) "__proto__" then None
  else Some (bit_id bit,
             mkWorld (<[bit_id bit := bit]> (bits w1)) (counters w1)
                     (warnings w1) (errors w1)).

(** How the promise of [doBit] settles. *)
Inductive Outcome :=
| Resolved (state : State)
| Rejected (msg : string).

(** [doBit (id, state)] *)
Definition doBit (id : string) (state : State) (w : World) : World * Outcome :=
  match bits w !! id with
  | Some bit => (w, Resolved (execute bit state))
  | None =>
      if existsb (String.eqb id) inherited
      then (w, Rejected "TypeError: bit.execute is not a function")
      else (mkWorld (bits w) (counters w) (warnings w)
              (errors w ++ ["Attempted to do bit with unknown ID"])%list,
            Resolved state)
  end.

End Bits.

Arguments mkIBit {State}.
Arguments id {State}.
Arguments send {State}.
Arguments callback {State}.
Arguments mkBit {State}.
Arguments bit_id {State}.
Arguments attributes {State}.
Arguments mkWorld {State Counters}.
Arguments bits {State Counters}.
Arguments counters {State Counters}.
Arguments warnings {State Counters}.
Arguments errors {State Counters}.
Arguments new_Bit {State Counters}.
Arguments execute {State}.
Arguments setupBit {State Counters}.
Arguments doBit {State Counters}.
Arguments Resolved {State}.
Arguments Rejected {State}.

End Bit.

Module BitProps.
Import Bit.

Section Bits.

Context {State Counters : Type}.
Variable counter : string -> Counters -> string * Counters.

(** X29: the identifier returned by [setupBit] is the one under which
    [doBit] finds the bit: the call resolves after running the callback of
    the options on the state, once, or leaves the state alone when there is
    no callback (a [send] attribute is never sent); nothing is logged as an
    error, and the bits stored under other identifiers are kept. *)
Theorem setupBit_then_doBit (o : IBit State) (w w1 : World State Counters)
    (i : string) (state : State) :
  setupBit counter o w = Some (i, w1) ->
  doBit i state w1 =
    (w1, Resolved (match callback o with Some cb => cb state | None => state end)) /\
  bits w1 !! i = Some (mkBit i o) /\
  (forall j, j <> i -> bits w1 !! j = bits w !! j) /\
  errors w1 = errors w.
Proof.
  unfold setupBit, new_Bit.
  destruct (match id o with
            | Some s => if negb (String.eqb s "") then (s, counters w)
                        else counter "bit" (counters w)
            | None => counter "bit" (counters w)
            end) as [first cs].
  cbn [bit_id bits counters warnings errors].
  destruct (String.eqb _ "__proto__"); [done|]. intros [= <- <-].
  unfold doBit. cbn [bits errors]. rewrite lookup_insert_eq.
  split; [done|]. split; [done|]. split; [|done].
  intros j Hj. by rewrite lookup_insert_ne.
Qed.

(** X30: [doBit] with an identifier under which no bit is stored resolves,
    logs one error and leaves the state and the bits as they are, unless the
    identifier is a name that every object inherits: then the promise is
    rejected with a [TypeError] and nothing is logged. *)
Theorem doBit_unknown (i : string) (state : State) (w : World State Counters) :
  bits w !! i = None ->
  (doBit i state w).2 =
    (if existsb (String.eqb i) inherited
     then Rejected "TypeError: bit.execute is not a function"
     else Resolved state) /\
  bits (doBit i state w).1 = bits w /\
  errors (doBit i state w).1 =
    (if existsb (String.eqb i) inherited then errors w
     else (errors w ++ ["Attempted to do bit with unknown ID"])%list).
Proof.
  intros H. unfold doBit. rewrite H.
  by destruct (existsb (String.eqb i) inherited).
Qed.

End Bits.

(** A counter that numbers the identifiers of each prefix. *)
Definition numbered (prefix : string) (n : nat) : string * nat :=
  ((prefix ++ "_" ++ Condition.to_string (S n))%string, S n).

Definition greeting : IBit (list string) :=
  mkIBit None (Some (Str "hello")) None (Some (fun st => ("greeted" :: st)%list))
         None None None None None None None.

Definition no_bits : World (list string) nat := mkWorld ∅ 0 [] [].

Lemma setupBit_then_doBit_witness :
  exists w1, setupBit numbered greeting no_bits = Some ("bit_1", w1) /\
             doBit "bit_1" [] w1 = (w1, Resolved ["greeted"]).
Proof.
  eexists. split; [reflexivity|].
  refine (proj1 (setupBit_then_doBit numbered greeting no_bits _ "bit_1" [] _)).
  reflexivity.
Defined.

Lemma doBit_unknown_witness :
  (doBit "bit_7" ["x"] no_bits).2 = Resolved ["x"] /\
  (doBit "toString" ["x"] no_bits).2
    = Rejected "TypeError: bit.execute is not a function".
Proof.
  split.
  - exact (proj1 (doBit_unknown "bit_7" ["x"] no_bits eq_refl)).
  - exact (proj1 (doBit_unknown "toString" ["x"] no_bits eq_refl)).
Defined.

End BitProps.
